(** * PlatariumWalletCLI: message storage and server client

    A shallow embedding of [src/messaging/messageStorage.js] (class
    [MessageStorage]), of the WebSocket part of [src/api/serverClient.js]
    (class [ServerClient]) and of the reading of the key tool's output in
    [src/core/rustCore.js] (class [RustCore]), with the properties of the
    specification stated over it, and further properties of the code. *)

From Stdlib Require Import ZArith NArith List Bool Lia String Ascii DecimalString Sorted.
From stdpp Require Import gmap list fin_maps.

Local Open Scope Z_scope.

(** ** JavaScript values used by the two classes *)

Module JS.

(** A JavaScript string is a sequence of UTF-16 code units: [length],
    [substring], the default sort order and a regular expression without the
    [u] flag all work on code units. *)
Definition jsstring : Type := list N.

(** The code units of an ASCII literal. *)
Fixpoint js (s : string) : jsstring :=
  match s with
  | EmptyString => []
  | String c s' => N_of_ascii c :: js s'
  end.

(** [x < y] on strings: lexicographic on code units, a proper prefix first. *)
Fixpoint string_lt (x y : jsstring) : bool :=
  match x, y with
  | _, [] => false
  | [], _ :: _ => true
  | c :: x', d :: y' =>
      if (c <? d)%N then true
      else if (d <? c)%N then false
      else string_lt x' y'
  end.

(** The comparator [Array.prototype.sort] uses when none is given. *)
Definition SortCompare (x y : jsstring) : Z :=
  if string_lt x y then -1 else if string_lt y x then 1 else 0.

Section Sort.
Context {A : Type} (comparefn : A -> A -> Z).

(** [x] comes before the first element that does not sort strictly
    before it. *)
Fixpoint sort_insert (x : A) (l : list A) : list A :=
  match l with
  | [] => [x]
  | y :: l' => if comparefn y x <? 0 then y :: sort_insert x l' else x :: y :: l'
  end.

(** [Array.prototype.sort(comparefn)]: a stable sort; equal elements keep
    their order. *)
Definition Array_sort (l : list A) : list A := foldr sort_insert [] l.
End Sort.

(** [Array.prototype.slice(start)] with an integer [start]: a negative
    [start] counts from the end. *)
Definition Array_slice {A : Type} (start : Z) (l : list A) : list A :=
  let len := Z.of_nat (length l) in
  let k := if start <? 0 then Z.max (len + start) 0 else Z.min start len in
  drop (Z.to_nat k) l.

(** [Number.isSafeInteger(n)]: the integers that a number holds exactly. *)
Definition safe_integer (n : Z) : Prop := - (2 ^ 53 - 1) <= n <= 2 ^ 53 - 1.

(** [String(n)] for a safe integer [n]: its decimal digits after its sign.
    Past the safe integers a number prints rounded digits, and from 1e21 on
    an exponent. *)
Definition Number_toString (n : Z) : jsstring :=
  js (NilZero.string_of_int (Z.to_int n)).

(** [s.endsWith(suffix)] *)
Definition endsWith (s suffix : jsstring) : bool :=
  bool_decide (drop (length s - length suffix) s = suffix)
  && bool_decide (length suffix <= length s)%nat.

End JS.
Import JS.

(** ** messageStorage.js *)

Module MessageStorage.

Definition underscore : N := 95.

(** The character class [[a-zA-Z0-9_]]. *)
Definition word_char (c : N) : bool :=
  ((97 <=? c) && (c <=? 122) || (65 <=? c) && (c <=? 90)
   || (48 <=? c) && (c <=? 57) || (c =? underscore))%N.

(** [s.replace(/[^a-zA-Z0-9_]/g, '_')] *)
Definition sanitize (s : jsstring) : jsstring :=
  map (fun c => if word_char c then c else underscore) s.

(** The body of [getDialogPath] after the sort: the template string, the
    replacement and the truncation to 200 code units; then the file name
    with its extension.  [path.join(this.dialogsPath, ...)] prefixes the same
    directory to every name, which holds no separator: a path is modelled by
    its file name inside [dialogsPath]. *)
Definition dialogFile (a0 a1 : jsstring) : jsstring :=
  let dialogId := sanitize (a0 ++ underscore :: a1) in
  let dialogId := if (200 <? length dialogId)%nat then take 200 dialogId else dialogId in
  dialogId ++ js ".json".

Definition sorted_pair (address1 address2 : jsstring) : jsstring * jsstring :=
  match Array_sort SortCompare [address1; address2] with
  | a0 :: a1 :: _ => (a0, a1)
  | _ => (address1, address2)
  end.

Definition getDialogPath (address1 address2 : jsstring) : jsstring :=
  let addresses := sorted_pair address1 address2 in
  dialogFile (fst addresses) (snd addresses).

(** *** Persisted records *)

Record Message := {
  id : jsstring;
  from : jsstring;
  to : jsstring;
  text : jsstring;
  timestamp : Z;
  read : bool;
}.

Record Dialog := {
  participants : list jsstring;
  messages : list Message;
  createdAt : Z;
  updatedAt : Z;
}.

Record Contact := {
  address : jsstring;
  addedAt : Z;
  lastMessageAt : Z;
}.

(** What a file holds, as [JSON.parse] sees it: a document that
    [JSON.stringify] wrote for a dialog or for the contact list, or bytes on
    which [JSON.parse] throws. *)
Inductive file :=
| DialogJson (d : Dialog)
| ContactsJson (c : list Contact)
| Corrupt.

(** *** The world the class runs in

    The storage directory with its [dialogs] sub-directory and its
    [contacts.json], and the two ambient sources [Date.now()] and
    [Math.random()], each an oracle with the number of readings taken. *)
Record World := {
  storageDir : bool;
  dialogsDir : option (gmap jsstring file);
  contactsFile : option file;
  clock : nat -> Z;
  clockReads : nat;
  random : nat -> jsstring;
  randomReads : nat;
}.

Inductive error := SyntaxError | TypeError | ENOENT.

Inductive result (A : Type) :=
| Ok (a : A)
| Throw (e : error).
Arguments Ok {A} a.
Arguments Throw {A} e.

(** An [async] method: it changes the world and returns or throws. *)
Definition M (A : Type) : Type := World -> result A * World.

#[global] Instance M_ret : MRet M := fun A a w => (Ok a, w).
#[global] Instance M_bind : MBind M := fun A B f m w =>
  match m w with
  | (Ok a, w') => f a w'
  | (Throw e, w') => (Throw e, w')
  end.

Definition throw {A} (e : error) : M A := fun w => (Throw e, w).

Definition Date_now : M Z := fun w =>
  (Ok (clock w (clockReads w)),
   {| storageDir := storageDir w; dialogsDir := dialogsDir w;
      contactsFile := contactsFile w; clock := clock w;
      clockReads := S (clockReads w); random := random w;
      randomReads := randomReads w |}).

(** [Math.random().toString(36).substr(2, 9)] *)
Definition Math_random_suffix : M jsstring := fun w =>
  (Ok (random w (randomReads w)),
   {| storageDir := storageDir w; dialogsDir := dialogsDir w;
      contactsFile := contactsFile w; clock := clock w;
      clockReads := clockReads w; random := random w;
      randomReads := S (randomReads w) |}).

Definition set_dialogsDir (d : option (gmap jsstring file)) (w : World) : World :=
  {| storageDir := storageDir w; dialogsDir := d;
     contactsFile := contactsFile w; clock := clock w;
     clockReads := clockReads w; random := random w;
     randomReads := randomReads w |}.

Definition set_contactsFile (c : option file) (w : World) : World :=
  {| storageDir := storageDir w; dialogsDir := dialogsDir w;
     contactsFile := c; clock := clock w;
     clockReads := clockReads w; random := random w;
     randomReads := randomReads w |}.

(** [existsSync], [readFile] and [writeFile] on a file of [dialogsPath]. *)
Definition dialog_lookup (name : jsstring) (w : World) : option file :=
  match dialogsDir w with
  | Some dir => dir !! name
  | None => None
  end.

Definition existsSync_dialog (name : jsstring) : M bool := fun w =>
  (Ok (bool_decide (is_Some (dialog_lookup name w))), w).

Definition readFile_dialog (name : jsstring) : M file := fun w =>
  match dialog_lookup name w with
  | Some f => (Ok f, w)
  | None => (Throw ENOENT, w)
  end.

Definition writeFile_dialog (name : jsstring) (f : file) : M unit := fun w =>
  match dialogsDir w with
  | Some dir => (Ok tt, set_dialogsDir (Some (<[name := f]> dir)) w)
  | None => (Throw ENOENT, w)
  end.

Definition writeFile_contacts (f : file) : M unit := fun w =>
  if storageDir w then (Ok tt, set_contactsFile (Some f) w)
  else (Throw ENOENT, w).

(** [init]: creates what is missing.  The disk of [World] holds the
    storage path as a directory or not at all, so that [mkdir] with
    [recursive] and [writeFile] go through; the error that [init] wraps and
    throws again comes from disks that this type does not hold. *)
Definition init : M unit := fun w =>
  (Ok tt,
   {| storageDir := true;
      dialogsDir := Some (default ∅ (dialogsDir w));
      contactsFile := Some (default (ContactsJson []) (contactsFile w));
      clock := clock w; clockReads := clockReads w;
      random := random w; randomReads := randomReads w |}).

(** [JSON.parse(data)] where a dialog is expected.  A document of another
    shape parses, and the callers of [getDialog] throw the [TypeError] when
    they read its [messages]; here it is thrown at the parse. *)
Definition parse_dialog (f : file) : M Dialog :=
  match f with
  | DialogJson d => mret d
  | ContactsJson _ => throw TypeError
  | Corrupt => throw SyntaxError
  end.

(** [getDialogPath] on [dialog.participants[0]] and [[1]]: an index past the
    end reads [undefined], which sorts last and prints as [undefined]. *)
Definition getDialogPath_of (p : list jsstring) : jsstring :=
  match p with
  | a :: b :: _ => getDialogPath a b
  | [a] => dialogFile a (js "undefined")
  | [] => dialogFile (js "undefined") (js "undefined")
  end.

(** [saveDialog]: stamps [updatedAt] on the dialog object and writes it;
    the stamped object is returned, as callers keep using it. *)
Definition saveDialog (dialog : Dialog) : M Dialog :=
  let dialogPath := getDialogPath_of (participants dialog) in
  now ← Date_now;
  let dialog := {| participants := participants dialog;
                   messages := messages dialog;
                   createdAt := createdAt dialog;
                   updatedAt := now |} in
  _ ← writeFile_dialog dialogPath (DialogJson dialog);
  mret dialog.

(** The [participants] of a dialog that [getDialog] creates: both
    addresses are kept for a dialog with oneself. *)
Definition new_participants (address1 address2 : jsstring) : list jsstring :=
  if bool_decide (address1 = address2)
  then [address1; address2]
  else Array_sort SortCompare [address1; address2].

Definition getDialog (address1 address2 : jsstring) : M Dialog :=
  let dialogPath := getDialogPath address1 address2 in
  present ← existsSync_dialog dialogPath;
  if (present : bool) then
    data ← readFile_dialog dialogPath;
    parse_dialog data
  else
    let participants := new_participants address1 address2 in
    created ← Date_now;
    updated ← Date_now;
    saveDialog {| participants := participants; messages := [];
                  createdAt := created; updatedAt := updated |}.

(** [updateContacts] *)
Definition read_contacts : M (list Contact) := fun w =>
  match contactsFile w with
  | Some (ContactsJson c) => (Ok c, w)
  | Some Corrupt => (Ok [], w)
  | Some (DialogJson _) => (Throw TypeError, w)
  | None => (Ok [], w)
  end.

Definition has_address (addr : jsstring) (c : Contact) : bool :=
  bool_decide (address c = addr).

Fixpoint touch (addr : jsstring) (now : Z) (contacts : list Contact) : list Contact :=
  match contacts with
  | [] => []
  | c :: rest =>
      if has_address addr c
      then {| address := address c; addedAt := addedAt c; lastMessageAt := now |} :: rest
      else c :: touch addr now rest
  end.

Definition update_contact (addr : jsstring) (contacts : list Contact) : M (list Contact) :=
  match find (has_address addr) contacts with
  | None =>
      added ← Date_now;
      last ← Date_now;
      mret (contacts ++ [{| address := addr; addedAt := added; lastMessageAt := last |}])
  | Some _ =>
      now ← Date_now;
      mret (touch addr now contacts)
  end.

Definition updateContacts (address1 address2 : jsstring) : M unit :=
  contacts ← read_contacts;
  contacts ← update_contact address1 contacts;
  contacts ← update_contact address2 contacts;
  writeFile_contacts (ContactsJson contacts).

(** [addMessage]; [timestamp] is [None] when the argument is omitted. *)
Definition addMessage (from to text : jsstring) (timestamp : option Z) : M Message :=
  timestamp ← match timestamp with Some t => mret t | None => Date_now end;
  dialog ← getDialog from to;
  suffix ← Math_random_suffix;
  let message := {| id := Number_toString timestamp ++ underscore :: suffix;
                    from := from; to := to; text := text;
                    timestamp := timestamp; read := false |} in
  dialog ← saveDialog {| participants := participants dialog;
                         messages := messages dialog ++ [message];
                         createdAt := createdAt dialog;
                         updatedAt := updatedAt dialog |};
  _ ← updateContacts from to;
  mret message.

(** [getMessages]; [limit] is [None] when the argument is omitted. *)
Definition by_timestamp (a b : Message) : Z := timestamp a - timestamp b.

Definition getMessages (address1 address2 : jsstring) (limit : option Z) : M (list Message) :=
  let limit := default 50 limit in
  dialog ← getDialog address1 address2;
  let sortedMessages := Array_sort by_timestamp (messages dialog) in
  mret (Array_slice (- limit) sortedMessages).

(** [markAsRead] *)
Definition unread_for (currentAddress : jsstring) (message : Message) : bool :=
  bool_decide (to message = currentAddress) && negb (read message).

Definition mark (currentAddress : jsstring) (message : Message) : Message :=
  if unread_for currentAddress message
  then {| id := id message; from := from message; to := to message;
          text := text message; timestamp := timestamp message; read := true |}
  else message.

Definition markAsRead (address1 address2 currentAddress : jsstring) : M unit :=
  dialog ← getDialog address1 address2;
  let updated := existsb (unread_for currentAddress) (messages dialog) in
  if updated then
    _ ← saveDialog {| participants := participants dialog;
                      messages := map (mark currentAddress) (messages dialog);
                      createdAt := createdAt dialog;
                      updatedAt := updatedAt dialog |};
    mret tt
  else mret tt.

(** [getDialogs] *)
Record DialogView := {
  dialog : Dialog;
  otherParticipant : jsstring;
  lastMessage : option Message;
  unreadCount : nat;
}.

(** A string is truthy when it is not empty; [undefined] is falsy. *)
Definition truthy (v : option jsstring) : bool :=
  match v with
  | Some (_ :: _) => true
  | _ => false
  end.

(** [[...new Set(l)]]: the distinct values, in order of first occurrence. *)
Fixpoint Set_values (seen l : list jsstring) : list jsstring :=
  match l with
  | [] => []
  | x :: l' =>
      if bool_decide (x ∈ seen) then Set_values seen l'
      else x :: Set_values (x :: seen) l'
  end.

Definition view (address : jsstring) (dialog : Dialog) : option DialogView :=
  if bool_decide (address ∈ participants dialog) then
    let otherParticipant :=
      find (fun p => truthy (Some p) && negb (bool_decide (p = address)))
           (participants dialog) in
    let otherParticipant :=
      if truthy otherParticipant then otherParticipant
      else
        match Set_values [] (participants dialog) with
        | [u] => if bool_decide (u = address) then Some address else otherParticipant
        | _ => otherParticipant
        end in
    let lastMessage := last (messages dialog) in
    if truthy otherParticipant
       || match participants dialog with
          | p0 :: _ => bool_decide (p0 = address)
          | [] => false
          end
    then Some {| dialog := dialog;
                 otherParticipant :=
                   if truthy otherParticipant then default address otherParticipant
                   else address;
                 lastMessage := lastMessage;
                 unreadCount :=
                   length (filter (fun m => to m = address ∧ read m = false)
                                  (messages dialog)) |}
    else None
  else None.

(** The body of the loop over [readdir]: other extensions are passed over,
    and so is a file that does not parse or holds no participants. *)
Definition scan_file (address : jsstring) (entry : jsstring * file) : option DialogView :=
  if endsWith (fst entry) (js ".json") then
    match snd entry with
    | DialogJson d => view address d
    | ContactsJson _ => None
    | Corrupt => None
    end
  else None.

Definition activity (v : DialogView) : Z :=
  match lastMessage v with
  | Some m => timestamp m
  | None => updatedAt (dialog v)
  end.

Definition most_recent_first (a b : DialogView) : Z := activity b - activity a.

(** [readdir]: the entries of the directory, in the order the map lists
    them. *)
Definition readdir (dir : gmap jsstring file) : list (jsstring * file) :=
  map_to_list dir.

Definition getDialogs (address : jsstring) : M (list DialogView) := fun w =>
  match dialogsDir w with
  | None => (Ok [], w)
  | Some dir =>
      (Ok (Array_sort most_recent_first (omap (scan_file address) (readdir dir))), w)
  end.

Definition getContacts : M (list Contact) := fun w =>
  match contactsFile w with
  | Some (ContactsJson c) => (Ok c, w)
  | _ => (Ok [], w)
  end.

Definition getUnreadCount (address : jsstring) : M nat :=
  dialogs ← getDialogs address;
  mret (foldl (fun total d => (total + unreadCount d)%nat) 0%nat dialogs).

(** An empty disk, a clock that advances one millisecond per reading, and
    one-character random suffixes. *)
Definition blank : World :=
  {| storageDir := false; dialogsDir := None; contactsFile := None;
     clock := fun n => 1700000000000 + Z.of_nat n; clockReads := 0;
     random := fun n => [(48 + N.of_nat n)%N]; randomReads := 0 |}.

(** The world an [M] computation leaves. *)
Definition exec {A} (m : M A) (w : World) : World := snd (m w).

End MessageStorage.
Import MessageStorage.


(** ** serverClient.js: the listener registry and the awaitable sends *)

Module ServerClient.

(** The fields of an inbound object that the listeners read. *)
Record Payload := {
  data_address : option jsstring;
  data_from : option jsstring;
  data_to : option jsstring;
  data_text : option jsstring;
  data_error : option jsstring;
  data_timestamp : option Z;
}.

(** The object literal [{}]. *)
Definition empty_object : Payload :=
  {| data_address := None; data_from := None; data_to := None;
     data_text := None; data_error := None; data_timestamp := None |}.

(** A decoded frame: [message.type], [message.data] ([None] when missing or
    falsy) and the other fields of the message object itself. *)
Record Frame := {
  type : option jsstring;
  data : option Payload;
  top : Payload;
}.

(** What a listener is called with: [message.data], or the message itself
    where [message.data || message] falls through. *)
Inductive Arg :=
| ArgData (d : Payload)
| ArgMessage (message : Frame).

Definition fields (x : Arg) : Payload :=
  match x with
  | ArgData d => d
  | ArgMessage message => top message
  end.

(** The function objects that get subscribed.  [External h] is a listener
    of the application, such as the one [index.js] subscribes to [message]:
    it does not touch the client.  The three others are the closures that
    [registerAddress] and [sendMessage] create for their request [req]. *)
Inductive Handler :=
| External (h : nat)
| RegisteredHandler (req : nat) (address : jsstring)
| SuccessHandler (req : nat) (to : jsstring)
| ErrorHandler (req : nat) (to : jsstring).

#[global] Instance Handler_eq_dec : EqDecision Handler.
Proof. solve_decision. Defined.

(** The deadline timer of a request and what its callback closes over. *)
Inductive Pending :=
| PendingRegister (address : jsstring)
| PendingSend (to : jsstring).

Inductive Rejection :=
| RegistrationTimeout       (* 'Address registration timeout' *)
| SendTimeout               (* 'Message send timeout' *)
| SendFailed (error : jsstring)
| TransportError.           (* [ensureConnected] or [send] threw *)

(** How the promise of a request settled. *)
Inductive Outcome :=
| Resolved (value : option Arg)
| Rejected (reason : Rejection).

(** The listener registry with the requests in flight.  [wsListeners] maps
    an event type to an array object; the arrays live in [arrays], so that a
    [forEach] in progress and an [off] see the same array. *)
Record Client := {
  wsListeners : gmap jsstring nat;
  arrays : gmap nat (list Handler);
  nextArray : nat;
  timers : gmap nat Pending;
  promises : gmap nat Outcome;
  nextRequest : nat;
  calls : list (Handler * Arg);
  sent : list Frame;
}.

Definition initial : Client :=
  {| wsListeners := ∅; arrays := ∅; nextArray := 0; timers := ∅;
     promises := ∅; nextRequest := 0; calls := []; sent := [] |}.

Definition set_registry (m : gmap jsstring nat) (h : gmap nat (list Handler))
    (n : nat) (s : Client) : Client :=
  {| wsListeners := m; arrays := h; nextArray := n; timers := timers s;
     promises := promises s; nextRequest := nextRequest s;
     calls := calls s; sent := sent s |}.

Definition set_timers (t : gmap nat Pending) (s : Client) : Client :=
  {| wsListeners := wsListeners s; arrays := arrays s;
     nextArray := nextArray s; timers := t; promises := promises s;
     nextRequest := nextRequest s; calls := calls s; sent := sent s |}.

Definition set_promises (p : gmap nat Outcome) (s : Client) : Client :=
  {| wsListeners := wsListeners s; arrays := arrays s;
     nextArray := nextArray s; timers := timers s; promises := p;
     nextRequest := nextRequest s; calls := calls s; sent := sent s |}.

Definition log_call (h : Handler) (x : Arg) (s : Client) : Client :=
  {| wsListeners := wsListeners s; arrays := arrays s;
     nextArray := nextArray s; timers := timers s; promises := promises s;
     nextRequest := nextRequest s; calls := calls s ++ [(h, x)];
     sent := sent s |}.

Definition log_sent (f : Frame) (s : Client) : Client :=
  {| wsListeners := wsListeners s; arrays := arrays s;
     nextArray := nextArray s; timers := timers s; promises := promises s;
     nextRequest := nextRequest s; calls := calls s; sent := sent s ++ [f] |}.

(** The elements of an array object. *)
Definition array (a : nat) (s : Client) : list Handler :=
  default [] (arrays s !! a).

(** [on(eventType, callback)] *)
Definition on (eventType : jsstring) (callback : Handler) (s : Client) : Client :=
  match wsListeners s !! eventType with
  | Some a =>
      set_registry (wsListeners s) (<[a := array a s ++ [callback]]> (arrays s))
        (nextArray s) s
  | None =>
      let a := nextArray s in
      set_registry (<[eventType := a]> (wsListeners s))
        (<[a := [callback]]> (arrays s)) (S a) s
  end.

(** [listeners.indexOf(callback)] *)
Definition indexOf (callback : Handler) (listeners : list Handler) : option nat :=
  fst <$> list_find (fun h => h = callback) listeners.

(** [off(eventType, callback)]: [splice] changes the array in place; the
    bucket is deleted when the array is left empty. *)
Definition off (eventType : jsstring) (callback : Handler) (s : Client) : Client :=
  match wsListeners s !! eventType with
  | Some a =>
      let listeners :=
        match indexOf callback (array a s) with
        | Some index => delete index (array a s)
        | None => array a s
        end in
      set_registry
        (if bool_decide (length listeners = 0%nat)
         then delete eventType (wsListeners s) else wsListeners s)
        (<[a := listeners]> (arrays s)) (nextArray s) s
  | None => s
  end.

Definition clearTimeout (req : nat) (s : Client) : Client :=
  set_timers (delete req (timers s)) s.

(** [resolve] and [reject]: a promise settles once; later calls do
    nothing. *)
Definition settle (req : nat) (o : Outcome) (s : Client) : Client :=
  match promises s !! req with
  | Some _ => s
  | None => set_promises (<[req := o]> (promises s)) s
  end.

(** A string that is present and not empty. *)
Definition truthy (v : option jsstring) : bool :=
  match v with
  | Some (_ :: _) => true
  | _ => false
  end.

(** Calling a listener.  The argument is always an object here, so the
    [data &&] guards of the closures pass. *)
Definition call (h : Handler) (x : Arg) (s : Client) : Client :=
  let s := log_call h x s in
  match h with
  | External _ => s
  | RegisteredHandler req address =>
      if bool_decide (data_address (fields x) = Some address) then
        let s := clearTimeout req s in
        let s := off (js "registered") h s in
        settle req (Resolved None) s
      else s
  | SuccessHandler req to =>
      if bool_decide (data_to (fields x) = Some to) then
        let s := clearTimeout req s in
        let s := off (js "messageSent") h s in
        let s := off (js "messageError") (ErrorHandler req to) s in
        settle req (Resolved (Some x)) s
      else s
  | ErrorHandler req to =>
      let s := clearTimeout req s in
      let s := off (js "messageSent") (SuccessHandler req to) s in
      let s := off (js "messageError") h s in
      settle req
        (Rejected (SendFailed
           (if truthy (data_error (fields x))
            then default [] (data_error (fields x))
            else js "Failed to send message"))) s
  end.

(** [listeners.forEach(listener => listener(x))] on the array object [a]:
    the length is read once; index [k] is visited when the array still has
    an element there, so elements that shift down after a [splice] are
    passed over. *)
Fixpoint forEach_from (a : nat) (x : Arg) (k n : nat) (s : Client) : Client :=
  match n with
  | O => s
  | S n' =>
      let s := match array a s !! k with
               | Some h => call h x s
               | None => s
               end in
      forEach_from a x (S k) n' s
  end.

Definition forEach (a : nat) (x : Arg) (s : Client) : Client :=
  forEach_from a x 0 (length (array a s)) s.

(** [(this.wsListeners.get(eventType) || []).forEach(...)] *)
Definition notify (eventType : jsstring) (x : Arg) (s : Client) : Client :=
  match wsListeners s !! eventType with
  | Some a => forEach a x s
  | None => s
  end.

Definition is_type (message : Frame) (name : string) : bool :=
  bool_decide (type message = Some (js name)).

(** [handleWebSocketMessage(message)], as the socket's [message] listener
    calls it: without [onMessageReceived]. *)
Definition handleWebSocketMessage (message : Frame) (s : Client) : Client :=
  let s :=
    if is_type message "message"
    then notify (js "message") (ArgData (default empty_object (data message))) s
    else s in
  let s :=
    match data message with
    | Some d => if is_type message "registered"
                then notify (js "registered") (ArgData d) s else s
    | None => s
    end in
  let s :=
    match data message with
    | Some d => if is_type message "messageSent"
                then notify (js "messageSent") (ArgData d) s else s
    | None => s
    end in
  let s :=
    match data message with
    | Some d => if is_type message "messageError"
                then notify (js "messageError") (ArgData d) s else s
    | None => s
    end in
  match type message with
  | Some t =>
      if truthy (Some t) then
        notify t (match data message with
                  | Some d => ArgData d
                  | None => ArgMessage message
                  end) s
      else s
  | None => s
  end.

(** The socket's [message] listener: a frame that does not parse is logged
    and dropped. *)
Definition on_message (raw : option Frame) (s : Client) : Client :=
  match raw with
  | Some message => handleWebSocketMessage message s
  | None => s
  end.

(** How the transport serves a request: [ensureConnected] throws, or
    [this.wsConnection.send] throws, or the frame goes out; or the promise
    of [ensureConnected] never settles, and the request stays at its
    [await]. *)
Inductive Transport := Unreachable | SendThrows | Sent | Stalled.

Definition register_frame (address : jsstring) : Frame :=
  {| type := Some (js "register");
     data := Some {| data_address := Some address; data_from := None;
                     data_to := None; data_text := None; data_error := None;
                     data_timestamp := None |};
     top := empty_object |}.

Definition message_frame (from to text : jsstring) : Frame :=
  {| type := Some (js "message");
     data := Some {| data_address := None; data_from := Some from;
                     data_to := Some to; data_text := Some text;
                     data_error := None; data_timestamp := None |};
     top := empty_object |}.

Definition new_request (s : Client) : Client :=
  {| wsListeners := wsListeners s; arrays := arrays s;
     nextArray := nextArray s; timers := timers s; promises := promises s;
     nextRequest := S (nextRequest s); calls := calls s; sent := sent s |}.

(** [this.wsConnection.send(...)] inside a promise executor: an exception
    rejects the promise. *)
Definition send (req : nat) (f : Frame) (t : Transport) (s : Client) : Client :=
  match t with
  | Sent => log_sent f s
  | _ => settle req (Rejected TransportError) s
  end.

(** [registerAddress(address)]: the request is [nextRequest].  Nothing is
    done before [await this.ensureConnected()] settles: the executor, with
    its timer and its listener, runs after it. *)
Definition registerAddress (address : jsstring) (t : Transport) (s : Client) : Client :=
  let req := nextRequest s in
  let s := new_request s in
  match t with
  | Stalled => s
  | Unreachable => settle req (Rejected TransportError) s
  | SendThrows | Sent =>
      let s := set_timers (<[req := PendingRegister address]> (timers s)) s in
      let s := on (js "registered") (RegisteredHandler req address) s in
      send req (register_frame address) t s
  end.

(** [sendMessage(from, to, text)]; [ensureConnected] is awaited when no
    connection is open. *)
Definition sendMessage (from to text : jsstring) (t : Transport) (s : Client) : Client :=
  let req := nextRequest s in
  let s := new_request s in
  match t with
  | Stalled => s
  | Unreachable => settle req (Rejected TransportError) s
  | SendThrows | Sent =>
      let s := set_timers (<[req := PendingSend to]> (timers s)) s in
      let s := on (js "messageSent") (SuccessHandler req to) s in
      let s := on (js "messageError") (ErrorHandler req to) s in
      send req (message_frame from to text) t s
  end.

(** The callback of the deadline timer of [req]; a cleared timer does not
    fire. *)
Definition deadline (req : nat) (s : Client) : Client :=
  match timers s !! req with
  | Some (PendingRegister address) =>
      let s := clearTimeout req s in
      let s := off (js "registered") (RegisteredHandler req address) s in
      settle req (Rejected RegistrationTimeout) s
  | Some (PendingSend to) =>
      let s := clearTimeout req s in
      let s := off (js "messageSent") (SuccessHandler req to) s in
      let s := off (js "messageError") (ErrorHandler req to) s in
      settle req (Rejected SendTimeout) s
  | None => s
  end.

(** What happens to a client, one turn of the event loop at a time.  A
    call of [registerAddress] or [sendMessage] is taken at the turn in which
    it goes on after [ensureConnected]; a call that [ensureConnected] leaves
    waiting for ever only takes its number. *)
Inductive Event :=
| RegisterAddress (address : jsstring) (t : Transport)
| SendMessage (from to text : jsstring) (t : Transport)
| Inbound (raw : option Frame)
| Deadline (req : nat)
| On (eventType : jsstring) (h : nat)
| Off (eventType : jsstring) (h : nat).

Definition step (s : Client) (e : Event) : Client :=
  match e with
  | RegisterAddress address t => registerAddress address t s
  | SendMessage from to text t => sendMessage from to text t s
  | Inbound raw => on_message raw s
  | Deadline req => deadline req s
  | On eventType h => on eventType (External h) s
  | Off eventType h => off eventType (External h) s
  end.

Definition run (evs : list Event) (s : Client) : Client := foldl step s evs.

(** A run of listener calls added to the log. *)
Definition log_calls (cs : list (Handler * Arg)) (s : Client) : Client :=
  {| wsListeners := wsListeners s; arrays := arrays s;
     nextArray := nextArray s; timers := timers s; promises := promises s;
     nextRequest := nextRequest s; calls := calls s ++ cs; sent := sent s |}.

(** The request a closure belongs to. *)
Definition owner (h : Handler) : option nat :=
  match h with
  | External _ => None
  | RegisteredHandler req _ | SuccessHandler req _ | ErrorHandler req _ => Some req
  end.

End ServerClient.

(** ** serverClient.js: the connection *)

Module Connection.

Inductive ReadyState := CONNECTING | OPEN | CLOSING | CLOSED.

#[global] Instance ReadyState_eq_dec : EqDecision ReadyState.
Proof. solve_decision. Defined.

(** An activation of [ensureConnected], at one of its [await]s or done. *)
Inductive Caller :=
| Polling (i : nat)        (* in the wait loop at turn [i], on the 500 ms timer *)
| Awaiting (socket : nat)  (* on the promise of [connectWebSocket] *)
| Returned
| Threw.

#[global] Instance Caller_eq_dec : EqDecision Caller.
Proof. solve_decision. Defined.

(** The client as the connection code sees it.  Every [new WebSocket] adds
    a socket to [sockets]: the length of [sockets] counts the physical
    connection attempts.  [connectPromises] holds the promises of
    [connectWebSocket] that have settled ([true]: resolved), by socket. *)
Record Session := {
  sockets : list ReadyState;
  wsConnection : option nat;
  connecting : bool;
  pingInterval : bool;
  setupTimers : gset nat;
  connectPromises : gmap nat bool;
  reconnectTimers : nat;
  callers : list Caller;
  isTTY : bool;
}.

Definition initial (tty : bool) : Session :=
  {| sockets := []; wsConnection := None; connecting := false;
     pingInterval := false; setupTimers := ∅; connectPromises := ∅;
     reconnectTimers := 0; callers := []; isTTY := tty |}.

Definition set_sockets (l : list ReadyState) (s : Session) : Session :=
  {| sockets := l; wsConnection := wsConnection s; connecting := connecting s;
     pingInterval := pingInterval s; setupTimers := setupTimers s;
     connectPromises := connectPromises s; reconnectTimers := reconnectTimers s;
     callers := callers s; isTTY := isTTY s |}.

Definition set_wsConnection (c : option nat) (s : Session) : Session :=
  {| sockets := sockets s; wsConnection := c; connecting := connecting s;
     pingInterval := pingInterval s; setupTimers := setupTimers s;
     connectPromises := connectPromises s; reconnectTimers := reconnectTimers s;
     callers := callers s; isTTY := isTTY s |}.

Definition set_connecting (b : bool) (s : Session) : Session :=
  {| sockets := sockets s; wsConnection := wsConnection s; connecting := b;
     pingInterval := pingInterval s; setupTimers := setupTimers s;
     connectPromises := connectPromises s; reconnectTimers := reconnectTimers s;
     callers := callers s; isTTY := isTTY s |}.

Definition set_pingInterval (b : bool) (s : Session) : Session :=
  {| sockets := sockets s; wsConnection := wsConnection s;
     connecting := connecting s; pingInterval := b;
     setupTimers := setupTimers s; connectPromises := connectPromises s;
     reconnectTimers := reconnectTimers s; callers := callers s;
     isTTY := isTTY s |}.

Definition set_setupTimers (t : gset nat) (s : Session) : Session :=
  {| sockets := sockets s; wsConnection := wsConnection s;
     connecting := connecting s; pingInterval := pingInterval s;
     setupTimers := t; connectPromises := connectPromises s;
     reconnectTimers := reconnectTimers s; callers := callers s;
     isTTY := isTTY s |}.

Definition set_connectPromises (p : gmap nat bool) (s : Session) : Session :=
  {| sockets := sockets s; wsConnection := wsConnection s;
     connecting := connecting s; pingInterval := pingInterval s;
     setupTimers := setupTimers s; connectPromises := p;
     reconnectTimers := reconnectTimers s; callers := callers s;
     isTTY := isTTY s |}.

Definition set_reconnectTimers (n : nat) (s : Session) : Session :=
  {| sockets := sockets s; wsConnection := wsConnection s;
     connecting := connecting s; pingInterval := pingInterval s;
     setupTimers := setupTimers s; connectPromises := connectPromises s;
     reconnectTimers := n; callers := callers s; isTTY := isTTY s |}.

Definition set_callers (l : list Caller) (s : Session) : Session :=
  {| sockets := sockets s; wsConnection := wsConnection s;
     connecting := connecting s; pingInterval := pingInterval s;
     setupTimers := setupTimers s; connectPromises := connectPromises s;
     reconnectTimers := reconnectTimers s; callers := l; isTTY := isTTY s |}.

(** [socket.readyState] *)
Definition readyState (socket : nat) (s : Session) : option ReadyState :=
  sockets s !! socket.

(** [this.wsConnection && this.wsConnection.readyState === WebSocket.OPEN] *)
Definition is_open (s : Session) : bool :=
  match wsConnection s with
  | Some c => bool_decide (readyState c s = Some OPEN)
  | None => false
  end.

(** [this.wsConnection && this.wsConnection.readyState !== WebSocket.OPEN] *)
Definition is_not_open (s : Session) : bool :=
  match wsConnection s with
  | Some c => negb (bool_decide (readyState c s = Some OPEN))
  | None => false
  end.

(** [socket.close()]: a socket that is connecting or open starts closing;
    its [error] and [close] events follow later. *)
Definition close (socket : nat) (s : Session) : Session :=
  match readyState socket s with
  | Some CONNECTING | Some OPEN => set_sockets (<[socket := CLOSING]> (sockets s)) s
  | _ => s
  end.

(** Settling the promise of [connectWebSocket] for a socket resumes the
    [ensureConnected] activations that await it: they return, or run their
    [catch] block, which clears [connecting], and throw. *)
Definition resume (socket : nat) (ok : bool) (c : Caller) : Caller :=
  if bool_decide (c = Awaiting socket) then (if ok then Returned else Threw) else c.

Definition resolve (socket : nat) (s : Session) : Session :=
  match connectPromises s !! socket with
  | Some _ => s
  | None =>
      set_callers (map (resume socket true) (callers s))
        (set_connectPromises (<[socket := true]> (connectPromises s)) s)
  end.

Definition reject (socket : nat) (s : Session) : Session :=
  match connectPromises s !! socket with
  | Some _ => s
  | None =>
      let s := set_connectPromises (<[socket := false]> (connectPromises s)) s in
      if bool_decide (Awaiting socket ∈ callers s)
      then set_connecting false (set_callers (map (resume socket false) (callers s)) s)
      else s
  end.

Definition clearTimeout (socket : nat) (s : Session) : Session :=
  set_setupTimers (setupTimers s ∖ {[socket]}) s.

(** [connectWebSocket()] up to the return of its promise: the current
    connection is closed and dropped, a new socket is constructed, its 10 s
    timer is started and its listeners are attached.  The result names the
    new socket. *)
Definition connectWebSocket (s : Session) : nat * Session :=
  let s :=
    match wsConnection s with
    | Some c => set_wsConnection None (close c s)
    | None => s
    end in
  let socket := length (sockets s) in
  let s := set_sockets (sockets s ++ [CONNECTING]) s in
  let s := set_wsConnection (Some socket) s in
  let s := set_setupTimers ({[socket]} ∪ setupTimers s) s in
  (socket, s).

(** The callback of the 10 s timer of a socket. *)
Definition on_timeout (socket : nat) (s : Session) : Session :=
  if is_not_open s then
    let s := set_connecting false s in
    let s := match wsConnection s with Some c => close c s | None => s end in
    let s := set_wsConnection None s in
    reject socket s
  else s.

(** The listener of [open]; the keepalive only sends. *)
Definition on_open (socket : nat) (s : Session) : Session :=
  let s := clearTimeout socket s in
  let s := set_connecting false s in
  let s := if is_open s then set_pingInterval true s else s in
  resolve socket s.

(** The listener of [error]. *)
Definition on_error (socket : nat) (s : Session) : Session :=
  let s := clearTimeout socket s in
  let s := set_connecting false s in
  if is_not_open s then reject socket s else s.

(** The listener of [close]. *)
Definition on_close (socket : nat) (s : Session) : Session :=
  let s := clearTimeout socket s in
  let s := set_connecting false s in
  let s := set_pingInterval false s in
  let s := set_wsConnection None s in
  if isTTY s && negb (connecting s)
  then set_reconnectTimers (S (reconnectTimers s)) s
  else s.

(** The callback of the 5 s reconnection timer. *)
Definition on_reconnect (s : Session) : Session :=
  let closed :=
    match wsConnection s with
    | Some c => bool_decide (readyState c s = Some CLOSED)
    | None => true
    end in
  if closed then snd (connectWebSocket s) else s.

(** The end of [ensureConnected]: ''Try to connect''. *)
Definition try_connect (s : Session) : Caller * Session :=
  if negb (connecting s) then
    let s := set_connecting true s in
    let (socket, s) := connectWebSocket s in
    (Awaiting socket, s)
  else (Returned, s).

(** After the wait loop: ''If still not connected after waiting, try to
    connect again''. *)
Definition after_loop (s : Session) : Caller * Session :=
  let s := if is_open s then s else set_connecting false s in
  try_connect s.

(** [ensureConnected()] up to its first [await]. *)
Definition ensureConnected_start (s : Session) : Caller * Session :=
  if is_open s then (Returned, s)
  else if connecting s then (Polling 0, s)
  else try_connect s.

(** A turn of the wait loop, when the 500 ms timer of turn [i] fires. *)
Definition ensureConnected_poll (i : nat) (s : Session) : Caller * Session :=
  if is_open s then (Returned, s)
  else if negb (connecting s) then after_loop s
  else if (S i <? 20)%nat then (Polling (S i), s)
  else after_loop s.

(** [closeWebSocket()] *)
Definition closeWebSocket (s : Session) : Session :=
  let s := set_pingInterval false s in
  match wsConnection s with
  | Some c => set_wsConnection None (close c s)
  | None => s
  end.

(** What happens to a session, one turn of the event loop at a time.  An
    event of a socket is taken in the states in which the socket can emit
    it, a timer when it is pending; otherwise nothing happens. *)
Inductive Event :=
| EnsureConnected
| ConnectWebSocket
| Poll (caller : nat)
| Open (socket : nat)
| Error (socket : nat)
| Close (socket : nat)
| SetupTimeout (socket : nat)
| Reconnect
| CloseWebSocket.

#[global] Instance Event_eq_dec : EqDecision Event.
Proof. solve_decision. Defined.

Definition step (s : Session) (e : Event) : Session :=
  match e with
  | EnsureConnected =>
      let (c, s) := ensureConnected_start s in
      set_callers (callers s ++ [c]) s
  | ConnectWebSocket => snd (connectWebSocket s)
  | Poll caller =>
      match callers s !! caller with
      | Some (Polling i) =>
          let (c, s) := ensureConnected_poll i s in
          set_callers (<[caller := c]> (callers s)) s
      | _ => s
      end
  | Open socket =>
      match readyState socket s with
      | Some CONNECTING =>
          on_open socket (set_sockets (<[socket := OPEN]> (sockets s)) s)
      | _ => s
      end
  | Error socket =>
      match readyState socket s with
      | Some CLOSED | None => s
      | Some _ => on_error socket (set_sockets (<[socket := CLOSING]> (sockets s)) s)
      end
  | Close socket =>
      match readyState socket s with
      | Some CLOSED | None => s
      | Some _ => on_close socket (set_sockets (<[socket := CLOSED]> (sockets s)) s)
      end
  | SetupTimeout socket =>
      if bool_decide (socket ∈ setupTimers s)
      then on_timeout socket (clearTimeout socket s)
      else s
  | Reconnect =>
      match reconnectTimers s with
      | S n => on_reconnect (set_reconnectTimers n s)
      | O => s
      end
  | CloseWebSocket => closeWebSocket s
  end.

Definition run (evs : list Event) (s : Session) : Session := foldl step s evs.

(** The physical connections opened so far. *)
Definition attempts (s : Session) : nat := length (sockets s).

End Connection.

(** ** rustCore.js: reading the output of the key tool *)

Module RustCore.

(** The separator of [output.split('\n')]. *)
Definition newline : jsstring := [10%N].

(** A string is truthy when it is not empty. *)
Definition nonempty (s : jsstring) : bool :=
  match s with
  | [] => false
  | _ :: _ => true
  end.

(** [s.startsWith(p)] *)
Fixpoint startsWith (s p : jsstring) {struct p} : bool :=
  match p with
  | [] => true
  | c :: p' =>
      match s with
      | [] => false
      | d :: s' => bool_decide (c = d) && startsWith s' p'
      end
  end.

(** [s.includes(p)]: [p] starts at some position of [s]. *)
Fixpoint includes (s p : jsstring) : bool :=
  match s with
  | [] => startsWith [] p
  | _ :: s' => startsWith s p || includes s' p
  end.

(** [s.split(separator)] for a separator that is not empty, from left to
    right: [piece] holds the code units read since the last separator, last
    one first; [skip] counts the code units of a separator still to pass. *)
Fixpoint split_from (separator : jsstring) (skip : nat) (piece s : jsstring)
    : list jsstring :=
  match s with
  | [] => [reverse piece]
  | c :: s' =>
      match skip with
      | S skip' => split_from separator skip' piece s'
      | O =>
          if startsWith s separator
          then reverse piece :: split_from separator (length separator - 1) [] s'
          else split_from separator 0 (c :: piece) s'
      end
  end.

(** [s.split(separator)]; the empty separator splits between the code
    units. *)
Definition split (s separator : jsstring) : list jsstring :=
  match separator with
  | [] => map (fun c => [c]) s
  | _ :: _ => split_from separator 0 [] s
  end.

(** WhiteSpace and LineTerminator code units, as [trim] strips them. *)
Definition white_space (c : N) : bool :=
  ((9 <=? c) && (c <=? 13) || (c =? 32) || (c =? 160) || (c =? 5760)
   || (8192 <=? c) && (c <=? 8202) || (c =? 8232) || (c =? 8233)
   || (c =? 8239) || (c =? 8287) || (c =? 12288) || (c =? 65279))%N.

Fixpoint trimStart (s : jsstring) : jsstring :=
  match s with
  | [] => []
  | c :: s' => if white_space c then trimStart s' else s
  end.

Definition trimEnd (s : jsstring) : jsstring := reverse (trimStart (reverse s)).

(** [s.trim()] *)
Definition trim (s : jsstring) : jsstring := trimEnd (trimStart s).

(** The loop of [extractValue] over the lines. *)
Fixpoint extractValue_in (lines : list jsstring) (label : jsstring) : jsstring :=
  match lines with
  | [] => []
  | line :: lines' =>
      if includes line label then
        match split line label with
        | _ :: part :: _ => trim part
        | _ => extractValue_in lines' label
        end
      else extractValue_in lines' label
  end.

(** [extractValue(output, label)] *)
Definition extractValue (output label : jsstring) : jsstring :=
  extractValue_in (split output newline) label.

(** How a run of the tool ends: [execFile] resolves with what the tool
    printed, or rejects with an error. *)
Inductive ExecResult :=
| Exited (stdout stderr : jsstring)
| Failed (message : jsstring).

(** The tool, as [execFileAsync(this.binaryPath, args)] on a system that is
    not Windows: from the arguments to the result. *)
Definition Tool : Type := list jsstring -> ExecResult.

(** [verifySignature(message, signature, pubkey)], where [messageStr] is
    [JSON.stringify(message)]. *)
Definition verifySignature (tool : Tool) (messageStr signature pubkey : jsstring) : bool :=
  match tool [js "verify-signature"; js "--message"; messageStr;
              js "--signature"; signature; js "--pubkey"; pubkey] with
  | Exited stdout stderr => negb (nonempty stderr) && includes stdout (js "valid")
  | Failed _ => false
  end.

Record Signed := {
  hash : jsstring;
  signature_compact : jsstring;
  der : jsstring;
}.

(** [signMessage(message, mnemonic, alphanumeric)]: the error message, or
    the result. *)
Definition signMessage (tool : Tool) (messageStr mnemonic alphanumeric : jsstring)
    : jsstring + Signed :=
  let wrap message := js "Failed to sign message with Rust Core: " ++ message in
  match tool [js "sign-message"; js "--message"; messageStr;
              js "--mnemonic"; mnemonic; js "--alphanumeric"; alphanumeric] with
  | Exited stdout stderr =>
      if nonempty stderr && negb (includes stderr (js "Message Hash:"))
      then inl (wrap (js "Rust Core error: " ++ stderr))
      else inr {| hash := extractValue stdout (js "Message Hash:");
                  signature_compact := extractValue stdout (js "Compact:");
                  der := extractValue stdout (js "DER:") |}
  | Failed message => inl (wrap message)
  end.

(** [generateMnemonic()]: the error message, or the mnemonic and the
    alphanumeric part. *)
Definition generateMnemonic (tool : Tool) : jsstring + jsstring * jsstring :=
  let wrap message := js "Failed to generate mnemonic with Rust Core: " ++ message in
  match tool [js "generate-mnemonic"] with
  | Exited stdout stderr =>
      let output := stdout ++ stderr in
      let mnemonic := extractValue output (js "Mnemonic:") in
      let alphanumeric := extractValue output (js "Alphanumeric:") in
      if negb (nonempty mnemonic) then inl (wrap (js "Failed to generate mnemonic"))
      else inr (mnemonic, alphanumeric)
  | Failed message => inl (wrap message)
  end.

Record Keys := {
  publicKey : jsstring;
  privateKey : jsstring;
  signatureKey : jsstring;
  mnemonic : jsstring;
  alphanumericPart : jsstring;
  mainPath : jsstring;
}.

(** [restoreKeys(mnemonic, alphanumeric, seedIndex)] for a [seedIndex]
    that is a safe integer. *)
Definition restoreKeys (tool : Tool) (mnemonic alphanumeric : jsstring) (seedIndex : Z)
    : jsstring + Keys :=
  let wrap message := js "Failed to restore keys with Rust Core: " ++ message in
  match tool [js "generate-keys"; js "--mnemonic"; mnemonic;
              js "--alphanumeric"; alphanumeric;
              js "--seed-index"; Number_toString seedIndex] with
  | Exited stdout stderr =>
      let output := stdout ++ stderr in
      if nonempty stderr && negb (includes output (js "Public Key:"))
      then inl (wrap (js "Rust Core error: " ++ stderr))
      else
        let publicKey := extractValue output (js "Public Key:") in
        if negb (nonempty publicKey)
        then inl (wrap (js "Failed to extract public key from Rust Core output"))
        else
          let path := extractValue output (js "Derivation Path:") in
          inr {| publicKey := publicKey;
                 privateKey := extractValue output (js "Private Key:");
                 signatureKey := extractValue output (js "Signature Key:");
                 mnemonic := mnemonic;
                 alphanumericPart := alphanumeric;
                 mainPath := if nonempty path then path
                             else js "m/44'/60'/0'/" ++ Number_toString seedIndex
                                  ++ js "'" |}
  | Failed message => inl (wrap message)
  end.

(** [generateKeys(seedIndex)] *)
Definition generateKeys (tool : Tool) (seedIndex : Z) : jsstring + Keys :=
  let wrap message := js "Failed to generate keys with Rust Core: " ++ message in
  match generateMnemonic tool with
  | inl message => inl (wrap message)
  | inr (mnemonic, alphanumericPart) =>
      match restoreKeys tool mnemonic alphanumericPart seedIndex with
      | inl message => inl (wrap message)
      | inr keys => inr keys
      end
  end.

End RustCore.

(** ** Predicates of the specification *)

Module Spec.

(** The letters and digits: the safe alphabet without the separator. *)
Definition alnum (c : N) : bool :=
  ((97 <=? c) && (c <=? 122) || (65 <=? c) && (c <=? 90)
   || (48 <=? c) && (c <=? 57))%N.

(** An identity made of letters and digits only. *)
Definition plain (s : jsstring) : bool := forallb alnum s.

(** The contact directory as [getContacts] returns it. *)
Definition contact_list (w : World) : list Contact :=
  match contactsFile w with
  | Some (ContactsJson c) => c
  | _ => []
  end.

(** The addresses of the directory once [addr] has been seen. *)
Definition added (addr : jsstring) (l : list jsstring) : list jsstring :=
  if bool_decide (addr ∈ l) then l else l ++ [addr].

(** The clock of [w'] is that of [w], some readings later. *)
Definition later (w w' : World) : Prop :=
  clock w' = clock w /\ (clockReads w <= clockReads w')%nat.

(** A store with one message sent from A to B. *)
Definition one_message : World :=
  exec (addMessage (js "A") (js "B") (js "hi") (Some 1000)) (exec init blank).

(** A store where B's message, stamped by the relay before A's, is saved
    after it: the append order is not the order of the timestamps. *)
Definition out_of_order : World :=
  exec (addMessage (js "B") (js "A") (js "early") (Some 1000))
    (exec (addMessage (js "A") (js "B") (js "late") (Some 2000))
       (exec init blank)).

(** Every dialog document sits under the key of its own participants:
    [saveDialog] writes it back where [getDialog] read it. *)
Definition well_keyed (w : World) : Prop :=
  forall name d, dialog_lookup name w = Some (DialogJson d) ->
    getDialogPath_of (participants d) = name.

(** The messages stored for a pair, in stored order; none when the pair has
    no document. *)
Definition stored_messages (address1 address2 : jsstring) (w : World) : list Message :=
  match dialog_lookup (getDialogPath address1 address2) w with
  | Some (DialogJson d) => messages d
  | _ => []
  end.

(** The unread messages addressed to [address], as [getDialogs] counts
    them. *)
Definition unread (address : jsstring) (l : list Message) : nat :=
  length (filter (fun m => to m = address ∧ read m = false) l).

(** What a message says, apart from its [read] flag. *)
Definition content (m : Message) : jsstring * jsstring * jsstring * jsstring * Z :=
  (id m, from m, to m, text m, timestamp m).

(** An inbound chat message, as the relay frames it. *)
Definition hi_payload : ServerClient.Payload :=
  {| ServerClient.data_address := None;
     ServerClient.data_from := Some (js "A");
     ServerClient.data_to := Some (js "B");
     ServerClient.data_text := Some (js "hi");
     ServerClient.data_error := None;
     ServerClient.data_timestamp := Some 1700000000 |}.

Definition hi_frame : ServerClient.Frame :=
  {| ServerClient.type := Some (js "message");
     ServerClient.data := Some hi_payload;
     ServerClient.top := ServerClient.empty_object |}.

(** The four event types the dispatcher names. *)
Definition named_type (t : jsstring) : Prop :=
  t = js "message" \/ t = js "registered" \/
  t = js "messageSent" \/ t = js "messageError".

(** *** The registry of listeners *)

Section Registry.
Import ServerClient.

(** The event a closure of a request is subscribed to. *)
Definition event_of (h : Handler) : option jsstring :=
  match h with
  | External _ => None
  | RegisteredHandler _ _ => Some (js "registered")
  | SuccessHandler _ _ => Some (js "messageSent")
  | ErrorHandler _ _ => Some (js "messageError")
  end.

(** The deadline timer that goes with a closure of a request. *)
Definition pending_of (h : Handler) : option Pending :=
  match h with
  | External _ => None
  | RegisteredHandler _ address => Some (PendingRegister address)
  | SuccessHandler _ to | ErrorHandler _ to => Some (PendingSend to)
  end.

(** [h] is in some listener array. *)
Definition subscribed (h : Handler) (s : Client) : Prop :=
  exists a l, arrays s !! a = Some l /\ h ∈ l.

(** No closure of request [req] is subscribed. *)
Definition absent (req : nat) (s : Client) : Prop :=
  forall h, subscribed h s -> owner h <> Some req.

(** The listener calls made so far on closures of request [req]. *)
Definition calls_of (req : nat) (s : Client) : list (Handler * Arg) :=
  filter (fun c => owner c.1 = Some req) (calls s).

(** The registry is well formed: arrays are allocated below [nextArray];
    a closure of a request sits once, in the array bound to its event, and
    agrees with the timer of its request while that timer is armed. *)
Record registry_ok (s : Client) : Prop := {
  ok_bound : forall t a, wsListeners s !! t = Some a -> (a < nextArray s)%nat;
  ok_alloc : forall a l, arrays s !! a = Some l -> (a < nextArray s)%nat;
  ok_owner : forall a l h req,
    arrays s !! a = Some l -> h ∈ l -> owner h = Some req ->
    (req < nextRequest s)%nat /\
    (exists t, event_of h = Some t /\ wsListeners s !! t = Some a) /\
    (forall i j, l !! i = Some h -> l !! j = Some h -> i = j) /\
    (forall p, timers s !! req = Some p -> pending_of h = Some p);
  ok_timers : forall req p, timers s !! req = Some p -> (req < nextRequest s)%nat;
}.

(** Request [req] has its outcome, or its deadline still armed. *)
Definition request_ok (req : nat) (s : Client) : Prop :=
  is_Some (promises s !! req) \/ is_Some (timers s !! req).

(** How a call is served. *)
Definition transport_of (e : Event) : option Transport :=
  match e with
  | RegisterAddress _ t | SendMessage _ _ _ t => Some t
  | _ => None
  end.

(** Request [req] is over: issued, its timer gone, its closures removed. *)
Definition quiet (req : nat) (s : Client) : Prop :=
  (req < nextRequest s)%nat /\ timers s !! req = None /\ absent req s.

(** Outcomes delivered in [s] are the same in [s']. *)
Definition keeps_outcomes (s s' : Client) : Prop :=
  forall req o, promises s !! req = Some o -> promises s' !! req = Some o.

(** The array [off] leaves: the first occurrence of the callback is
    cut out. *)
Definition spliced (callback : Handler) (listeners : list Handler) : list Handler :=
  match indexOf callback listeners with
  | Some index => delete index listeners
  | None => listeners
  end.

(** [h] occurs at most once in [l]. *)
Definition once (h : Handler) (l : list Handler) : Prop :=
  forall i j, l !! i = Some h -> l !! j = Some h -> i = j.

(** From [s] to [s'] request [req] stays over: no outcome changed, no
    closure of it called. *)
Definition undisturbed (req : nat) (s s' : Client) : Prop :=
  quiet req s' /\ promises s' !! req = promises s !! req /\
  calls_of req s' = calls_of req s.

(** The state in which the executor of request [nextRequest s] starts:
    the request is counted and its deadline armed. *)
Definition armed (p : Pending) (s : Client) : Client :=
  set_timers (<[nextRequest s := p]> (timers (new_request s))) (new_request s).

(** The rejection a deadline delivers. *)
Definition timeout_of (p : Pending) : Rejection :=
  match p with
  | PendingRegister _ => RegistrationTimeout
  | PendingSend _ => SendTimeout
  end.

(** The listeners of an event type, in the order of their subscription:
    [this.wsListeners.get(t) || []]. *)
Definition listeners (t : jsstring) (s : Client) : list Handler :=
  match wsListeners s !! t with
  | Some a => array a s
  | None => []
  end.

(** The buckets are well formed: an array is bound to one event type, it is
    allocated below [nextArray], and it is not empty. *)
Record buckets_ok (s : Client) : Prop := {
  buckets_distinct : forall t t' a,
    wsListeners s !! t = Some a -> wsListeners s !! t' = Some a -> t = t';
  buckets_below : forall t a, wsListeners s !! t = Some a -> (a < nextArray s)%nat;
  buckets_filled : forall t a, wsListeners s !! t = Some a -> array a s <> [];
}.

(** Outcomes belong to requests that were issued. *)
Definition promises_issued (s : Client) : Prop :=
  forall req, is_Some (promises s !! req) -> (req < nextRequest s)%nat.

(** A frame of the relay with its [type] and its [data]. *)
Definition relay_frame (t : string) (d : Payload) : Frame :=
  {| type := Some (js t); data := Some d; top := empty_object |}.

(** The message of the error that a [messageError] frame rejects a send
    with: [data.error], or the default text. *)
Definition failure_text (x : Arg) : jsstring :=
  match data_error (fields x) with
  | Some (c :: error) => c :: error
  | _ => js "Failed to send message"
  end.

(** The clean-up that both closures of a send do before they settle. *)
Definition finished (req : nat) (recipient : jsstring) (s : Client) : Client :=
  off (js "messageError") (ErrorHandler req recipient)
    (off (js "messageSent") (SuccessHandler req recipient)
       (clearTimeout req s)).

(** What the last block of [handleWebSocketMessage] passes to the
    listeners: [message.data || message]. *)
Definition data_or_message (message : Frame) : Arg :=
  match data message with
  | Some d => ArgData d
  | None => ArgMessage message
  end.

End Registry.

(** *** The connection *)

(** Timers and settled promises belong to sockets that exist. *)
Definition session_ok (s : Connection.Session) : Prop :=
  (forall j, j ∈ Connection.setupTimers s -> (j < Connection.attempts s)%nat) /\
  (forall j, is_Some (Connection.connectPromises s !! j) ->
             (j < Connection.attempts s)%nat).


(** The events whose code path reaches [new WebSocket]: the two methods,
    a turn of the wait loop and the reconnection timer. *)
Definition opens (e : Connection.Event) : bool :=
  match e with
  | Connection.EnsureConnected | Connection.ConnectWebSocket
  | Connection.Poll _ | Connection.Reconnect => true
  | _ => false
  end.

(** From [s] to [s']: no socket was constructed and the current connection
    was kept or dropped, or one socket was constructed and made current. *)
Definition moved (s s' : Connection.Session) : Prop :=
  (Connection.attempts s' = Connection.attempts s /\
   (Connection.wsConnection s' = None \/
    Connection.wsConnection s' = Connection.wsConnection s)) \/
  (Connection.attempts s' = S (Connection.attempts s) /\
   Connection.wsConnection s' = Some (Connection.attempts s)).

(** A socket that can still emit [close]. *)
Definition live (socket : nat) (s : Connection.Session) : Prop :=
  exists st, Connection.readyState socket s = Some st /\ st <> Connection.CLOSED.

(** The attempt on socket [k] is in flight: [k] is the socket constructed
    last and the current connection, it is still connecting, its promise is
    pending and its set-up timer runs, the flag is up, and request [c1]
    awaits it. *)
Record in_flight (k c1 : nat) (s : Connection.Session) : Prop := {
  flight_attempts : Connection.attempts s = S k;
  flight_current : Connection.wsConnection s = Some k;
  flight_state : Connection.readyState k s = Some Connection.CONNECTING;
  flight_flag : Connection.connecting s = true;
  flight_promise : Connection.connectPromises s !! k = None;
  flight_timer : k ∈ Connection.setupTimers s;
  flight_first : Connection.callers s !! c1 = Some (Connection.Awaiting k);
}.

(** The turns of the event loop that are neither an event of a socket nor
    the firing of a set-up timer, nor a direct call of [connectWebSocket]
    or [closeWebSocket], nor the twentieth turn of a wait loop: a call of
    [ensureConnected], an earlier turn of a wait loop, a reconnection
    timer. *)
Definition patient_event (s : Connection.Session) (e : Connection.Event) : bool :=
  match e with
  | Connection.EnsureConnected | Connection.Reconnect => true
  | Connection.Poll c =>
      match Connection.callers s !! c with
      | Some (Connection.Polling i) => (S i <? 20)%nat
      | _ => true
      end
  | _ => false
  end.

(** A schedule made of such turns, from [s] on. *)
Fixpoint patient (s : Connection.Session) (evs : list Connection.Event) : bool :=
  match evs with
  | [] => true
  | e :: evs' => patient_event s e && patient (Connection.step s e) evs'
  end.

(** The turns of the wait loop of request [c] in a schedule. *)
Definition turns (c : nat) (evs : list Connection.Event) : nat :=
  length (filter (fun e => e = Connection.Poll c) evs).

(** Request [c] awaits socket [j], which has closed with its promise
    pending and its set-up timer cleared. *)
Record stuck (c j : nat) (s : Connection.Session) : Prop := {
  stuck_caller : Connection.callers s !! c = Some (Connection.Awaiting j);
  stuck_promise : Connection.connectPromises s !! j = None;
  stuck_closed : Connection.readyState j s = Some Connection.CLOSED;
  stuck_timer : j ∉ Connection.setupTimers s;
}.

(** An interactive session in which the relay goes down: the connection
    of the first request opens and closes, and the reconnection timer
    starts socket 1; a second request arrives while socket 1 is connecting
    and replaces it by socket 2; the [error] and [close] events of socket 1
    follow, and then socket 2 fails. *)
Definition relay_down : Connection.Session :=
  Connection.run
    [Connection.EnsureConnected; Connection.Open 0; Connection.Close 0;
     Connection.Reconnect; Connection.EnsureConnected;
     Connection.Error 1; Connection.Close 1;
     Connection.Error 2; Connection.Close 2]
    (Connection.initial true).

(** Request [req], issued in [s0], has got nothing in [s]: no outcome, no
    deadline, no listener, no call of a closure. *)
Definition unanswered (req : nat) (s0 s : ServerClient.Client) : Prop :=
  ServerClient.promises s !! req = None /\
  ServerClient.timers s !! req = None /\
  absent req s /\ calls_of req s = calls_of req s0.

(** How an awaitable send is served, from where its [ensureConnected]
    stands for good and from whether [send] goes through: the send goes on
    when [ensureConnected] has returned, throws when it has thrown, and
    stays at its [await] when it stays at one of its own. *)
Definition served (c : Connection.Caller) (sends : bool) : ServerClient.Transport :=
  match c with
  | Connection.Returned =>
      if sends then ServerClient.Sent else ServerClient.SendThrows
  | Connection.Threw => ServerClient.Unreachable
  | Connection.Polling _ | Connection.Awaiting _ => ServerClient.Stalled
  end.

(** *** The output of the key tool *)

(** [p] occurs in [s]. *)
Definition occurs (p s : jsstring) : Prop := exists a b, s = a ++ p ++ b.

(** Lines joined by line feeds: [lines.join('\n')]. *)
Fixpoint join_lines (lines : list jsstring) : jsstring :=
  match lines with
  | [] => []
  | [line] => line
  | line :: lines' => line ++ RustCore.newline ++ join_lines lines'
  end.

(** A string that holds no line feed. *)
Definition one_line (s : jsstring) : Prop := 10%N ∉ s.

(** Neither end of the string is white space. *)
Definition trimmed (s : jsstring) : Prop :=
  (forall c, head s = Some c -> RustCore.white_space c = false) /\
  (forall c, last s = Some c -> RustCore.white_space c = false).

(** A tool that prints the same whatever it is asked. *)
Definition prints (stdout stderr : jsstring) : RustCore.Tool :=
  fun _ => RustCore.Exited stdout stderr.

End Spec.
Import Spec.

(** * Properties *)

(** ** The storage key *)

Section DialogPath.

Lemma string_lt_irrefl x : string_lt x x = false.
Proof.
  induction x as [|c x IH]; simpl; [done|].
  by rewrite N.ltb_irrefl.
Qed.

Lemma string_lt_asym x y : string_lt x y = true -> string_lt y x = false.
Proof.
  revert y; induction x as [|c x IH]; intros [|d y]; simpl; try done.
  destruct (N.ltb_spec c d), (N.ltb_spec d c); try done; try lia.
  apply IH.
Qed.

Lemma string_lt_total x y :
  string_lt x y = false -> string_lt y x = false -> x = y.
Proof.
  revert y; induction x as [|c x IH]; intros [|d y]; simpl; try done.
  destruct (N.ltb_spec c d), (N.ltb_spec d c); try done.
  intros Hxy Hyx. f_equal; [lia | by apply IH].
Qed.

Lemma sorted_pair_eq x y :
  sorted_pair x y = if string_lt y x then (y, x) else (x, y).
Proof.
  unfold sorted_pair, Array_sort, SortCompare; simpl.
  destruct (string_lt y x) eqn:Hyx; simpl; [done|].
  by destruct (string_lt x y).
Qed.

Lemma sorted_pair_comm x y : sorted_pair x y = sorted_pair y x.
Proof.
  rewrite !sorted_pair_eq.
  destruct (string_lt y x) eqn:Hyx.
  - by rewrite (string_lt_asym _ _ Hyx).
  - destruct (string_lt x y) eqn:Hxy; [done|].
    by rewrite (string_lt_total _ _ Hxy Hyx).
Qed.

(** The sorted pair holds the two addresses, in one order or the other. *)
Lemma sorted_pair_cases x y :
  sorted_pair x y = (x, y) \/ sorted_pair x y = (y, x).
Proof. rewrite sorted_pair_eq. destruct (string_lt y x); auto. Qed.

End DialogPath.

Example getDialogPath_AB :
  getDialogPath (js "B") (js "A") = js "A_B.json".
Proof. reflexivity. Qed.

(** C4: the order of the two addresses does not affect the storage key. *)
Theorem getDialogPath_comm (x y : jsstring) :
  getDialogPath x y = getDialogPath y x.
Proof. unfold getDialogPath. by rewrite (sorted_pair_comm x y). Qed.

(** ** Collisions of the storage key *)

Section Collisions.

Lemma alnum_word_char c : alnum c = true -> word_char c = true.
Proof. unfold alnum, word_char. intros ->. done. Qed.

Lemma alnum_not_underscore c : alnum c = true -> c <> underscore.
Proof. intros H ->. vm_compute in H. done. Qed.

Lemma sanitize_plain s : plain s = true -> sanitize s = s.
Proof.
  unfold plain, sanitize. induction s as [|c s IH]; simpl; [done|].
  intros [Hc Hs]%andb_prop. by rewrite (alnum_word_char _ Hc), IH.
Qed.

Lemma sanitize_app s t : sanitize (s ++ t) = sanitize s ++ sanitize t.
Proof. apply map_app. Qed.

(** Two strings without the separator are recovered from their join. *)
Lemma join_inj (a b c d : jsstring) :
  plain a = true -> plain c = true ->
  a ++ underscore :: b = c ++ underscore :: d -> a = c /\ b = d.
Proof.
  revert c. induction a as [|x a IH]; intros [|y c]; simpl.
  - intros _ _ [= ->]. done.
  - intros _ [Hy _]%andb_prop [= <- _]. by apply alnum_not_underscore in Hy.
  - intros [Hx _]%andb_prop _ [= -> _]. by apply alnum_not_underscore in Hx.
  - intros [_ Ha]%andb_prop [_ Hc]%andb_prop [= -> Heq].
    destruct (IH c Ha Hc Heq) as [-> ->]. done.
Qed.

Lemma dialogFile_plain a b :
  plain a = true -> plain b = true -> (length a + length b < 200)%nat ->
  dialogFile a b = a ++ underscore :: b ++ js ".json".
Proof.
  intros Ha Hb Hlen. unfold dialogFile.
  rewrite sanitize_app. simpl. rewrite (sanitize_plain a Ha), (sanitize_plain b Hb).
  replace (200 <? length (a ++ underscore :: b))%nat with false.
  - by rewrite <- app_assoc.
  - symmetry. apply Nat.ltb_ge. rewrite length_app. simpl. lia.
Qed.

Lemma dialogFile_inj a b c d :
  plain a = true -> plain b = true -> plain c = true -> plain d = true ->
  (length a + length b < 200)%nat -> (length c + length d < 200)%nat ->
  dialogFile a b = dialogFile c d -> (a, b) = (c, d).
Proof.
  intros Ha Hb Hc Hd Hab Hcd.
  rewrite (dialogFile_plain a b), (dialogFile_plain c d) by done.
  rewrite !(app_comm_cons _ (js ".json")), !app_assoc.
  intros Heq%app_inv_tail.
  destruct (join_inj a b c d Ha Hc Heq) as [-> ->]. done.
Qed.

End Collisions.

(** C2, as the code has it: on identities made of letters and digits whose
    joined key fits in 200 code units, distinct sorted pairs have distinct
    storage keys. *)
Theorem getDialogPath_injective_on_plain (a b c d : jsstring) :
  plain a = true -> plain b = true -> plain c = true -> plain d = true ->
  (length a + length b < 200)%nat -> (length c + length d < 200)%nat ->
  sorted_pair a b <> sorted_pair c d ->
  getDialogPath a b <> getDialogPath c d.
Proof.
  intros Ha Hb Hc Hd Hab Hcd Hne Heq. apply Hne.
  unfold getDialogPath in Heq. cbv zeta in Heq.
  destruct (sorted_pair_cases a b) as [Hab' | Hab'],
           (sorted_pair_cases c d) as [Hcd' | Hcd'];
    rewrite Hab', Hcd' in Heq |- *; simpl in Heq;
    apply dialogFile_inj in Heq; try done; lia.
Qed.

Lemma getDialogPath_injective_on_plain_witness :
  getDialogPath (js "alice1") (js "bob2") <> getDialogPath (js "alice1") (js "carol3").
Proof.
  apply getDialogPath_injective_on_plain; try reflexivity; simpl; try lia.
  vm_compute. discriminate.
Defined.

(** C2, as stated, fails: an identity with a character outside the safe
    alphabet and the identity with the separator in its place share a key. *)
Lemma getDialogPath_collision :
  sorted_pair (js "a") (js "b.c") <> sorted_pair (js "a") (js "b_c") /\
  getDialogPath (js "a") (js "b.c") = getDialogPath (js "a") (js "b_c").
Proof. split; [vm_compute; discriminate | reflexivity]. Qed.

(** The separator inside an identity moves the boundary of the pair. *)
Example getDialogPath_collision_separator :
  sorted_pair (js "a_b") (js "c") <> sorted_pair (js "a") (js "b_c") /\
  getDialogPath (js "a_b") (js "c") = getDialogPath (js "a") (js "b_c").
Proof. split; [vm_compute; discriminate | reflexivity]. Qed.

(** Truncation: what follows the 200th code unit is lost. *)
Example getDialogPath_collision_truncation :
  let long := replicate 200 97%N in
  sorted_pair long (js "x") <> sorted_pair long (js "y") /\
  getDialogPath long (js "x") = getDialogPath long (js "y").
Proof. split; [vm_compute; discriminate | vm_compute; reflexivity]. Qed.

(** ** Running the methods *)

Section Run.

Lemma bind_Ok {A B} (m : M A) (f : A -> M B) w a w' :
  m w = (Ok a, w') -> (m ≫= f) w = f a w'.
Proof. unfold mbind, M_bind. by intros ->. Qed.

(** A successful bind ran both halves. *)
Lemma bind_inv {A B} (m : M A) (f : A -> M B) w b w2 :
  (m ≫= f) w = (Ok b, w2) ->
  exists a w1, m w = (Ok a, w1) /\ f a w1 = (Ok b, w2).
Proof.
  unfold mbind, M_bind. destruct (m w) as [[a|e] w1]; [eauto | done].
Qed.

Lemma run_exec {A} (m : M A) w a : (m w).1 = Ok a -> m w = (Ok a, exec m w).
Proof. unfold exec. destruct (m w); simpl. by intros ->. Qed.

Lemma sorted_pair_idem x y :
  sorted_pair (sorted_pair x y).1 (sorted_pair x y).2 = sorted_pair x y.
Proof.
  rewrite (sorted_pair_eq x y). destruct (string_lt y x) eqn:Hyx; simpl.
  - by rewrite sorted_pair_eq, (string_lt_asym _ _ Hyx).
  - by rewrite sorted_pair_eq, Hyx.
Qed.

Lemma Array_sort_pair x y :
  Array_sort SortCompare [x; y] = [(sorted_pair x y).1; (sorted_pair x y).2].
Proof.
  rewrite sorted_pair_eq. unfold Array_sort, SortCompare; simpl.
  destruct (string_lt y x) eqn:Hyx; simpl; [done|].
  by destruct (string_lt x y).
Qed.

Lemma new_participants_path a1 a2 :
  getDialogPath_of (new_participants a1 a2) = getDialogPath a1 a2.
Proof.
  unfold new_participants. case_bool_decide as Heq; [by subst|].
  rewrite Array_sort_pair. simpl. unfold getDialogPath.
  by rewrite sorted_pair_idem.
Qed.


(** [getDialog] when the file is missing: the dialog is created with three
    readings of the clock, written under its key and returned. *)
Lemma getDialog_absent a1 a2 w dir :
  dialogsDir w = Some dir -> dir !! getDialogPath a1 a2 = None ->
  let d := {| participants := new_participants a1 a2; messages := [];
              createdAt := clock w (clockReads w);
              updatedAt := clock w (S (S (clockReads w))) |} in
  getDialog a1 a2 w =
    (Ok d,
     {| storageDir := storageDir w;
        dialogsDir := Some (<[getDialogPath a1 a2 := DialogJson d]> dir);
        contactsFile := contactsFile w; clock := clock w;
        clockReads := S (S (S (clockReads w))); random := random w;
        randomReads := randomReads w |}).
Proof.
  intros Hdir Hnone d. unfold getDialog.
  unfold mbind, M_bind, existsSync_dialog, dialog_lookup. rewrite Hdir, Hnone.
  rewrite bool_decide_eq_false_2 by (by intros [? ?]).
  unfold saveDialog, mbind, M_bind, Date_now, writeFile_dialog, mret, M_ret.
  cbn [participants messages createdAt updatedAt dialogsDir clock clockReads fst snd].
  rewrite Hdir, new_participants_path. done.
Qed.

(** [getDialog] when the file holds a dialog: it is returned as stored and
    nothing is written. *)
Lemma getDialog_present a1 a2 w dir d :
  dialogsDir w = Some dir -> dir !! getDialogPath a1 a2 = Some (DialogJson d) ->
  getDialog a1 a2 w = (Ok d, w).
Proof.
  intros Hdir Hsome. unfold getDialog.
  unfold mbind, M_bind, existsSync_dialog, readFile_dialog, dialog_lookup.
  rewrite Hdir, Hsome. rewrite bool_decide_eq_true_2 by eauto.
  by rewrite Hdir, Hsome.
Qed.

End Run.

(** ** Sorting *)

Section SortFacts.
Context {A : Type} (comparefn : A -> A -> Z).

Lemma sort_insert_perm x l : sort_insert comparefn x l ≡ₚ x :: l.
Proof.
  induction l as [|y l IH]; simpl; [done|].
  destruct (comparefn y x <? 0); [|done].
  rewrite IH. apply perm_swap.
Qed.

Lemma Array_sort_perm l : Array_sort comparefn l ≡ₚ l.
Proof.
  induction l as [|x l IH]; simpl; [done|].
  fold (Array_sort comparefn l). by rewrite sort_insert_perm, IH.
Qed.

Lemma Array_sort_length l : length (Array_sort comparefn l) = length l.
Proof. by rewrite Array_sort_perm. Qed.

(** A comparator that is the difference of two keys sorts by the key. *)
Context (key : A -> Z).
Hypothesis comparefn_key : forall a b, comparefn a b = key a - key b.

Lemma sort_insert_sorted x l :
  StronglySorted (fun a b => key a <= key b) l ->
  StronglySorted (fun a b => key a <= key b) (sort_insert comparefn x l).
Proof.
  induction 1 as [|y l Hl IH Hy]; simpl.
  - repeat constructor.
  - rewrite comparefn_key. destruct (Z.ltb_spec (key y - key x) 0).
    + constructor; [done|].
      rewrite sort_insert_perm. constructor; [lia | done].
    + constructor; [by constructor|].
      constructor; [lia|].
      eapply Forall_impl; [exact Hy|]. simpl. intros; lia.
Qed.

Lemma Array_sort_sorted l :
  StronglySorted (fun a b => key a <= key b) (Array_sort comparefn l).
Proof.
  induction l as [|x l IH]; simpl; [constructor|].
  by apply sort_insert_sorted.
Qed.
End SortFacts.

(** ** Dialogs that do not exist yet *)

Section Creation.



End Creation.



(** ** The dialog with oneself *)

Section SelfDialog.





End SelfDialog.



(** ** The contact directory *)

Section Contacts.

Lemma later_refl w : later w w.
Proof. by split. Qed.

Lemma later_trans w1 w2 w3 : later w1 w2 -> later w2 w3 -> later w1 w3.
Proof. intros [H1 H2] [H3 H4]. split; [congruence | lia]. Qed.

Lemma getContacts_contact_list w : getContacts w = (Ok (contact_list w), w).
Proof.
  unfold getContacts, contact_list.
  by destruct (contactsFile w) as [[| |]|].
Qed.

(** The steps of [addMessage] before [updateContacts] leave the contact
    file alone. *)
Lemma saveDialog_frame d r w w' :
  saveDialog d w = (r, w') ->
  contactsFile w' = contactsFile w /\ storageDir w' = storageDir w /\ later w w'.
Proof.
  unfold saveDialog, mbind, M_bind, Date_now, writeFile_dialog, mret, M_ret, later.
  simpl. destruct (dialogsDir w); intros [= <- <-]; simpl; repeat split; lia.
Qed.

Lemma getDialog_frame a1 a2 r w w' :
  getDialog a1 a2 w = (r, w') ->
  contactsFile w' = contactsFile w /\ storageDir w' = storageDir w /\ later w w'.
Proof.
  unfold getDialog, mbind at 1, M_bind at 1, existsSync_dialog.
  destruct (bool_decide _).
  - unfold mbind, M_bind, readFile_dialog, parse_dialog, mret, M_ret, throw.
    destruct (dialog_lookup _ w) as [[| |]|]; intros [= <- <-];
      repeat split; done.
  - unfold mbind at 1, M_bind at 1, Date_now at 1.
    unfold mbind at 1, M_bind at 1, Date_now at 1.
    intros (Hc & Hs & Hl & Hr)%saveDialog_frame. simpl in *.
    repeat split; try done; lia.
Qed.

Lemma find_has_address_None addr c :
  find (has_address addr) c = None <-> addr ∉ map address c.
Proof.
  induction c as [|x c IH]; simpl.
  - split; [intros _; apply not_elem_of_nil | done].
  - rewrite not_elem_of_cons. unfold has_address at 1. case_bool_decide as Hx.
    + split; [done | intros [Hne _]; by destruct Hne].
    + rewrite IH. split; [intros Hnin; split; [congruence | done] | by intros [_ ?]].
Qed.

Lemma touch_addresses addr now c : map address (touch addr now c) = map address c.
Proof.
  induction c as [|x c IH]; simpl; [done|].
  destruct (has_address addr x); simpl; [done | by rewrite IH].
Qed.

Lemma touch_addedAt addr now c : map addedAt (touch addr now c) = map addedAt c.
Proof.
  induction c as [|x c IH]; simpl; [done|].
  destruct (has_address addr x); simpl; [done | by rewrite IH].
Qed.

(** Entries of another address are those of before; with no duplicate, the
    entry of the address carries the new time. *)
Lemma touch_elem addr now c x :
  x ∈ touch addr now c ->
  (address x <> addr -> x ∈ c) /\
  (address x = addr -> NoDup (map address c) -> lastMessageAt x = now).
Proof.
  induction c as [|y c IH]; simpl; [by intros ?%elem_of_nil|].
  unfold has_address at 1. case_bool_decide as Hy.
  - intros [-> | Hx]%elem_of_cons; simpl.
    + split; [congruence | done].
    + split; [intros _; by right|].
      intros Ha [Hnin _]%NoDup_cons. exfalso. apply Hnin.
      rewrite Hy, <- Ha. by apply list_elem_of_fmap_2.
  - intros [-> | Hx]%elem_of_cons.
    + split; [intros _; by left | done].
    + destruct (IH Hx) as [IH1 IH2]. split.
      * intros Hne. right. by apply IH1.
      * intros Ha [_ Hnd]%NoDup_cons. by apply IH2.
Qed.

Lemma added_NoDup addr l : NoDup l -> NoDup (added addr l).
Proof.
  unfold added. intros Hnd. case_bool_decide as Hin; [done|].
  apply NoDup_app. split; [done|]. split; [|apply NoDup_singleton].
  by intros x Hx ->%list_elem_of_singleton.
Qed.

Lemma added_elem addr l : addr ∈ added addr l.
Proof.
  unfold added. case_bool_decide; [done|]. apply elem_of_app. right. by left.
Qed.

Lemma added_mono addr l x : x ∈ l -> x ∈ added addr l.
Proof.
  unfold added. case_bool_decide; [done|]. intros ?. apply elem_of_app. by left.
Qed.

Lemma added_present addr l : addr ∈ l -> added addr l = l.
Proof. unfold added. intros ?. by rewrite bool_decide_eq_true_2. Qed.

Lemma update_contact_spec addr c w :
  exists c' w',
    update_contact addr c w = (Ok c', w') /\
    contactsFile w' = contactsFile w /\ storageDir w' = storageDir w /\
    clock w' = clock w /\ (clockReads w < clockReads w')%nat /\
    map address c' = added addr (map address c) /\
    (addr ∈ map address c -> map addedAt c' = map addedAt c) /\
    (forall x, x ∈ c' -> address x <> addr -> x ∈ c) /\
    (forall x, x ∈ c' -> address x = addr -> NoDup (map address c) ->
       exists n, (clockReads w <= n < clockReads w')%nat /\
                 lastMessageAt x = clock w n).
Proof.
  unfold update_contact. destruct (find _ c) as [y|] eqn:Hfind.
  - assert (Hin : addr ∈ map address c).
    { destruct (decide (addr ∈ map address c)) as [|Hnin]; [done|].
      apply find_has_address_None in Hnin. congruence. }
    eexists _, _. split; [reflexivity|]. simpl.
    rewrite added_present by done.
    repeat split; try done; try lia.
    + apply touch_addresses.
    + intros _. apply touch_addedAt.
    + intros x Hx Hne. by apply (touch_elem _ _ _ _ Hx).
    + intros x Hx Ha Hnd. exists (clockReads w). split; [lia|].
      by apply (touch_elem _ _ _ _ Hx).
  - apply find_has_address_None in Hfind.
    eexists _, _. split; [reflexivity|]. simpl.
    unfold added. rewrite bool_decide_eq_false_2 by done.
    repeat split; try done; try lia.
    + by rewrite map_app.
    + intros x [Hx | ->%list_elem_of_singleton]%elem_of_app Hne; done.
    + intros x [Hx | ->%list_elem_of_singleton]%elem_of_app Ha _.
      * exfalso. apply Hfind. rewrite <- Ha. by apply list_elem_of_fmap_2.
      * exists (S (clockReads w)). split; [lia | done].
Qed.

Lemma read_contacts_inv c w w' :
  read_contacts w = (Ok c, w') -> c = contact_list w /\ w' = w.
Proof.
  unfold read_contacts, contact_list.
  destruct (contactsFile w) as [[| |]|]; intros [= <- <-]; done.
Qed.

(** What a successful [updateContacts] leaves in the directory. *)
Lemma updateContacts_inv a b w w' :
  updateContacts a b w = (Ok tt, w') ->
  NoDup (map address (contact_list w)) ->
  NoDup (map address (contact_list w')) /\
  a ∈ map address (contact_list w') /\ b ∈ map address (contact_list w') /\
  (a ∈ map address (contact_list w) -> b ∈ map address (contact_list w) ->
     map address (contact_list w') = map address (contact_list w) /\
     map addedAt (contact_list w') = map addedAt (contact_list w)) /\
  (forall x, x ∈ contact_list w' -> address x = a \/ address x = b ->
     exists n, (clockReads w <= n < clockReads w')%nat /\
               lastMessageAt x = clock w n) /\
  later w w'.
Proof.
  unfold updateContacts. intros (c0 & w0 & Hread & Hrun)%bind_inv Hnd.
  apply read_contacts_inv in Hread as [-> ->].
  destruct (update_contact_spec a (contact_list w) w)
    as (c1 & w1 & Hu1 & Hf1 & Hs1 & Hk1 & Hr1 & Ha1 & Hd1 & Ho1 & Hn1).
  rewrite (bind_Ok _ _ _ _ _ Hu1) in Hrun.
  destruct (update_contact_spec b c1 w1)
    as (c2 & w2 & Hu2 & Hf2 & Hs2 & Hk2 & Hr2 & Ha2 & Hd2 & Ho2 & Hn2).
  rewrite (bind_Ok _ _ _ _ _ Hu2) in Hrun.
  unfold writeFile_contacts in Hrun.
  destruct (storageDir w2); [|done]. injection Hrun as <-.
  assert (Hcl : contact_list (set_contactsFile (Some (ContactsJson c2)) w2) = c2)
    by done.
  rewrite !Hcl. clear Hcl. simpl.
  assert (Hnd1 : NoDup (map address c1)).
  { rewrite Ha1. by apply added_NoDup. }
  assert (Hin1 : a ∈ map address c1).
  { rewrite Ha1. apply added_elem. }
  split; [|split; [|split; [|split; [|split]]]].
  - rewrite Ha2. by apply added_NoDup.
  - rewrite Ha2. by apply added_mono.
  - rewrite Ha2. apply added_elem.
  - intros Ha Hb. rewrite added_present in Ha1 by done.
    assert (Hb1 : b ∈ map address c1) by by rewrite Ha1.
    rewrite added_present in Ha2 by done.
    split; [congruence|]. rewrite (Hd2 Hb1). by apply Hd1.
  - intros x Hx Hab. destruct (decide (address x = b)) as [Hxb | Hxb].
    + destruct (Hn2 x Hx Hxb Hnd1) as (n & Hn & ->).
      exists n. split; [lia | by rewrite Hk1].
    + destruct Hab as [Hxa | ?]; [|done].
      destruct (Hn1 x (Ho2 x Hx Hxb) Hxa Hnd) as (n & Hn & ->).
      exists n. split; [lia | done].
  - split; simpl; [congruence | lia].
Qed.

(** A successful [addMessage] ends with a successful [updateContacts] on
    the contact file the call started with. *)
Lemma addMessage_inv from to text ts w m w' :
  addMessage from to text ts w = (Ok m, w') ->
  exists wa, contactsFile wa = contactsFile w /\ later w wa /\
             updateContacts from to wa = (Ok tt, w').
Proof.
  unfold addMessage.
  intros (t & w0 & Ht & Hrun)%bind_inv.
  assert (contactsFile w0 = contactsFile w /\ later w w0) as [Hc0 Hl0].
  { destruct ts; injection Ht as <- <-; simpl; repeat split; simpl; lia. }
  apply bind_inv in Hrun as (d & w1 & Hget & Hrun).
  apply getDialog_frame in Hget as (Hc1 & _ & Hl1).
  apply bind_inv in Hrun as (sfx & w2 & Hrand & Hrun).
  injection Hrand as <- <-.
  apply bind_inv in Hrun as (d' & w3 & Hsave & Hrun).
  apply saveDialog_frame in Hsave as (Hc3 & _ & Hl3).
  apply bind_inv in Hrun as ([] & w4 & Hupd & Hret).
  injection Hret as <- <-.
  exists w3. split; [|split; [|done]].
  - simpl in Hc3. congruence.
  - destruct Hl0 as [? ?], Hl1 as [? ?], Hl3 as [? ?]. simpl in *.
    split; [congruence | lia].
Qed.

End Contacts.

(** C7: two [addMessage] calls for the same pair, on a directory without
    duplicates: the directory still has one entry per address, among them
    the two addresses of the pair; the second call adds no entry and changes
    no [addedAt]; it stamps [lastMessageAt] of both addresses with a reading
    of the clock taken during the call. *)
Theorem addMessage_twice_no_duplicate_contact
    (from to text1 text2 : jsstring) (ts1 ts2 : option Z)
    (w w1 w2 : World) (m1 m2 : Message) :
  NoDup (map address (contact_list w)) ->
  addMessage from to text1 ts1 w = (Ok m1, w1) ->
  addMessage from to text2 ts2 w1 = (Ok m2, w2) ->
  NoDup (map address (contact_list w2)) /\
  from ∈ map address (contact_list w2) /\
  to ∈ map address (contact_list w2) /\
  map address (contact_list w2) = map address (contact_list w1) /\
  map addedAt (contact_list w2) = map addedAt (contact_list w1) /\
  (forall c, c ∈ contact_list w2 -> address c = from \/ address c = to ->
     exists n, (clockReads w1 <= n < clockReads w2)%nat /\
               lastMessageAt c = clock w1 n).
Proof.
  intros Hnd (wa & Hca & Hla & Hupd1)%addMessage_inv
             (wb & Hcb & Hlb & Hupd2)%addMessage_inv.
  assert (Hla' : contact_list wa = contact_list w)
    by (unfold contact_list; by rewrite Hca).
  assert (Hlb' : contact_list wb = contact_list w1)
    by (unfold contact_list; by rewrite Hcb).
  rewrite <- Hla' in Hnd.
  destruct (updateContacts_inv _ _ _ _ Hupd1 Hnd) as (Hnd1 & Hf1 & Ht1 & _).
  rewrite <- Hlb' in Hnd1, Hf1, Ht1.
  destruct (updateContacts_inv _ _ _ _ Hupd2 Hnd1)
    as (Hnd2 & Hf2 & Ht2 & Hsame & Hstamp & Hl2).
  destruct (Hsame Hf1 Ht1) as [Haddr Hadded].
  rewrite Hlb' in Haddr, Hadded.
  repeat split; try done.
  intros c Hc Hab. destruct (Hstamp c Hc Hab) as (n & Hn & ->).
  destruct Hlb as [Hk ?]. exists n. split; [lia | by rewrite Hk].
Qed.

Lemma addMessage_twice_no_duplicate_contact_witness :
  let w := exec init blank in
  let w1 := exec (addMessage (js "A") (js "B") (js "hi") (Some 1000)) w in
  let w2 := exec (addMessage (js "A") (js "B") (js "again") (Some 2000)) w1 in
  NoDup (map address (contact_list w2)) /\
  map address (contact_list w2) = map address (contact_list w1).
Proof.
  intros w w1 w2.
  assert (H1 : (addMessage (js "A") (js "B") (js "hi") (Some 1000) w).1
               = Ok {| id := js "1000_0"; from := js "A"; to := js "B";
                       text := js "hi"; timestamp := 1000; read := false |})
    by (vm_compute; reflexivity).
  assert (H2 : (addMessage (js "A") (js "B") (js "again") (Some 2000) w1).1
               = Ok {| id := js "2000_1"; from := js "A"; to := js "B";
                       text := js "again"; timestamp := 2000; read := false |})
    by (vm_compute; reflexivity).
  assert (H0 : NoDup (map address (contact_list w)))
    by (vm_compute; constructor).
  destruct (addMessage_twice_no_duplicate_contact _ _ _ _ _ _ w w1 w2 _ _ H0
              (run_exec _ _ _ H1) (run_exec _ _ _ H2))
    as (Hnd & _ & _ & Haddr & _).
  split; [exact Hnd | exact Haddr].
Defined.

(** ** Reading messages and listing dialogs *)

Section Listing.

Lemma StronglySorted_weaken {A} (R S : A -> A -> Prop) l :
  (forall x y, R x y -> S x y) -> StronglySorted R l -> StronglySorted S l.
Proof.
  intros HRS. induction 1 as [|x l Hl IH Hx]; constructor; [done|].
  eapply Forall_impl; [exact Hx | by auto].
Qed.

Lemma by_timestamp_key a b : by_timestamp a b = timestamp a - timestamp b.
Proof. done. Qed.

(** [getMessages] on a stored dialog: the ascending stable sort, cut by
    [slice(-limit)]. *)
Lemma getMessages_present a1 a2 limit w dir d :
  dialogsDir w = Some dir -> dir !! getDialogPath a1 a2 = Some (DialogJson d) ->
  getMessages a1 a2 limit w =
    (Ok (Array_slice (- default 50 limit) (Array_sort by_timestamp (messages d))), w).
Proof.
  intros Hdir Hsome. unfold getMessages.
  by rewrite (bind_Ok _ _ _ _ _ (getDialog_present a1 a2 w dir d Hdir Hsome)).
Qed.

(** A positive limit keeps the last [limit] messages of the sorted list. *)
Lemma Array_slice_last {A} (limit : Z) (l : list A) :
  0 < limit -> Array_slice (- limit) l = drop (length l - Z.to_nat limit) l.
Proof.
  intros Hpos. unfold Array_slice.
  replace (- limit <? 0) with true by (symmetry; apply Z.ltb_lt; lia).
  f_equal. lia.
Qed.

(** [slice(-0)] is [slice(0)]: the whole list. *)
Lemma Array_slice_zero {A} (l : list A) : Array_slice (- 0) l = l.
Proof. unfold Array_slice. simpl. by rewrite Z.min_l by lia. Qed.

Lemma getMessages_ascending a1 a2 limit w w' l :
  getMessages a1 a2 limit w = (Ok l, w') ->
  StronglySorted (fun a b => timestamp a <= timestamp b) l.
Proof.
  unfold getMessages. intros (d & w1 & _ & [= <- _])%bind_inv.
  unfold Array_slice.
  assert (Hs := Array_sort_sorted by_timestamp timestamp by_timestamp_key (messages d)).
  revert Hs. generalize (Array_sort by_timestamp (messages d)) as s.
  intros s Hs. generalize (Z.to_nat
    (if - default 50 limit <? 0
     then Z.max (Z.of_nat (length s) + - default 50 limit) 0
     else Z.min (- default 50 limit) (Z.of_nat (length s)))) as k.
  intros k. revert s Hs. induction k as [|k IH]; intros s Hs; [by rewrite drop_0|].
  destruct s as [|x s]; [done|]. simpl. apply IH.
  by apply StronglySorted_inv in Hs as [? _].
Qed.

(** What [getDialogs] reports for a dialog it keeps: the last message in
    stored order. *)
Lemma view_lastMessage a d v :
  view a d = Some v -> dialog v = d /\ lastMessage v = last (messages d).
Proof.
  unfold view. repeat case_match; try done; by intros [= <-].
Qed.

Lemma getDialogs_lastMessage a w w' l v :
  getDialogs a w = (Ok l, w') -> v ∈ l ->
  lastMessage v = last (messages (dialog v)).
Proof.
  unfold getDialogs. destruct (dialogsDir w) as [dir|].
  - intros [= <- _]. rewrite Array_sort_perm.
    intros ([name f] & _ & Hscan)%list_elem_of_omap.
    unfold scan_file in Hscan. simpl in Hscan.
    destruct (endsWith _ _); [|done]. destruct f as [d| |]; try done.
    apply view_lastMessage in Hscan as [Hd Hl]. by rewrite Hd.
  - intros [= <- _] ?%elem_of_nil. done.
Qed.

(** The dialogs come most recent first, by the time of the reported last
    message, or by [updatedAt] when there is none. *)
Lemma getDialogs_descending a w w' l :
  getDialogs a w = (Ok l, w') ->
  StronglySorted (fun x y => activity y <= activity x) l.
Proof.
  unfold getDialogs. destruct (dialogsDir w) as [dir|]; intros [= <- _].
  - eapply StronglySorted_weaken;
      [| apply (Array_sort_sorted most_recent_first (fun v => - activity v))].
    + simpl. intros; lia.
    + intros x y. unfold most_recent_first. lia.
  - constructor.
Qed.

End Listing.

(** C8, at limit 0: [slice(-0)] returns the whole dialog, where the most
    recent 0 messages are none. *)
Theorem getMessages_limit_zero_returns_all :
  (getMessages (js "A") (js "B") (Some 0) one_message).1 =
    Ok [{| id := js "1000_0"; from := js "A"; to := js "B"; text := js "hi";
           timestamp := 1000; read := false |}].
Proof. vm_compute. reflexivity. Qed.

(** The same on every stored dialog: limit 0 returns all its messages. *)
Lemma getMessages_limit_zero a1 a2 w dir d :
  dialogsDir w = Some dir -> dir !! getDialogPath a1 a2 = Some (DialogJson d) ->
  getMessages a1 a2 (Some 0) w = (Ok (Array_sort by_timestamp (messages d)), w).
Proof.
  intros Hdir Hsome. rewrite (getMessages_present _ _ _ _ _ _ Hdir Hsome).
  simpl. by rewrite (Array_slice_zero (Array_sort by_timestamp (messages d))).
Qed.

(** With a positive limit, on a stored dialog: the last [limit] messages
    of the ascending sort. *)
Lemma getMessages_positive_limit a1 a2 limit w dir d :
  dialogsDir w = Some dir -> dir !! getDialogPath a1 a2 = Some (DialogJson d) ->
  0 < limit ->
  getMessages a1 a2 (Some limit) w =
    (Ok (drop (length (messages d) - Z.to_nat limit)
              (Array_sort by_timestamp (messages d))), w).
Proof.
  intros Hdir Hsome Hpos. rewrite (getMessages_present _ _ _ _ _ _ Hdir Hsome).
  simpl. by rewrite Array_slice_last, Array_sort_length.
Qed.

Lemma getMessages_default_limit a1 a2 w :
  getMessages a1 a2 None w = getMessages a1 a2 (Some 50) w.
Proof. done. Qed.

(** C3, on a dialog saved out of timestamp order: the reported last message
    is the last one stored, of timestamp 1000, while the dialog holds a
    message of timestamp 2000. *)
Theorem getDialogs_lastMessage_is_last_stored :
  match (getDialogs (js "A") out_of_order).1 with
  | Ok [v] =>
      map timestamp (messages (dialog v)) = [2000; 1000] /\
      timestamp <$> lastMessage v = Some 1000
  | _ => False
  end.
Proof. vm_compute. split; reflexivity. Qed.

(** ** Dispatch of inbound frames *)

Section Dispatch.
Import ServerClient.

(** Comparisons of literal event types are decided by computation. *)
Ltac decide_types :=
  repeat match goal with
         | |- context [bool_decide (?x = ?y)] =>
             let b := eval vm_compute in (bool_decide (x = y)) in
             change (bool_decide (x = y)) with b
         | |- context [truthy (Some ?x)] =>
             let b := eval vm_compute in (truthy (Some x)) in
             change (truthy (Some x)) with b
         end;
  cbv beta iota; unfold default.

Lemma log_calls_nil s : log_calls [] s = s.
Proof. destruct s. unfold log_calls. simpl. by rewrite app_nil_r. Qed.

Lemma log_calls_app cs cs' s : log_calls cs' (log_calls cs s) = log_calls (cs ++ cs') s.
Proof. unfold log_calls. simpl. by rewrite app_assoc. Qed.

Lemma call_external h x s : owner h = None -> call h x s = log_calls [(h, x)] s.
Proof. by destruct h. Qed.

(** Over an array of application listeners nothing moves during the loop:
    each one is called once, in order. *)
Lemma forEach_from_external a x l k n s :
  arrays s !! a = Some l -> Forall (fun h => owner h = None) l ->
  forEach_from a x k n s = log_calls (map (fun h => (h, x)) (take n (drop k l))) s.
Proof.
  intros Ha Hl. revert k s Ha. induction n as [|n IH]; intros k s Ha; simpl.
  - by rewrite log_calls_nil.
  - unfold array at 1. rewrite Ha. simpl.
    destruct (l !! k) as [h|] eqn:Hk.
    + rewrite call_external
        by (eapply (proj1 (Forall_forall _ _) Hl), list_elem_of_lookup_2, Hk).
      rewrite IH by done. rewrite log_calls_app. f_equal.
      rewrite (drop_S _ _ _ Hk). done.
    + rewrite IH by done. f_equal.
      apply lookup_ge_None in Hk.
      rewrite !drop_ge by lia. by rewrite !take_nil.
Qed.

Lemma notify_external t a x l s :
  wsListeners s !! t = Some a -> arrays s !! a = Some l ->
  Forall (fun h => owner h = None) l ->
  notify t x s = log_calls (map (fun h => (h, x)) l) s.
Proof.
  intros Ht Ha Hl. unfold notify, forEach, array. rewrite Ht, Ha. simpl.
  rewrite (forEach_from_external a x l) by done.
  by rewrite drop_0, firstn_all.
Qed.

(** A frame of one of the four named types, with its data, reaches every
    application listener of that type twice: once in the block of the type,
    once more in the block for the other event types. *)
Lemma named_frame_notifies_twice message t d a l s :
  named_type t -> type message = Some t -> data message = Some d ->
  wsListeners s !! t = Some a -> arrays s !! a = Some l ->
  Forall (fun h => owner h = None) l ->
  handleWebSocketMessage message s =
    log_calls (map (fun h => (h, ArgData d)) l ++ map (fun h => (h, ArgData d)) l) s.
Proof.
  intros Hnamed Htype Hdata Ht Ha Hl.
  unfold handleWebSocketMessage, is_type. rewrite Htype, Hdata.
  destruct Hnamed as [-> | [-> | [-> | ->]]]; decide_types;
    rewrite (notify_external _ a _ l s) by done;
    rewrite (notify_external _ a _ l) by done;
    by rewrite log_calls_app.
Qed.

End Dispatch.

(** C1, at a chat message with one subscribed listener: the listener is
    invoked twice with the payload. *)
Theorem message_frame_invokes_listener_twice :
  ServerClient.calls
    (ServerClient.run
       [ServerClient.On (js "message") 0; ServerClient.Inbound (Some hi_frame)]
       ServerClient.initial)
  = [(ServerClient.External 0, ServerClient.ArgData hi_payload);
     (ServerClient.External 0, ServerClient.ArgData hi_payload)].
Proof. vm_compute. reflexivity. Qed.

(** ** Awaitable sends *)

Section Correlator.
Import ServerClient.

(** *** What each primitive leaves alone *)

Lemma off_fields t h s :
  timers (off t h s) = timers s /\ promises (off t h s) = promises s /\
  nextRequest (off t h s) = nextRequest s /\ calls (off t h s) = calls s /\
  nextArray (off t h s) = nextArray s.
Proof. unfold off. by destruct (wsListeners s !! t). Qed.

Lemma on_fields t h s :
  timers (on t h s) = timers s /\ promises (on t h s) = promises s /\
  nextRequest (on t h s) = nextRequest s /\ calls (on t h s) = calls s.
Proof. unfold on. by destruct (wsListeners s !! t). Qed.

Lemma settle_fields req o s :
  timers (settle req o s) = timers s /\ arrays (settle req o s) = arrays s /\
  wsListeners (settle req o s) = wsListeners s /\
  nextRequest (settle req o s) = nextRequest s /\
  calls (settle req o s) = calls s /\ nextArray (settle req o s) = nextArray s.
Proof. unfold settle. by destruct (promises s !! req). Qed.

Lemma settle_promises req o s req' :
  promises (settle req o s) !! req' =
    match promises s !! req' with
    | Some o' => Some o'
    | None => if bool_decide (req' = req) then Some o else None
    end.
Proof.
  unfold settle. destruct (promises s !! req) as [o0|] eqn:Hr; simpl.
  - destruct (promises s !! req') eqn:Hr'; [done|].
    case_bool_decide; [congruence | done].
  - rewrite lookup_insert. case_decide as Heq.
    + subst. rewrite Hr. by rewrite bool_decide_eq_true_2.
    + rewrite bool_decide_eq_false_2 by congruence.
      by destruct (promises s !! req').
Qed.

Lemma settle_is_Some req o s : is_Some (promises (settle req o s) !! req).
Proof.
  rewrite settle_promises. destruct (promises s !! req); [by eexists|].
  rewrite bool_decide_eq_true_2 by done. by eexists.
Qed.

Lemma settle_other req o s req' :
  req' <> req -> promises (settle req o s) !! req' = promises s !! req'.
Proof.
  intros Hne. rewrite settle_promises. rewrite bool_decide_eq_false_2 by done.
  by destruct (promises s !! req').
Qed.

Lemma settle_keeps req o s : keeps_outcomes s (settle req o s).
Proof. intros r o' Hr. rewrite settle_promises. by rewrite Hr. Qed.

Lemma keeps_refl s : keeps_outcomes s s.
Proof. by intros r o. Qed.

Lemma keeps_trans s1 s2 s3 :
  keeps_outcomes s1 s2 -> keeps_outcomes s2 s3 -> keeps_outcomes s1 s3.
Proof. intros H1 H2 r o Hr. by apply H2, H1. Qed.

Lemma keeps_eq s s' : promises s' = promises s -> keeps_outcomes s s'.
Proof. intros Heq r o. by rewrite Heq. Qed.

(** *** Cutting a listener out of an array *)

Lemma indexOf_Some h l i : indexOf h l = Some i -> l !! i = Some h.
Proof.
  unfold indexOf. destruct (list_find _ l) as [[i' h']|] eqn:Hfind; [|done].
  intros [= <-]. apply list_find_Some in Hfind as (Hi & -> & _). done.
Qed.

Lemma indexOf_None h l : indexOf h l = None -> h ∉ l.
Proof.
  unfold indexOf. destruct (list_find _ l) as [[i' h']|] eqn:Hfind; [done|].
  intros _ Hin. apply list_find_None in Hfind.
  by apply (proj1 (Forall_forall _ _) Hfind h Hin).
Qed.

Lemma spliced_elem h l x : x ∈ spliced h l -> x ∈ l.
Proof.
  unfold spliced. destruct (indexOf h l); [|done].
  intros Hx. eapply elem_of_sublist; [exact Hx | apply sublist_delete].
Qed.

Lemma delete_once x l k : once x l -> once x (delete k l).
Proof.
  intros Hx i j Hi Hj.
  rewrite list_lookup_delete in Hi, Hj.
  repeat case_decide; [ by apply Hx | | | ].
  - specialize (Hx _ _ Hi Hj). lia.
  - specialize (Hx _ _ Hi Hj). lia.
  - specialize (Hx _ _ Hi Hj). lia.
Qed.

Lemma spliced_once h l x : once x l -> once x (spliced h l).
Proof.
  unfold spliced. destruct (indexOf h l); [|done]. apply delete_once.
Qed.

Lemma spliced_gone h l : once h l -> h ∉ spliced h l.
Proof.
  unfold spliced. destruct (indexOf h l) as [k|] eqn:Hk.
  - apply indexOf_Some in Hk. intros Hh [j Hj]%list_elem_of_lookup_1.
    rewrite list_lookup_delete in Hj. case_decide.
    + specialize (Hh _ _ Hk Hj). lia.
    + specialize (Hh _ _ Hk Hj). lia.
  - intros _. by apply indexOf_None.
Qed.

Lemma off_unbound t h s : wsListeners s !! t = None -> off t h s = s.
Proof. unfold off. by intros ->. Qed.

Lemma off_arrays t h s a :
  wsListeners s !! t = Some a ->
  arrays (off t h s) = <[a := spliced h (array a s)]> (arrays s).
Proof. unfold off, spliced. by intros ->. Qed.

Lemma off_wsListeners t h s a :
  wsListeners s !! t = Some a ->
  wsListeners (off t h s) =
    if bool_decide (length (spliced h (array a s)) = 0%nat)
    then delete t (wsListeners s) else wsListeners s.
Proof. unfold off, spliced. by intros ->. Qed.

(** An array after [off] is an array of before, or the bound one with the
    callback cut out. *)
Lemma off_arrays_inv t h s a' l' :
  arrays (off t h s) !! a' = Some l' ->
  arrays s !! a' = Some l' \/
  (wsListeners s !! t = Some a' /\ l' = spliced h (array a' s)).
Proof.
  destruct (wsListeners s !! t) as [a|] eqn:Ht.
  - rewrite (off_arrays _ _ _ _ Ht), lookup_insert. case_decide as Ha.
    + subst. intros [= <-]. by right.
    + by left.
  - rewrite (off_unbound _ _ _ Ht). by left.
Qed.

Lemma off_subscribed t h s x : subscribed x (off t h s) -> subscribed x s.
Proof.
  intros (a' & l' & Ha' & Hx).
  apply off_arrays_inv in Ha' as [Ha' | [Ht ->]].
  - by exists a', l'.
  - apply spliced_elem in Hx. unfold array in Hx.
    destruct (arrays s !! a') as [l|] eqn:Hl; [|by apply elem_of_nil in Hx].
    by exists a', l.
Qed.

Lemma off_absent t h s req : absent req s -> absent req (off t h s).
Proof. intros Habs x Hx. by apply Habs, (off_subscribed t h). Qed.

(** A binding after [off] was there before; a binding of before stays,
    unless its array was left empty. *)
Lemma off_bound_inv t h s t' a' :
  wsListeners (off t h s) !! t' = Some a' -> wsListeners s !! t' = Some a'.
Proof.
  destruct (wsListeners s !! t) as [a|] eqn:Ht.
  - rewrite (off_wsListeners _ _ _ _ Ht). case_bool_decide; [|done].
    rewrite lookup_delete. by case_decide.
  - by rewrite (off_unbound _ _ _ Ht).
Qed.

Lemma off_bound_keep t h s t' a' x :
  wsListeners s !! t' = Some a' ->
  arrays (off t h s) !! a' = Some x -> x <> [] ->
  wsListeners (off t h s) !! t' = Some a'.
Proof.
  intros Ht' Hx Hne.
  destruct (wsListeners s !! t) as [a|] eqn:Ht.
  - rewrite (off_arrays _ _ _ _ Ht) in Hx.
    rewrite (off_wsListeners _ _ _ _ Ht). case_bool_decide as Hlen; [|done].
    rewrite lookup_delete. case_decide as Heq; [|done].
    subst. rewrite Ht in Ht'. injection Ht' as ->.
    rewrite lookup_insert_eq in Hx. injection Hx as <-.
    by apply nil_length_inv in Hlen.
  - by rewrite (off_unbound _ _ _ Ht).
Qed.

Lemma array_elem a s x : x ∈ array a s -> exists l, arrays s !! a = Some l /\ x ∈ l.
Proof.
  unfold array. destruct (arrays s !! a) as [l|]; simpl.
  - by exists l.
  - by intros ?%elem_of_nil.
Qed.

Lemma array_Some a s l : arrays s !! a = Some l -> array a s = l.
Proof. unfold array. by intros ->. Qed.

Lemma off_registry_ok t h s : registry_ok s -> registry_ok (off t h s).
Proof.
  intros [Hb Ha Ho Ht].
  destruct (off_fields t h s) as (Etim & Eprom & Ereq & Ecalls & Earr).
  split.
  - intros t' a' Hbound%off_bound_inv. rewrite Earr. by eapply Hb.
  - intros a' l' [Hl' | [Hbound ->]]%off_arrays_inv; rewrite Earr; eauto.
  - intros a' l' x req Hl' Hx Hown.
    assert (Hne : l' <> []) by (intros ->; by apply elem_of_nil in Hx).
    assert (exists l, arrays s !! a' = Some l /\ x ∈ l /\ (once x l -> once x l'))
      as (l & Hl & Hin & Honce).
    { pose proof Hl' as Hl''. apply off_arrays_inv in Hl'' as [Hl'' | [_ ->]].
      - by exists l'.
      - destruct (array_elem _ _ _ (spliced_elem _ _ _ Hx)) as (l & Hl & Hin).
        exists l. rewrite (array_Some _ _ _ Hl).
        split; [done|]. split; [done|]. apply spliced_once. }
    destruct (Ho _ _ _ _ Hl Hin Hown) as (Hr & (t' & Hev & Hbd) & Hon & Htm).
    rewrite Ereq, Etim. split; [done|]. split; [|split; [by apply Honce | done]].
    exists t'. split; [done|].
    eapply off_bound_keep; [exact Hbd | exact Hl' | exact Hne].
  - intros req p. rewrite Etim, Ereq. apply Ht.
Qed.

(** After [off] on its event, a closure of a request is subscribed
    nowhere. *)
Lemma off_removes t h s req :
  registry_ok s -> owner h = Some req -> event_of h = Some t ->
  ~ subscribed h (off t h s).
Proof.
  intros [Hb Ha Ho Ht] Hown Hev (a' & l' & Hl' & Hx).
  assert (exists l, arrays s !! a' = Some l /\ h ∈ l) as (l & Hl & Hin).
  { apply off_arrays_inv in Hl' as [Hl' | [_ ->]]; [by exists l'|].
    by apply array_elem, (spliced_elem h). }
  destruct (Ho _ _ _ _ Hl Hin Hown) as (_ & (t' & Hev' & Hbd) & Hon & _).
  rewrite Hev in Hev'. injection Hev' as <-.
  rewrite (off_arrays _ _ _ _ Hbd), lookup_insert_eq, (array_Some _ _ _ Hl) in Hl'.
  injection Hl' as <-. by apply (spliced_gone h l).
Qed.

(** *** Subscribing *)

Lemma on_bound t h s a :
  wsListeners s !! t = Some a ->
  on t h s = set_registry (wsListeners s) (<[a := array a s ++ [h]]> (arrays s))
               (nextArray s) s.
Proof. unfold on. by intros ->. Qed.

Lemma on_unbound t h s :
  wsListeners s !! t = None ->
  on t h s = set_registry (<[t := nextArray s]> (wsListeners s))
               (<[nextArray s := [h]]> (arrays s)) (S (nextArray s)) s.
Proof. unfold on. by intros ->. Qed.

(** An array after [on]: the bound array with the callback at its end, a
    new array with the callback alone, or an array of before. *)
Lemma on_arrays_inv t h s a' l' :
  arrays (on t h s) !! a' = Some l' ->
  (wsListeners s !! t = Some a' /\ l' = array a' s ++ [h]) \/
  (wsListeners s !! t = None /\ a' = nextArray s /\ l' = [h]) \/
  (arrays s !! a' = Some l' /\ wsListeners s !! t <> Some a' /\
   (wsListeners s !! t = None -> a' <> nextArray s)).
Proof.
  destruct (wsListeners s !! t) as [a|] eqn:Ht.
  - rewrite (on_bound _ _ _ _ Ht). simpl. rewrite lookup_insert.
    case_decide as Ha.
    + subst. intros [= <-]. by left.
    + intros Hl'. right. right. split; [done|]. split; [congruence | done].
  - rewrite (on_unbound _ _ _ Ht). simpl. rewrite lookup_insert.
    case_decide as Ha.
    + subst. intros [= <-]. right. by left.
    + intros Hl'. right. right. split; [done|]. split; [done | congruence].
Qed.

Lemma on_subscribed t h s x : subscribed x (on t h s) -> x = h \/ subscribed x s.
Proof.
  intros (a' & l' & Hl' & Hx).
  apply on_arrays_inv in Hl' as [[_ ->] | [(_ & _ & ->) | (Hl' & _)]].
  - apply elem_of_app in Hx as [Hx | Hx%list_elem_of_singleton]; [|by left].
    right. apply array_elem in Hx as (l & Hl & Hx). by exists a', l.
  - apply list_elem_of_singleton in Hx. by left.
  - right. by exists a', l'.
Qed.

Lemma on_absent t h s req :
  owner h <> Some req -> absent req s -> absent req (on t h s).
Proof.
  intros Hh Habs x [-> | Hx]%on_subscribed; [done | by apply Habs].
Qed.

Lemma on_bound_keep t h s t' a' :
  registry_ok s ->
  wsListeners s !! t' = Some a' -> wsListeners (on t h s) !! t' = Some a'.
Proof.
  intros Hok Ht'. destruct (wsListeners s !! t) as [a|] eqn:Ht.
  - by rewrite (on_bound _ _ _ _ Ht).
  - rewrite (on_unbound _ _ _ Ht). simpl.
    rewrite lookup_insert_ne; [done | congruence].
Qed.

Lemma app_once x l h : once x l -> x <> h -> once x (l ++ [h]).
Proof.
  intros Hx Hne i j Hi Hj.
  apply lookup_app_Some in Hi as [Hi | [_ Hi]];
    [| apply list_lookup_singleton_Some in Hi as [_ ?]; congruence].
  apply lookup_app_Some in Hj as [Hj | [_ Hj]];
    [| apply list_lookup_singleton_Some in Hj as [_ ?]; congruence].
  by apply Hx.
Qed.

Lemma app_once_new l h : h ∉ l -> once h (l ++ [h]).
Proof.
  intros Hnin i j Hi Hj.
  apply lookup_app_Some in Hi as [Hi | [Hi1 Hi]];
    [by apply list_elem_of_lookup_2 in Hi|].
  apply lookup_app_Some in Hj as [Hj | [Hj1 Hj]];
    [by apply list_elem_of_lookup_2 in Hj|].
  apply list_lookup_singleton_Some in Hi as [Hi _].
  apply list_lookup_singleton_Some in Hj as [Hj _]. lia.
Qed.

(** Subscribing an application listener, or a closure of an issued request
    to its own event, when that closure is not subscribed yet and agrees
    with the timer of its request. *)
Lemma on_registry_ok t h s :
  registry_ok s ->
  (owner h = None \/
   exists req, owner h = Some req /\ (req < nextRequest s)%nat /\
     event_of h = Some t /\ ~ subscribed h s /\
     (forall p, timers s !! req = Some p -> pending_of h = Some p)) ->
  registry_ok (on t h s).
Proof.
  intros Hok Hh. pose proof Hok as [Hb Ha Ho Ht].
  destruct (on_fields t h s) as (Etim & Eprom & Ereq & Ecalls).
  assert (Hnext : (nextArray s <= nextArray (on t h s))%nat).
  { unfold on. destruct (wsListeners s !! t); simpl; lia. }
  split.
  - intros t' a'. unfold on. destruct (wsListeners s !! t) as [a|] eqn:Hbt; simpl.
    + apply Hb.
    + rewrite lookup_insert. case_decide; [intros [= <-]; lia|].
      intros ?%Hb. lia.
  - intros a' l' [[Hbt _] | [(Hbt & -> & _) | (Hl' & _)]]%on_arrays_inv.
    + apply Hb in Hbt. lia.
    + rewrite (on_unbound _ _ _ Hbt). simpl. lia.
    + apply Ha in Hl'. lia.
  - intros a' l' x req Hl' Hx Hown. rewrite Ereq, Etim.
    apply on_arrays_inv in Hl'
      as [[Hbt ->] | [(Hbt & -> & ->) | (Hl' & Hnb & Hnn)]].
    + apply elem_of_app in Hx as [Hx | ->%list_elem_of_singleton].
      * destruct (array_elem _ _ _ Hx) as (l & Hl & Hxl).
        rewrite (array_Some _ _ _ Hl).
        destruct (Ho _ _ _ _ Hl Hxl Hown) as (Hr & (t' & Hev & Hbd) & Hon & Htm).
        split; [done|].
        split; [exists t'; split; [done | by apply on_bound_keep]|].
        split; [|done]. apply app_once; [done|]. intros ->.
        destruct Hh as [Hnone | (req0 & _ & _ & _ & Hns & _)]; [congruence|].
        apply Hns. by exists a', l.
      * destruct Hh as [Hnone | (req0 & Hown0 & Hlt & Hev & Hns & Htm)];
          [congruence|].
        assert (req0 = req) as -> by congruence.
        split; [done|].
        split; [exists t; split; [done | by apply on_bound_keep]|].
        split; [|done]. apply app_once_new. intros Hin.
        apply array_elem in Hin as (l & Hl & Hin). apply Hns. by exists a', l.
    + apply list_elem_of_singleton in Hx as ->.
      destruct Hh as [Hnone | (req0 & Hown0 & Hlt & Hev & Hns & Htm)];
        [congruence|].
      assert (req0 = req) as -> by congruence.
      split; [done|]. split.
      * exists t. split; [done|]. rewrite (on_unbound _ _ _ Hbt). simpl.
        apply lookup_insert_eq.
      * split; [|done]. intros i j Hi Hj.
        apply list_lookup_singleton_Some in Hi as [-> _].
        by apply list_lookup_singleton_Some in Hj as [-> _].
    + destruct (Ho _ _ _ _ Hl' Hx Hown) as (Hr & (t' & Hev & Hbd) & Hon & Htm).
      split; [done|].
      split; [exists t'; split; [done | by apply on_bound_keep]|]. done.
  - intros req p. rewrite Etim, Ereq. apply Ht.
Qed.

(** *** Calling listeners *)

Lemma log_call_registry_ok h x s : registry_ok s -> registry_ok (log_call h x s).
Proof. intros [Hb Ha Ho Ht]. by split. Qed.

Lemma log_sent_registry_ok f s : registry_ok s -> registry_ok (log_sent f s).
Proof. intros [Hb Ha Ho Ht]. by split. Qed.

Lemma settle_registry_ok req o s : registry_ok s -> registry_ok (settle req o s).
Proof.
  intros [Hb Ha Ho Ht]. unfold settle. by destruct (promises s !! req).
Qed.

Lemma clearTimeout_registry_ok req s : registry_ok s -> registry_ok (clearTimeout req s).
Proof.
  intros [Hb Ha Ho Ht]. split; simpl; try done.
  - intros a l h r Hl Hh Hown.
    destruct (Ho _ _ _ _ Hl Hh Hown) as (Hr & Hev & Hon & Htm).
    repeat split; try done. intros p Hp. apply Htm.
    rewrite lookup_delete in Hp. by case_decide.
  - intros r p Hp. rewrite lookup_delete in Hp. case_decide; [done|].
    by eapply Ht.
Qed.

Lemma call_registry_ok h x s : registry_ok s -> registry_ok (call h x s).
Proof.
  intros Hok. destruct h; simpl; repeat case_bool_decide;
    repeat first [ apply settle_registry_ok | apply off_registry_ok
                 | apply clearTimeout_registry_ok | apply log_call_registry_ok ];
    done.
Qed.

(** Finishing a request: its timer goes and its promise settles. *)
Lemma finish_request_ok r req o s s1 :
  request_ok r s ->
  timers s1 = delete req (timers s) -> promises s1 = promises s ->
  request_ok r (settle req o s1).
Proof.
  intros Hok Etim Eprom.
  destruct (settle_fields req o s1) as (Et & _).
  unfold request_ok. rewrite Et, Etim.
  destruct (decide (r = req)) as [-> | Hne].
  - left. apply settle_is_Some.
  - rewrite settle_other, Eprom by done. by rewrite lookup_delete_ne.
Qed.

Ltac off_fields_simpl :=
  repeat match goal with
         | |- context [timers (off ?t ?h ?s)] =>
             rewrite (proj1 (off_fields t h s))
         | |- context [promises (off ?t ?h ?s)] =>
             rewrite (proj1 (proj2 (off_fields t h s)))
         | |- context [nextRequest (off ?t ?h ?s)] =>
             rewrite (proj1 (proj2 (proj2 (off_fields t h s))))
         | |- context [calls (off ?t ?h ?s)] =>
             rewrite (proj1 (proj2 (proj2 (proj2 (off_fields t h s)))))
         end.

Lemma call_request_ok r h x s : request_ok r s -> request_ok r (call h x s).
Proof.
  intros Hok. destruct h; simpl; repeat case_bool_decide; try done;
    apply (finish_request_ok _ _ _ s); try done; by off_fields_simpl.
Qed.

Lemma call_keeps h x s : keeps_outcomes s (call h x s).
Proof.
  destruct h; simpl; repeat case_bool_decide;
    first [ by apply keeps_eq
          | (eapply keeps_trans; [|apply settle_keeps]);
            apply keeps_eq; by off_fields_simpl ].
Qed.

(** *** A request that is over stays over *)

Lemma undisturbed_refl req s : quiet req s -> undisturbed req s s.
Proof. by split. Qed.

Lemma undisturbed_trans req s1 s2 s3 :
  undisturbed req s1 s2 -> (quiet req s2 -> undisturbed req s2 s3) ->
  undisturbed req s1 s3.
Proof.
  intros (Hq & Hp & Hc) H23. destruct (H23 Hq) as (Hq' & Hp' & Hc').
  split; [done|]. split; congruence.
Qed.

Lemma log_call_undisturbed req h x s :
  owner h <> Some req -> quiet req s -> undisturbed req s (log_call h x s).
Proof.
  intros Hne Hq. split; [done|]. split; [done|].
  unfold calls_of. simpl. rewrite filter_app, filter_cons_False by done.
  by rewrite filter_nil, app_nil_r.
Qed.

Lemma clearTimeout_undisturbed req r s :
  quiet req s -> undisturbed req s (clearTimeout r s).
Proof.
  intros (Hr & Ht & Ha). split; [|done]. split; [done|]. split; [|done].
  simpl. rewrite lookup_delete. by case_decide.
Qed.

Lemma off_undisturbed req t h s :
  quiet req s -> undisturbed req s (off t h s).
Proof.
  intros (Hr & Ht & Ha).
  destruct (off_fields t h s) as (Etim & Eprom & Ereq & Ecalls & _).
  unfold undisturbed, quiet, calls_of. rewrite Etim, Eprom, Ereq, Ecalls.
  repeat split; try done. by apply off_absent.
Qed.

Lemma on_undisturbed req t h s :
  owner h <> Some req -> quiet req s -> undisturbed req s (on t h s).
Proof.
  intros Hne (Hr & Ht & Ha).
  destruct (on_fields t h s) as (Etim & Eprom & Ereq & Ecalls).
  unfold undisturbed, quiet, calls_of. rewrite Etim, Eprom, Ereq, Ecalls.
  repeat split; try done. by apply on_absent.
Qed.

Lemma settle_undisturbed req r o s :
  r <> req -> quiet req s -> undisturbed req s (settle r o s).
Proof.
  intros Hne (Hr & Ht & Ha).
  destruct (settle_fields r o s) as (Etim & Earr & _ & Ereq & Ecalls & _).
  unfold undisturbed, quiet, calls_of, absent, subscribed.
  rewrite Etim, Earr, Ereq, Ecalls, settle_other by done. done.
Qed.

Ltac undisturbed_chain :=
  repeat first
    [ (eapply undisturbed_trans;
       [| intros ?; first [ by apply settle_undisturbed; congruence
                          | by apply off_undisturbed
                          | by apply on_undisturbed; simpl; congruence
                          | by apply clearTimeout_undisturbed ]])
    | by apply log_call_undisturbed
    | by apply undisturbed_refl ].

Lemma call_undisturbed req h x s :
  quiet req s -> subscribed h s -> undisturbed req s (call h x s).
Proof.
  intros Hq Hsub. pose proof Hq as (_ & _ & Habs).
  pose proof (Habs h Hsub) as Hne.
  destruct h as [n | r addr | r to' | r to']; simpl in *;
    repeat case_bool_decide; undisturbed_chain.
Qed.

(** *** Dispatch calls subscribed listeners only *)

Section Preserved.
Context (P : Client -> Prop).
Hypothesis call_preserves : forall s h x, P s -> subscribed h s -> P (call h x s).

Lemma forEach_from_preserves a x n k s : P s -> P (forEach_from a x k n s).
Proof.
  revert k s. induction n as [|n IH]; intros k s Hs; simpl; [done|].
  apply IH. destruct (array a s !! k) as [h|] eqn:Hk; [|done].
  apply call_preserves; [done|].
  apply list_elem_of_lookup_2, array_elem in Hk as (l & Hl & Hh).
  by exists a, l.
Qed.

Lemma notify_preserves t x s : P s -> P (notify t x s).
Proof.
  intros Hs. unfold notify. destruct (wsListeners s !! t); [|done].
  by apply forEach_from_preserves.
Qed.

Lemma handleWebSocketMessage_preserves message s :
  P s -> P (handleWebSocketMessage message s).
Proof.
  intros Hs. unfold handleWebSocketMessage.
  repeat first [ apply notify_preserves | case_match ]; done.
Qed.

Lemma on_message_preserves raw s : P s -> P (on_message raw s).
Proof.
  intros Hs. destruct raw; [|done]. by apply handleWebSocketMessage_preserves.
Qed.
End Preserved.

(** *** Issuing a request *)

Lemma armed_registry_ok p s : registry_ok s -> registry_ok (armed p s).
Proof.
  intros [Hb Ha Ho Ht]. split; simpl; try done.
  - intros a l h r Hl Hh Hown.
    destruct (Ho _ _ _ _ Hl Hh Hown) as (Hr & Hev & Hon & Htm).
    split; [lia|]. split; [done|]. split; [done|].
    intros p'. rewrite lookup_insert_ne by lia. apply Htm.
  - intros r p'. rewrite lookup_insert. case_decide; [lia|].
    intros ?%Ht. lia.
Qed.

Lemma armed_fresh p s h :
  registry_ok s -> owner h = Some (nextRequest s) -> ~ subscribed h (armed p s).
Proof.
  intros [Hb Ha Ho Ht] Hown (a & l & Hl & Hh). simpl in Hl.
  destruct (Ho _ _ _ _ Hl Hh Hown) as (Hr & _). lia.
Qed.

Lemma new_request_registry_ok s : registry_ok s -> registry_ok (new_request s).
Proof.
  intros [Hb Ha Ho Ht]. split; simpl; try done.
  - intros a l h r Hl Hh Hown.
    destruct (Ho _ _ _ _ Hl Hh Hown) as (Hr & Hev & Hon & Htm).
    split; [lia | done].
  - intros r p' ?%Ht. lia.
Qed.

Lemma send_registry_ok req f t s : registry_ok s -> registry_ok (send req f t s).
Proof.
  intros Hok. destruct t; simpl;
    first [ by apply settle_registry_ok | by apply log_sent_registry_ok ].
Qed.

Lemma send_fields req f t s :
  timers (send req f t s) = timers s /\
  nextRequest (send req f t s) = nextRequest s /\
  keeps_outcomes s (send req f t s).
Proof.
  destruct t; simpl;
    try (destruct (settle_fields req (Rejected TransportError) s)
           as (-> & _ & _ & -> & _); repeat split; apply settle_keeps).
  repeat split. by apply keeps_eq.
Qed.

Lemma registerAddress_unfold address t s :
  registerAddress address t s =
    match t with
    | Stalled => new_request s
    | Unreachable => settle (nextRequest s) (Rejected TransportError) (new_request s)
    | _ => send (nextRequest s) (register_frame address) t
             (on (js "registered") (RegisteredHandler (nextRequest s) address)
                (armed (PendingRegister address) s))
    end.
Proof. by destruct t. Qed.

Lemma sendMessage_unfold from to text t s :
  sendMessage from to text t s =
    match t with
    | Stalled => new_request s
    | Unreachable => settle (nextRequest s) (Rejected TransportError) (new_request s)
    | _ => send (nextRequest s) (message_frame from to text) t
             (on (js "messageError") (ErrorHandler (nextRequest s) to)
                (on (js "messageSent") (SuccessHandler (nextRequest s) to)
                   (armed (PendingSend to) s)))
    end.
Proof. by destruct t. Qed.

Lemma registerAddress_registry_ok address t s :
  registry_ok s -> registry_ok (registerAddress address t s).
Proof.
  intros Hok. rewrite registerAddress_unfold.
  assert (registry_ok
            (on (js "registered") (RegisteredHandler (nextRequest s) address)
               (armed (PendingRegister address) s))) as Hon.
  { apply on_registry_ok; [by apply armed_registry_ok|]. right.
    exists (nextRequest s). split; [done|]. split; [simpl; lia|].
    split; [done|]. split; [by apply armed_fresh|].
    simpl. rewrite lookup_insert_eq. by intros p [= <-]. }
  destruct t;
    [by apply settle_registry_ok, new_request_registry_ok | | |
     by apply new_request_registry_ok];
    by apply send_registry_ok.
Qed.

Lemma sendMessage_registry_ok from to text t s :
  registry_ok s -> registry_ok (sendMessage from to text t s).
Proof.
  intros Hok. rewrite sendMessage_unfold.
  assert (registry_ok
            (on (js "messageSent") (SuccessHandler (nextRequest s) to)
               (armed (PendingSend to) s))) as Hon1.
  { apply on_registry_ok; [by apply armed_registry_ok|]. right.
    exists (nextRequest s). split; [done|]. split; [simpl; lia|].
    split; [done|]. split; [by apply armed_fresh|].
    simpl. rewrite lookup_insert_eq. by intros p [= <-]. }
  assert (registry_ok
            (on (js "messageError") (ErrorHandler (nextRequest s) to)
               (on (js "messageSent") (SuccessHandler (nextRequest s) to)
                  (armed (PendingSend to) s)))) as Hon2.
  { apply on_registry_ok; [done|]. right.
    exists (nextRequest s). split; [done|].
    destruct (on_fields (js "messageSent") (SuccessHandler (nextRequest s) to)
                (armed (PendingSend to) s)) as (Etim & _ & Ereq & _).
    rewrite Ereq, Etim. split; [simpl; lia|]. split; [done|]. split.
    - intros [? | Hsub]%on_subscribed; [done|]. revert Hsub. by apply armed_fresh.
    - simpl. rewrite lookup_insert_eq. by intros p [= <-]. }
  destruct t;
    [by apply settle_registry_ok, new_request_registry_ok | | |
     by apply new_request_registry_ok];
    by apply send_registry_ok.
Qed.

(** A call keeps the timers that are armed. *)
Lemma send_timers req f t s : timers (send req f t s) = timers s.
Proof. apply send_fields. Qed.

Lemma registerAddress_timers r address t s :
  is_Some (timers s !! r) -> is_Some (timers (registerAddress address t s) !! r).
Proof.
  intros Hr. rewrite registerAddress_unfold. destruct t;
    rewrite ?send_timers, ?(proj1 (on_fields _ _ _)),
      ?(proj1 (settle_fields _ _ _)); simpl; try done;
    rewrite lookup_insert; by case_decide.
Qed.

Lemma sendMessage_timers r from to text t s :
  is_Some (timers s !! r) -> is_Some (timers (sendMessage from to text t s) !! r).
Proof.
  intros Hr. rewrite sendMessage_unfold. destruct t;
    rewrite ?send_timers, ?(proj1 (on_fields _ _ _)),
      ?(proj1 (settle_fields _ _ _)); simpl; try done;
    rewrite lookup_insert; by case_decide.
Qed.

Lemma new_request_undisturbed req s :
  quiet req s -> undisturbed req s (new_request s).
Proof.
  intros (Hr & Ht & Ha). split; [|done]. split; [simpl; lia | done].
Qed.

Lemma armed_undisturbed req p s :
  quiet req s -> undisturbed req s (armed p s).
Proof.
  intros (Hr & Ht & Ha). split; [|done]. split; [simpl; lia|]. split; [|done].
  simpl. rewrite lookup_insert_ne by lia. done.
Qed.

Lemma send_undisturbed req r f t s :
  r <> req -> quiet req s -> undisturbed req s (send r f t s).
Proof.
  intros Hne Hq. destruct t; simpl; try by apply settle_undisturbed.
  by split.
Qed.

Lemma registerAddress_undisturbed req address t s :
  quiet req s -> undisturbed req s (registerAddress address t s).
Proof.
  intros Hq. pose proof Hq as (Hr & _). rewrite registerAddress_unfold.
  destruct t.
  - eapply undisturbed_trans; [by apply new_request_undisturbed|].
    intros ?. apply settle_undisturbed; [lia | done].
  - eapply undisturbed_trans; [|intros ?; apply send_undisturbed; [lia | done]].
    eapply undisturbed_trans; [by apply (armed_undisturbed req)|].
    intros ?. apply on_undisturbed; [simpl; intros [= ?]; lia | done].
  - eapply undisturbed_trans; [|intros ?; apply send_undisturbed; [lia | done]].
    eapply undisturbed_trans; [by apply (armed_undisturbed req)|].
    intros ?. apply on_undisturbed; [simpl; intros [= ?]; lia | done].
  - by apply new_request_undisturbed.
Qed.

Lemma sendMessage_undisturbed req from to text t s :
  quiet req s -> undisturbed req s (sendMessage from to text t s).
Proof.
  intros Hq. pose proof Hq as (Hr & _). rewrite sendMessage_unfold.
  destruct t.
  - eapply undisturbed_trans; [by apply new_request_undisturbed|].
    intros ?. apply settle_undisturbed; [lia | done].
  - eapply undisturbed_trans; [|intros ?; apply send_undisturbed; [lia | done]].
    eapply undisturbed_trans;
      [|intros ?; apply on_undisturbed; [simpl; intros [= ?]; lia | done]].
    eapply undisturbed_trans; [by apply (armed_undisturbed req)|].
    intros ?. apply on_undisturbed; [simpl; intros [= ?]; lia | done].
  - eapply undisturbed_trans; [|intros ?; apply send_undisturbed; [lia | done]].
    eapply undisturbed_trans;
      [|intros ?; apply on_undisturbed; [simpl; intros [= ?]; lia | done]].
    eapply undisturbed_trans; [by apply (armed_undisturbed req)|].
    intros ?. apply on_undisturbed; [simpl; intros [= ?]; lia | done].
  - by apply new_request_undisturbed.
Qed.

Lemma issue_keeps s s1 s' :
  promises s1 = promises s -> keeps_outcomes s1 s' -> keeps_outcomes s s'.
Proof. intros Eprom Hk r o Hr. apply Hk. by rewrite Eprom. Qed.

Lemma registerAddress_keeps address t s :
  keeps_outcomes s (registerAddress address t s).
Proof.
  rewrite registerAddress_unfold. destruct t.
  - eapply issue_keeps; [|apply settle_keeps]. done.
  - eapply issue_keeps; [|apply send_fields].
    by rewrite (proj1 (proj2 (on_fields _ _ _))).
  - eapply issue_keeps; [|apply send_fields].
    by rewrite (proj1 (proj2 (on_fields _ _ _))).
  - by apply keeps_eq.
Qed.

Lemma sendMessage_keeps from to text t s :
  keeps_outcomes s (sendMessage from to text t s).
Proof.
  rewrite sendMessage_unfold. destruct t.
  - eapply issue_keeps; [|apply settle_keeps]. done.
  - eapply issue_keeps; [|apply send_fields].
    by rewrite !(proj1 (proj2 (on_fields _ _ _))).
  - eapply issue_keeps; [|apply send_fields].
    by rewrite !(proj1 (proj2 (on_fields _ _ _))).
  - by apply keeps_eq.
Qed.

(** The requests of before are as they were; the call that gets past
    [ensureConnected] has its outcome or its deadline armed. *)
Lemma registerAddress_request_ok r address t s :
  request_ok r s -> request_ok r (registerAddress address t s).
Proof.
  intros [[o Ho] | Hr]; [left; exists o; by apply registerAddress_keeps|].
  right. by apply registerAddress_timers.
Qed.

Lemma sendMessage_request_ok r from to text t s :
  request_ok r s -> request_ok r (sendMessage from to text t s).
Proof.
  intros [[o Ho] | Hr]; [left; exists o; by apply sendMessage_keeps|].
  right. by apply sendMessage_timers.
Qed.

Lemma registerAddress_issued address t s :
  t <> Stalled ->
  nextRequest (registerAddress address t s) = S (nextRequest s) /\
  request_ok (nextRequest s) (registerAddress address t s).
Proof.
  intros Ht. rewrite registerAddress_unfold. destruct t; [| | |done].
  - rewrite (proj1 (proj2 (proj2 (proj2 (settle_fields _ _ _))))).
    split; [done|]. left. apply settle_is_Some.
  - destruct (send_fields (nextRequest s) (register_frame address) SendThrows
                (on (js "registered") (RegisteredHandler (nextRequest s) address)
                   (armed (PendingRegister address) s))) as (Et & En & _).
    rewrite En. unfold request_ok. rewrite Et.
    destruct (on_fields (js "registered") (RegisteredHandler (nextRequest s) address)
                (armed (PendingRegister address) s)) as (-> & _ & -> & _).
    split; [done|]. right. simpl. by rewrite lookup_insert_eq.
  - destruct (send_fields (nextRequest s) (register_frame address) Sent
                (on (js "registered") (RegisteredHandler (nextRequest s) address)
                   (armed (PendingRegister address) s))) as (Et & En & _).
    rewrite En. unfold request_ok. rewrite Et.
    destruct (on_fields (js "registered") (RegisteredHandler (nextRequest s) address)
                (armed (PendingRegister address) s)) as (-> & _ & -> & _).
    split; [done|]. right. simpl. by rewrite lookup_insert_eq.
Qed.

Lemma sendMessage_issued from to text t s :
  t <> Stalled ->
  nextRequest (sendMessage from to text t s) = S (nextRequest s) /\
  request_ok (nextRequest s) (sendMessage from to text t s).
Proof.
  intros Ht. rewrite sendMessage_unfold. destruct t; [| | |done].
  - rewrite (proj1 (proj2 (proj2 (proj2 (settle_fields _ _ _))))).
    split; [done|]. left. apply settle_is_Some.
  - match goal with |- context [send ?r ?f ?t ?s1] =>
      destruct (send_fields r f t s1) as (Et & En & _) end.
    rewrite En. unfold request_ok. rewrite Et.
    rewrite !(proj1 (on_fields _ _ _)),
      !(proj1 (proj2 (proj2 (on_fields _ _ _)))).
    split; [done|]. right. simpl. by rewrite lookup_insert_eq.
  - match goal with |- context [send ?r ?f ?t ?s1] =>
      destruct (send_fields r f t s1) as (Et & En & _) end.
    rewrite En. unfold request_ok. rewrite Et.
    rewrite !(proj1 (on_fields _ _ _)),
      !(proj1 (proj2 (proj2 (on_fields _ _ _)))).
    split; [done|]. right. simpl. by rewrite lookup_insert_eq.
Qed.

(** *** The deadline *)

Lemma deadline_registry_ok req s : registry_ok s -> registry_ok (deadline req s).
Proof.
  intros Hok. unfold deadline. destruct (timers s !! req) as [[addr | to']|];
    repeat first [ apply settle_registry_ok | apply off_registry_ok
                 | apply clearTimeout_registry_ok ]; done.
Qed.

Lemma deadline_request_ok r req s : request_ok r s -> request_ok r (deadline req s).
Proof.
  intros Hok. unfold deadline. destruct (timers s !! req) as [[addr | to']|];
    try done; apply (finish_request_ok _ _ _ s); try done; by off_fields_simpl.
Qed.

Lemma deadline_keeps req s : keeps_outcomes s (deadline req s).
Proof.
  unfold deadline. destruct (timers s !! req) as [[addr | to']|];
    first [ apply keeps_refl
          | (eapply keeps_trans; [|apply settle_keeps]);
            apply keeps_eq; by off_fields_simpl ].
Qed.

Lemma deadline_undisturbed req r s :
  quiet req s -> undisturbed req s (deadline r s).
Proof.
  intros Hq. unfold deadline.
  destruct (timers s !! r) as [p|] eqn:Hp; [|by apply undisturbed_refl].
  assert (r <> req) by (destruct Hq as (_ & Ht & _); congruence).
  destruct p; undisturbed_chain.
Qed.

(** When the deadline of a request fires, the request is over: its
    closures are out of every array, and its promise is settled, with the
    timeout if nothing settled it before. *)
Lemma deadline_quiet req p s :
  registry_ok s -> timers s !! req = Some p ->
  quiet req (deadline req s) /\
  is_Some (promises (deadline req s) !! req) /\
  (promises s !! req = None ->
   promises (deadline req s) !! req = Some (Rejected (timeout_of p))).
Proof.
  intros Hok Hp. pose proof Hok as [Hb Ha Ho Ht].
  assert (Hlt : (req < nextRequest s)%nat) by by eapply Ht.
  assert (Hkind : forall h, subscribed h s -> owner h = Some req ->
                            pending_of h = Some p).
  { intros h (a & l & Hl & Hh) Hown.
    by destruct (Ho _ _ _ _ Hl Hh Hown) as (_ & _ & _ & Htm); apply Htm. }
  pose proof (clearTimeout_registry_ok req s Hok) as Hok1.
  unfold deadline. rewrite Hp. destruct p as [addr | to'].
  - destruct (off_fields (js "registered") (RegisteredHandler req addr)
                (clearTimeout req s)) as (Etim2 & Eprom2 & Ereq2 & _).
    set (s2 := off _ _ (clearTimeout req s)) in *.
    destruct (settle_fields req (Rejected RegistrationTimeout) s2)
      as (Etim & Earr & _ & Ereq & _).
    split; [|split].
    + split; [by rewrite Ereq, Ereq2|]. split.
      * rewrite Etim, Etim2. simpl. apply lookup_delete_eq.
      * intros h (a & l & Hl & Hh) Hown. rewrite Earr in Hl.
        assert (Hsub2 : subscribed h s2) by by exists a, l.
        pose proof (off_subscribed _ _ _ _ Hsub2) as Hsub.
        specialize (Hkind h Hsub Hown).
        destruct h; simpl in *; try done.
        injection Hown as ->. injection Hkind as ->.
        revert Hsub2. by apply (off_removes _ _ _ req).
    + apply settle_is_Some.
    + intros Hnone. rewrite settle_promises, Eprom2. simpl. rewrite Hnone.
      by rewrite bool_decide_eq_true_2.
  - pose proof (off_registry_ok (js "messageSent") (SuccessHandler req to')
                  _ Hok1) as Hok2.
    destruct (off_fields (js "messageSent") (SuccessHandler req to')
                (clearTimeout req s)) as (Etim2 & Eprom2 & Ereq2 & _).
    set (s2 := off (js "messageSent") _ (clearTimeout req s)) in *.
    destruct (off_fields (js "messageError") (ErrorHandler req to') s2)
      as (Etim3 & Eprom3 & Ereq3 & _).
    set (s3 := off (js "messageError") _ s2) in *.
    destruct (settle_fields req (Rejected SendTimeout) s3)
      as (Etim & Earr & _ & Ereq & _).
    split; [|split].
    + split; [by rewrite Ereq, Ereq3, Ereq2|]. split.
      * rewrite Etim, Etim3, Etim2. simpl. apply lookup_delete_eq.
      * intros h (a & l & Hl & Hh) Hown. rewrite Earr in Hl.
        assert (Hsub3 : subscribed h s3) by by exists a, l.
        pose proof (off_subscribed _ _ _ _ Hsub3) as Hsub2.
        pose proof (off_subscribed _ _ _ _ Hsub2) as Hsub.
        specialize (Hkind h Hsub Hown).
        destruct h; simpl in *; try done;
          injection Hown as ->; injection Hkind as ->.
        -- revert Hsub2. by apply (off_removes _ _ _ req).
        -- revert Hsub3. by apply (off_removes _ _ _ req).
    + apply settle_is_Some.
    + intros Hnone. rewrite settle_promises, Eprom3, Eprom2. simpl.
      rewrite Hnone. by rewrite bool_decide_eq_true_2.
Qed.

(** *** Turns of the event loop *)

Lemma step_registry_ok s e : registry_ok s -> registry_ok (step s e).
Proof.
  intros Hok. destruct e; simpl.
  - by apply registerAddress_registry_ok.
  - by apply sendMessage_registry_ok.
  - apply on_message_preserves; [|done]. intros. by apply call_registry_ok.
  - by apply deadline_registry_ok.
  - apply on_registry_ok; [done | by left].
  - by apply off_registry_ok.
Qed.

Lemma step_request_ok r s e : request_ok r s -> request_ok r (step s e).
Proof.
  intros Hok. destruct e; simpl.
  - by apply registerAddress_request_ok.
  - by apply sendMessage_request_ok.
  - apply (on_message_preserves (request_ok r)); [|done].
    intros. by apply call_request_ok.
  - by apply deadline_request_ok.
  - unfold request_ok.
    by destruct (on_fields eventType (External h) s) as (-> & -> & _).
  - unfold request_ok.
    by destruct (off_fields eventType (External h) s) as (-> & -> & _).
Qed.

Lemma step_keeps s e : keeps_outcomes s (step s e).
Proof.
  destruct e; simpl.
  - apply registerAddress_keeps.
  - apply sendMessage_keeps.
  - apply (on_message_preserves (keeps_outcomes s)); [|apply keeps_refl].
    intros s' h x Hs' _. eapply keeps_trans; [exact Hs' | apply call_keeps].
  - apply deadline_keeps.
  - apply keeps_eq. by destruct (on_fields eventType (External h) s) as (_ & -> & _).
  - apply keeps_eq. by destruct (off_fields eventType (External h) s) as (_ & -> & _).
Qed.

Lemma step_undisturbed req s e : quiet req s -> undisturbed req s (step s e).
Proof.
  intros Hq. destruct e; simpl.
  - by apply registerAddress_undisturbed.
  - by apply sendMessage_undisturbed.
  - apply (on_message_preserves (undisturbed req s)); [|by apply undisturbed_refl].
    intros s' h x Hs' Hsub. eapply undisturbed_trans; [exact Hs'|].
    intros Hq'. by apply call_undisturbed.
  - by apply deadline_undisturbed.
  - by apply on_undisturbed.
  - by apply off_undisturbed.
Qed.

Lemma initial_ok : registry_ok initial.
Proof. by split. Qed.

Lemma run_ok evs s : registry_ok s -> registry_ok (run evs s).
Proof.
  revert s. induction evs as [|e evs IH]; intros s Hreg; simpl; [done|].
  by apply IH, step_registry_ok.
Qed.

Lemma run_request_ok r evs s : request_ok r s -> request_ok r (run evs s).
Proof.
  revert s. induction evs as [|e evs IH]; intros s Hok; simpl; [done|].
  by apply IH, step_request_ok.
Qed.

(** A call that gets past [ensureConnected] is issued. *)
Lemma call_issued_ok call t s :
  transport_of call = Some t -> t <> Stalled ->
  nextRequest (step s call) = S (nextRequest s) /\
  request_ok (nextRequest s) (step s call).
Proof.
  intros Hcall Ht. destruct call; simpl in *; try done;
    injection Hcall as ->.
  - by apply registerAddress_issued.
  - by apply sendMessage_issued.
Qed.

Lemma run_keeps evs s : keeps_outcomes s (run evs s).
Proof.
  revert s. induction evs as [|e evs IH]; intros s; simpl; [apply keeps_refl|].
  eapply keeps_trans; [apply step_keeps | apply IH].
Qed.

Lemma run_undisturbed req evs s : quiet req s -> undisturbed req s (run evs s).
Proof.
  revert s. induction evs as [|e evs IH]; intros s Hq; simpl;
    [by apply undisturbed_refl|].
  eapply undisturbed_trans; [by apply step_undisturbed | apply IH].
Qed.

End Correlator.

(** *** A send that gets past [ensureConnected] *)

(** X31: a call of [registerAddress] or [sendMessage] that gets past
    [ensureConnected], which returned or threw, takes the next request
    number and has one outcome: in every state reached afterwards the
    outcome is delivered or the deadline is still armed, and the firing of
    the deadline delivers one; an outcome delivered is never replaced.
    When the deadline fires, the caller gets the timeout unless an outcome
    came first, the closures of the request are unsubscribed, and whatever
    arrives later calls none of them and leaves the outcome as it is. *)
Theorem awaitable_send_settles_once
    (evs evs' : list ServerClient.Event) (call : ServerClient.Event)
    (t : ServerClient.Transport) :
  let s := ServerClient.run evs ServerClient.initial in
  let req := ServerClient.nextRequest s in
  let s1 := ServerClient.step s call in
  let s2 := ServerClient.run evs' s1 in
  transport_of call = Some t -> t <> ServerClient.Stalled ->
  ServerClient.nextRequest s1 = S req /\
  request_ok req s2 /\
  is_Some (ServerClient.promises
             (ServerClient.step s2 (ServerClient.Deadline req)) !! req) /\
  (forall o evs'',
     ServerClient.promises s2 !! req = Some o ->
     ServerClient.promises (ServerClient.run evs'' s2) !! req = Some o) /\
  (forall p, ServerClient.timers s2 !! req = Some p ->
     let s3 := ServerClient.step s2 (ServerClient.Deadline req) in
     (ServerClient.promises s2 !! req = None ->
      ServerClient.promises s3 !! req
        = Some (ServerClient.Rejected (timeout_of p))) /\
     forall evs'',
       let s4 := ServerClient.run evs'' s3 in
       absent req s4 /\
       ServerClient.promises s4 !! req = ServerClient.promises s3 !! req /\
       calls_of req s4 = calls_of req s3).
Proof.
  intros s req s1 s2 Hcall Ht.
  destruct (call_issued_ok call t s Hcall Ht) as [Hnext Hok1].
  fold req s1 in Hnext, Hok1.
  pose proof (run_request_ok req evs' s1 Hok1) as Hok. fold s2 in Hok.
  assert (Hreg : registry_ok s2)
    by (apply run_ok, step_registry_ok, run_ok, initial_ok).
  split; [done|]. split; [done|]. split; [|split].
  - simpl. destruct Hok as [[o Ho] | [p Hp]].
    + exists o. by apply deadline_keeps.
    + by destruct (deadline_quiet req p s2 Hreg Hp) as (_ & ? & _).
  - intros o evs'' Ho. by apply run_keeps.
  - intros p Hp s3.
    destruct (deadline_quiet req p s2 Hreg Hp) as (Hq & _ & Hto).
    split; [exact Hto|]. intros evs'' s4.
    destruct (run_undisturbed req evs'' s3 Hq) as ((_ & _ & Habs) & Hprom & Hcalls).
    done.
Qed.

Lemma awaitable_send_settles_once_witness :
  let s1 := ServerClient.step ServerClient.initial
              (ServerClient.RegisterAddress (js "A") ServerClient.Sent) in
  let s3 := ServerClient.step s1 (ServerClient.Deadline 0) in
  ServerClient.nextRequest s1 = 1%nat /\
  ServerClient.promises s3 !! 0%nat
    = Some (ServerClient.Rejected ServerClient.RegistrationTimeout) /\
  forall evs'',
    absent 0 (ServerClient.run evs'' s3) /\
    ServerClient.promises (ServerClient.run evs'' s3) !! 0%nat
      = ServerClient.promises s3 !! 0%nat /\
    calls_of 0 (ServerClient.run evs'' s3) = calls_of 0 s3.
Proof.
  intros s1 s3.
  destruct (awaitable_send_settles_once [] []
              (ServerClient.RegisterAddress (js "A") ServerClient.Sent)
              ServerClient.Sent eq_refl)
    as (Hnext & _ & _ & _ & Hdeadline).
  - discriminate.
  - split; [exact Hnext|].
    destruct (Hdeadline (ServerClient.PendingRegister (js "A")))
      as [Htimeout Hlater].
    + vm_compute. reflexivity.
    + split; [|exact Hlater]. apply Htimeout. vm_compute. reflexivity.
Defined.

(** The scenario of the specification: no reply before the deadline, then
    a matching reply; the reply calls nothing and the timeout stands. *)
Example late_reply_has_no_effect :
  let reply :=
    {| ServerClient.type := Some (js "registered");
       ServerClient.data :=
         Some {| ServerClient.data_address := Some (js "A");
                 ServerClient.data_from := None; ServerClient.data_to := None;
                 ServerClient.data_text := None; ServerClient.data_error := None;
                 ServerClient.data_timestamp := None |};
       ServerClient.top := ServerClient.empty_object |} in
  let s := ServerClient.run
             [ServerClient.RegisterAddress (js "A") ServerClient.Sent;
              ServerClient.Deadline 0;
              ServerClient.Inbound (Some reply)]
             ServerClient.initial in
  ServerClient.calls s = [] /\
  ServerClient.promises s !! 0%nat
    = Some (ServerClient.Rejected ServerClient.RegistrationTimeout) /\
  ServerClient.wsListeners s = ∅.
Proof. vm_compute. done. Qed.

(** ** Concurrent connection requests *)

Section Concurrent.
Import Connection.

Lemma close_length c s : length (sockets (close c s)) = length (sockets s).
Proof.
  unfold close. destruct (readyState c s) as [[]|]; simpl;
    by rewrite ?length_insert.
Qed.

Lemma close_fields c s :
  wsConnection (close c s) = wsConnection s /\
  connecting (close c s) = connecting s /\
  connectPromises (close c s) = connectPromises s /\
  callers (close c s) = callers s.
Proof. unfold close. by destruct (readyState c s) as [[]|]. Qed.

(** Every call of [connectWebSocket] opens a physical connection. *)
Lemma connectWebSocket_attempts s :
  attempts (connectWebSocket s).2 = S (attempts s) /\
  (connectWebSocket s).1 = attempts s.
Proof.
  unfold connectWebSocket, attempts.
  destruct (wsConnection s) as [c|]; simpl;
    rewrite ?length_app, ?close_length; simpl; split; lia.
Qed.

(** What [connectWebSocket] leaves: the new socket is current and
    connecting; the flag, the settled promises and the callers are as
    before. *)
Lemma connectWebSocket_spec s :
  let s' := (connectWebSocket s).2 in
  let k := attempts s in
  wsConnection s' = Some k /\ readyState k s' = Some CONNECTING /\
  connecting s' = connecting s /\ connectPromises s' = connectPromises s /\
  callers s' = callers s.
Proof.
  unfold connectWebSocket, attempts, readyState.
  destruct (wsConnection s) as [c|]; simpl.
  - destruct (close_fields c s) as (_ & -> & -> & ->).
    rewrite close_length. split; [done|]. split; [|done].
    rewrite <- (close_length c s). apply list_lookup_middle. done.
  - split; [done|]. split; [|done]. by apply list_lookup_middle.
Qed.

(** *** Sockets that exist *)

Lemma resolve_fields j s :
  sockets (resolve j s) = sockets s /\ setupTimers (resolve j s) = setupTimers s /\
  wsConnection (resolve j s) = wsConnection s /\
  connecting (resolve j s) = connecting s.
Proof. unfold resolve. by destruct (connectPromises s !! j). Qed.

Lemma reject_fields j s :
  sockets (reject j s) = sockets s /\ setupTimers (reject j s) = setupTimers s /\
  wsConnection (reject j s) = wsConnection s.
Proof.
  unfold reject. destruct (connectPromises s !! j); [done|].
  by case_bool_decide.
Qed.

Lemma resolve_promises j s i :
  is_Some (connectPromises (resolve j s) !! i) ->
  i = j \/ is_Some (connectPromises s !! i).
Proof.
  unfold resolve. destruct (connectPromises s !! j) eqn:Hj; [by right|].
  simpl. rewrite lookup_insert. case_decide; [by left | by right].
Qed.

Lemma reject_promises j s i :
  is_Some (connectPromises (reject j s) !! i) ->
  i = j \/ is_Some (connectPromises s !! i).
Proof.
  unfold reject. destruct (connectPromises s !! j) eqn:Hj; [by right|].
  case_bool_decide; simpl; rewrite lookup_insert;
    (case_decide; [by left | by right]).
Qed.

Lemma session_ok_intro s s' :
  session_ok s -> (attempts s <= attempts s')%nat ->
  (forall j, j ∈ setupTimers s' -> j ∈ setupTimers s \/ (j < attempts s')%nat) ->
  (forall j, is_Some (connectPromises s' !! j) ->
             is_Some (connectPromises s !! j) \/ (j < attempts s')%nat) ->
  session_ok s'.
Proof.
  intros [Ht Hp] Hle Ht' Hp'. split.
  - intros j [Hj | Hj]%Ht'; [apply Ht in Hj; lia | done].
  - intros j [Hj | Hj]%Hp'; [apply Hp in Hj; lia | done].
Qed.

Lemma connectWebSocket_session_ok s :
  session_ok s -> session_ok (connectWebSocket s).2.
Proof.
  intros Hok. destruct (connectWebSocket_attempts s) as [Hatt _].
  destruct (connectWebSocket_spec s) as (_ & _ & _ & Hprom & _).
  apply (session_ok_intro s); [done | lia | |].
  - rewrite Hatt. unfold connectWebSocket.
    destruct (wsConnection s) as [c|]; simpl; intros j;
      rewrite elem_of_union, elem_of_singleton, ?close_length;
      unfold close; try destruct (readyState c s) as [[]|]; simpl;
      intros [-> | Hj]; try (right; unfold attempts; lia); by left.
  - intros j. rewrite Hprom. by left.
Qed.

(** A listener of socket [j] opens nothing, starts no timer and settles
    no promise but that of [j]. *)
Lemma session_ok_local j s s' :
  session_ok s -> (j < attempts s)%nat -> attempts s' = attempts s ->
  (forall i, i ∈ setupTimers s' -> i ∈ setupTimers s) ->
  (forall i, is_Some (connectPromises s' !! i) ->
             i = j \/ is_Some (connectPromises s !! i)) ->
  session_ok s'.
Proof.
  intros Hok Hj Hatt Ht Hp. apply (session_ok_intro s); [done | lia | |].
  - intros i ?%Ht. by left.
  - intros i [-> | ?]%Hp; [right; lia | by left].
Qed.

Lemma close_session c s :
  attempts (close c s) = attempts s /\
  setupTimers (close c s) = setupTimers s /\
  connectPromises (close c s) = connectPromises s.
Proof.
  unfold close, attempts. destruct (readyState c s) as [[]|]; simpl;
    by rewrite ?length_insert.
Qed.

Lemma on_open_local j s :
  attempts (on_open j s) = attempts s /\
  (forall i, i ∈ setupTimers (on_open j s) -> i ∈ setupTimers s) /\
  (forall i, is_Some (connectPromises (on_open j s) !! i) ->
             i = j \/ is_Some (connectPromises s !! i)).
Proof.
  unfold on_open.
  match goal with |- context [resolve j ?s1] =>
    destruct (resolve_fields j s1) as (Hs & Ht & _);
    pose proof (resolve_promises j s1) as Hp; set (s2 := resolve j s1) in *
  end.
  unfold attempts. rewrite Hs, Ht. split; [|split].
  - by destruct (is_open _).
  - intros i. destruct (is_open _); simpl; by intros [? _]%elem_of_difference.
  - intros i [-> | Hi]%Hp; [by left|]. right. by destruct (is_open _).
Qed.

Lemma on_error_local j s :
  attempts (on_error j s) = attempts s /\
  (forall i, i ∈ setupTimers (on_error j s) -> i ∈ setupTimers s) /\
  (forall i, is_Some (connectPromises (on_error j s) !! i) ->
             i = j \/ is_Some (connectPromises s !! i)).
Proof.
  unfold on_error. destruct (is_not_open _).
  - match goal with |- context [reject j ?s1] =>
      destruct (reject_fields j s1) as (Hs & Ht & _);
      pose proof (reject_promises j s1) as Hp; set (s2 := reject j s1) in *
    end.
    unfold attempts. rewrite Hs, Ht. split; [done|]. split.
    + intros i. simpl. by intros [? _]%elem_of_difference.
    + intros i [-> | Hi]%Hp; [by left | by right].
  - split; [done|]. split; [|by right].
    intros i. simpl. by intros [? _]%elem_of_difference.
Qed.

Lemma on_close_local j s :
  attempts (on_close j s) = attempts s /\
  (forall i, i ∈ setupTimers (on_close j s) -> i ∈ setupTimers s) /\
  (forall i, is_Some (connectPromises (on_close j s) !! i) ->
             i = j \/ is_Some (connectPromises s !! i)).
Proof.
  unfold on_close. destruct (_ && _); simpl;
    (split; [done|]; split;
     [intros i; by intros [? _]%elem_of_difference | by right]).
Qed.

Lemma on_timeout_local j s :
  attempts (on_timeout j s) = attempts s /\
  (forall i, i ∈ setupTimers (on_timeout j s) -> i ∈ setupTimers s) /\
  (forall i, is_Some (connectPromises (on_timeout j s) !! i) ->
             i = j \/ is_Some (connectPromises s !! i)).
Proof.
  unfold on_timeout. destruct (is_not_open s); [|by repeat split; [|right]].
  simpl. destruct (wsConnection s) as [c|]; simpl.
  - destruct (close_session c (set_connecting false s)) as (Ha & Hts & Hps).
    match goal with |- context [reject j ?s1] =>
      destruct (reject_fields j s1) as (Hs & Ht & _);
      pose proof (reject_promises j s1) as Hp
    end.
    unfold attempts in *. simpl in *. rewrite Hs, Ht, Ha, Hts.
    split; [done|]. split; [done|].
    intros i [-> | Hi]%Hp; [by left|]. right. by rewrite Hps in Hi.
  - match goal with |- context [reject j ?s1] =>
      destruct (reject_fields j s1) as (Hs & Ht & _);
      pose proof (reject_promises j s1) as Hp
    end.
    unfold attempts in *. simpl in *. rewrite Hs, Ht.
    split; [done|]. split; [done|].
    intros i [-> | Hi]%Hp; [by left | by right].
Qed.

Lemma try_connect_eq s :
  try_connect s =
    if connecting s then (Returned, s)
    else (Awaiting (attempts s), (connectWebSocket (set_connecting true s)).2).
Proof.
  unfold try_connect. destruct (connecting s); simpl; [done|].
  f_equal. f_equal.
  apply (proj2 (connectWebSocket_attempts (set_connecting true s))).
Qed.

Lemma try_connect_session_ok s : session_ok s -> session_ok (try_connect s).2.
Proof.
  intros Hok. rewrite try_connect_eq. destruct (connecting s); [done|].
  by apply (connectWebSocket_session_ok (set_connecting true s)).
Qed.

Lemma after_loop_session_ok s : session_ok s -> session_ok (after_loop s).2.
Proof.
  intros Hok. unfold after_loop. apply try_connect_session_ok.
  by destruct (is_open s).
Qed.

Lemma set_callers_session_ok l s : session_ok s -> session_ok (set_callers l s).
Proof. done. Qed.

Lemma ensureConnected_start_session_ok s :
  session_ok s -> session_ok (ensureConnected_start s).2.
Proof.
  intros Hok. unfold ensureConnected_start. destruct (is_open s); [done|].
  destruct (connecting s) eqn:Hc; [done|]. by apply try_connect_session_ok.
Qed.

Lemma ensureConnected_poll_session_ok i s :
  session_ok s -> session_ok (ensureConnected_poll i s).2.
Proof.
  intros Hok. unfold ensureConnected_poll. destruct (is_open s); [done|].
  destruct (negb (connecting s)); [by apply after_loop_session_ok|].
  destruct (S i <? 20)%nat; [done | by apply after_loop_session_ok].
Qed.

Lemma step_session_ok s e : session_ok s -> session_ok (step s e).
Proof.
  intros Hok. pose proof Hok as [Htimers Hproms]. destruct e; simpl.
  - pose proof (ensureConnected_start_session_ok s Hok) as Hs.
    by destruct (ensureConnected_start s) as [c s'].
  - by apply connectWebSocket_session_ok.
  - destruct (callers s !! caller) as [[i | | |]|]; try done.
    pose proof (ensureConnected_poll_session_ok i s Hok) as Hs.
    by destruct (ensureConnected_poll i s) as [c s'].
  - destruct (readyState socket s) as [st|] eqn:Hst; [|done].
    assert (socket < attempts s)%nat by by eapply lookup_lt_Some.
    destruct st; try done.
    destruct (on_open_local socket (set_sockets (<[socket := OPEN]> (sockets s)) s))
      as (Ha & Ht & Hp).
    apply (session_ok_local socket s); try done.
    rewrite Ha. unfold attempts. simpl. by rewrite length_insert.
  - destruct (readyState socket s) as [st|] eqn:Hst; [|done].
    assert (socket < attempts s)%nat by by eapply lookup_lt_Some.
    destruct (on_error_local socket
                (set_sockets (<[socket := CLOSING]> (sockets s)) s))
      as (Ha & Ht & Hp).
    destruct st; try done; apply (session_ok_local socket s); try done;
      rewrite Ha; unfold attempts; simpl; by rewrite length_insert.
  - destruct (readyState socket s) as [st|] eqn:Hst; [|done].
    assert (socket < attempts s)%nat by by eapply lookup_lt_Some.
    destruct (on_close_local socket
                (set_sockets (<[socket := CLOSED]> (sockets s)) s))
      as (Ha & Ht & Hp).
    destruct st; try done; apply (session_ok_local socket s); try done;
      rewrite Ha; unfold attempts; simpl; by rewrite length_insert.
  - case_bool_decide as Hin; [|done].
    destruct (on_timeout_local socket (clearTimeout socket s)) as (Ha & Ht & Hp).
    apply (session_ok_local socket s); try done; [by apply Htimers|].
    intros i Hi%Ht. simpl in Hi. by apply elem_of_difference in Hi as [? _].
  - destruct (reconnectTimers s) as [|n]; [done|]. unfold on_reconnect.
    destruct (match wsConnection _ with Some _ => _ | None => _ end); [|done].
    by apply connectWebSocket_session_ok.
  - unfold closeWebSocket. simpl. destruct (wsConnection s) as [c|]; [|done].
    destruct (close_session c (set_pingInterval false s)) as (Ha & Ht & Hp).
    apply (session_ok_intro s); simpl; [done | | |].
    + unfold attempts in *. simpl in *. lia.
    + intros j. rewrite Ht. by left.
    + intros j. rewrite Hp. by left.
Qed.

Lemma run_session_ok evs s : session_ok s -> session_ok (run evs s).
Proof.
  revert s. induction evs as [|e evs IH]; intros s Hok; simpl; [done|].
  by apply IH, step_session_ok.
Qed.

Lemma initial_session_ok tty : session_ok (initial tty).
Proof.
  split; simpl.
  - intros j Hj. by apply elem_of_empty in Hj.
  - intros j [b Hb]. by rewrite lookup_empty in Hb.
Qed.

(** *** An attempt in flight *)

Section Flight.
Import Connection.

Lemma in_flight_not_open k c1 s : in_flight k c1 s -> is_open s = false.
Proof.
  intros [_ Hcur Hst _ _ _ _]. unfold is_open. rewrite Hcur, Hst.
  by apply bool_decide_eq_false_2.
Qed.

Lemma connectWebSocket_timer s : attempts s ∈ setupTimers (connectWebSocket s).2.
Proof.
  unfold connectWebSocket, attempts.
  destruct (wsConnection s) as [c|]; cbn; rewrite ?close_length;
    apply elem_of_union_l, elem_of_singleton; done.
Qed.

(** With no connection open and the flag down, a request opens socket
    [attempts s] and awaits it. *)
Lemma first_request_in_flight s :
  session_ok s -> connecting s = false -> is_open s = false ->
  in_flight (attempts s) (length (callers s)) (step s EnsureConnected) /\
  callers (step s EnsureConnected) = callers s ++ [Awaiting (attempts s)].
Proof.
  intros [_ Hp] Hc Ho.
  destruct (connectWebSocket_spec (set_connecting true s))
    as (Hcur & Hst & Hflag & Hprom & Hcall).
  destruct (connectWebSocket_attempts (set_connecting true s)) as [Hatt _].
  pose proof (connectWebSocket_timer (set_connecting true s)) as Htim.
  change (attempts (set_connecting true s)) with (attempts s) in *.
  change (connecting (set_connecting true s)) with true in Hflag.
  change (connectPromises (set_connecting true s)) with (connectPromises s) in Hprom.
  change (callers (set_connecting true s)) with (callers s) in Hcall.
  assert (Hfirst : step s EnsureConnected =
            set_callers (callers s ++ [Awaiting (attempts s)])
              (connectWebSocket (set_connecting true s)).2).
  { cbn [step]. unfold ensureConnected_start. rewrite Ho, Hc, try_connect_eq, Hc.
    by rewrite Hcall. }
  rewrite Hfirst. split; [|done].
  split; cbn [set_callers attempts sockets wsConnection connecting
              connectPromises setupTimers callers]; try done.
  - rewrite Hprom. destruct (connectPromises s !! attempts s) eqn:E; [|done].
    assert (attempts s < attempts s)%nat by (apply Hp; by rewrite E). lia.
  - by apply list_lookup_middle.
Qed.

(** While the attempt is in flight, a request, a turn of a wait loop
    before the twentieth and a reconnection timer open nothing; the
    requests in their wait loops stay there, the one that takes a turn a
    turn further. *)
Lemma patient_step k c1 s e :
  in_flight k c1 s -> patient_event s e = true ->
  in_flight k c1 (step s e) /\
  (forall c i, callers s !! c = Some (Polling i) ->
     callers (step s e) !! c
       = Some (Polling (if bool_decide (e = Poll c) then S i else i))).
Proof.
  intros Hfl He. pose proof (in_flight_not_open _ _ _ Hfl) as Ho.
  destruct Hfl as [Hatt Hcur Hst Hflag Hprom Htim Hc1].
  destruct e; try discriminate; cbn [step patient_event] in *.
  - unfold ensureConnected_start. rewrite Ho, Hflag. split.
    + split; cbn; try done.
      apply lookup_app_l_Some. done.
    + intros c i Hc. rewrite bool_decide_eq_false_2 by done.
      cbn. by apply lookup_app_l_Some.
  - destruct (callers s !! caller) as [[i | j | |]|] eqn:Hcaller.
    + unfold ensureConnected_poll. rewrite Ho, Hflag, He. cbn [negb]. split.
      * split; cbn; try done.
        rewrite list_lookup_insert_ne; [done|]. intros ->. congruence.
      * intros c i' Hc. cbn. destruct (decide (caller = c)) as [-> | Hne].
        -- rewrite bool_decide_eq_true_2 by done.
           rewrite list_lookup_insert_eq by (by eapply lookup_lt_Some).
           congruence.
        -- rewrite bool_decide_eq_false_2 by congruence.
           by rewrite list_lookup_insert_ne.
    + split; [done|]. intros c i Hc.
      rewrite bool_decide_eq_false_2; [done|]. intros [= ->]. congruence.
    + split; [done|]. intros c i Hc.
      rewrite bool_decide_eq_false_2; [done|]. intros [= ->]. congruence.
    + split; [done|]. intros c i Hc.
      rewrite bool_decide_eq_false_2; [done|]. intros [= ->]. congruence.
    + split; [done|]. intros c i Hc.
      rewrite bool_decide_eq_false_2; [done|]. intros [= ->]. congruence.
  - assert (Hsame : forall n, on_reconnect (set_reconnectTimers n s)
                              = set_reconnectTimers n s).
    { intros n. unfold on_reconnect. cbn [wsConnection set_reconnectTimers].
      rewrite Hcur.
      change (readyState k (set_reconnectTimers n s)) with (readyState k s).
      rewrite Hst. by rewrite bool_decide_eq_false_2. }
    destruct (reconnectTimers s) as [|n]; [|rewrite Hsame];
      (split; [done|]; intros c i Hc; by rewrite bool_decide_eq_false_2).
Qed.

Lemma turns_cons c e evs :
  turns c (e :: evs) = ((if bool_decide (e = Poll c) then 1 else 0) + turns c evs)%nat.
Proof.
  unfold turns. rewrite filter_cons. case_decide.
  - by rewrite bool_decide_eq_true_2.
  - by rewrite bool_decide_eq_false_2.
Qed.

Lemma patient_run k c1 evs s :
  in_flight k c1 s -> patient s evs = true ->
  in_flight k c1 (run evs s) /\
  (forall c i, callers s !! c = Some (Polling i) ->
     callers (run evs s) !! c = Some (Polling (i + turns c evs))).
Proof.
  revert s. induction evs as [|e evs IH]; intros s Hfl Hp.
  - split; [done|]. intros c i Hc. cbn. by rewrite Nat.add_0_r.
  - cbn [patient] in Hp. apply andb_prop in Hp as [He Hp].
    destruct (patient_step k c1 s e Hfl He) as [Hfl' Hpoll].
    destruct (IH (step s e) Hfl' Hp) as [Hfl'' Hpoll'].
    split; [done|]. intros c i Hc. cbn [run foldl]. fold (run evs (step s e)).
    rewrite (Hpoll' c _ (Hpoll c i Hc)), turns_cons. f_equal. f_equal.
    case_bool_decide; lia.
Qed.




End Flight.

End Concurrent.




(** The wait of the second request is bounded: its twentieth turn opens a
    connection of its own, closing the socket still being set up. *)
Example twentieth_poll_reconnects :
  let s :=
    Connection.run
      ([Connection.EnsureConnected; Connection.EnsureConnected]
       ++ replicate 20 (Connection.Poll 1))
      (Connection.initial true) in
  Connection.sockets s = [Connection.CLOSING; Connection.CONNECTING] /\
  Connection.callers s = [Connection.Awaiting 0; Connection.Awaiting 1].
Proof. vm_compute. done. Qed.

(** A socket that was replaced and has not closed yet undoes the guard:
    after a direct [connectWebSocket], the first request replaces the
    socket that is connecting; the [error] and [close] events of the
    replaced socket clear the flag and drop the connection, and the second
    request, at its first turn, opens a third socket while the second is
    still connecting. *)
Example replaced_socket_opens_another :
  let s0 := Connection.run [Connection.ConnectWebSocket] (Connection.initial true) in
  let s :=
    Connection.run
      [Connection.EnsureConnected; Connection.EnsureConnected;
       Connection.Error 0; Connection.Close 0; Connection.Poll 1] s0 in
  Connection.connecting s0 = false /\ Connection.is_open s0 = false /\
  Connection.sockets s
    = [Connection.CLOSED; Connection.CONNECTING; Connection.CONNECTING] /\
  Connection.callers s = [Connection.Awaiting 1; Connection.Awaiting 2].
Proof. vm_compute. done. Qed.

(** * The message store, beyond the specification *)

(** ** The file name of a dialog *)

Section FileName.

Lemma sanitize_word s : forallb word_char (sanitize s) = true.
Proof.
  unfold sanitize. induction s as [|c s IH]; simpl; [done|].
  rewrite IH, andb_true_r. by destruct (word_char c) eqn:Hc.
Qed.

Lemma forallb_take {A} (p : A -> bool) n l :
  forallb p l = true -> forallb p (take n l) = true.
Proof.
  revert n. induction l as [|x l IH]; intros [|n]; simpl; try done.
  intros [-> Hl]%andb_prop. by apply IH.
Qed.

Lemma dialogFile_safe a0 a1 :
  exists dialogId,
    dialogFile a0 a1 = dialogId ++ js ".json" /\
    (0 < length dialogId <= 200)%nat /\
    forallb word_char dialogId = true.
Proof.
  unfold dialogFile.
  assert (Hlen : (0 < length (sanitize (a0 ++ underscore :: a1)))%nat).
  { unfold sanitize. rewrite length_map, length_app. simpl. lia. }
  destruct (Nat.ltb_spec 200 (length (sanitize (a0 ++ underscore :: a1)))).
  - eexists; split; [done|]. split.
    + rewrite length_take. lia.
    + apply forallb_take, sanitize_word.
  - eexists; split; [done|]. split; [lia | apply sanitize_word].
Qed.

End FileName.

(** X1: whatever the two addresses hold, the file name of their dialog is
    an identifier of 1 to 200 code units of [[a-zA-Z0-9_]], followed by
    [.json]: no path separator, no dot segment. *)
Theorem getDialogPath_file_name (address1 address2 : jsstring) :
  exists dialogId,
    getDialogPath address1 address2 = dialogId ++ js ".json" /\
    (0 < length dialogId <= 200)%nat /\
    forallb word_char dialogId = true.
Proof. apply dialogFile_safe. Qed.

(** ** Documents under their own key *)

Section Invariant.
Context (I : World -> Prop).

Lemma exec_bind {A B} (m : M A) (f : A -> M B) w :
  exec (m ≫= f) w =
    match m w with
    | (Ok a, w') => exec (f a) w'
    | (Throw _, w') => w'
    end.
Proof. unfold exec, mbind, M_bind. by destruct (m w) as [[a|e] w']. Qed.

(** An invariant of both halves of a bind is one of the bind, however it
    ends. *)
Lemma bind_keeps {A B} (m : M A) (f : A -> M B) :
  (forall w, I w -> I (exec m w)) ->
  (forall a w, I w -> I (exec (f a) w)) ->
  forall w, I w -> I (exec (m ≫= f) w).
Proof.
  intros Hm Hf w Hw. rewrite exec_bind.
  specialize (Hm w Hw). unfold exec in Hm.
  destruct (m w) as [[a|e] w']; simpl in Hm; [by apply Hf | done].
Qed.

End Invariant.

Section Keys.

Lemma well_keyed_dir w w' :
  dialogsDir w' = dialogsDir w -> well_keyed w -> well_keyed w'.
Proof. unfold well_keyed, dialog_lookup. by intros ->. Qed.

Lemma Date_now_keyed w : well_keyed w -> well_keyed (exec Date_now w).
Proof. by apply well_keyed_dir. Qed.

Lemma saveDialog_keyed d w : well_keyed w -> well_keyed (exec (saveDialog d) w).
Proof.
  intros Hw. unfold saveDialog, exec, mbind, M_bind, Date_now, writeFile_dialog.
  cbn [dialogsDir fst snd]. destruct (dialogsDir w) as [dir|] eqn:Hdir.
  - cbn [snd mret M_ret]. intros name d'. unfold dialog_lookup. cbn [dialogsDir set_dialogsDir].
    rewrite lookup_insert. case_decide as Hname.
    + intros [= <-]. done.
    + intros Hd. apply Hw. unfold dialog_lookup. by rewrite Hdir.
  - cbn [snd]. eapply well_keyed_dir; [|exact Hw]. done.
Qed.

Lemma getDialog_keyed a b w : well_keyed w -> well_keyed (exec (getDialog a b) w).
Proof.
  unfold getDialog. apply bind_keeps; [done|]. intros [|].
  - apply bind_keeps.
    + intros w1 Hw1. unfold exec, readFile_dialog. by destruct (dialog_lookup _ w1).
    + intros [d| |] w1 Hw1; done.
  - apply bind_keeps; [apply Date_now_keyed|]. intros created.
    apply bind_keeps; [apply Date_now_keyed|]. intros updated.
    apply saveDialog_keyed.
Qed.

Lemma update_contact_keyed addr c w :
  well_keyed w -> well_keyed (exec (update_contact addr c) w).
Proof.
  unfold update_contact. destruct (find _ c).
  - apply bind_keeps; [apply Date_now_keyed | done].
  - apply bind_keeps; [apply Date_now_keyed|]. intros ?.
    apply bind_keeps; [apply Date_now_keyed | done].
Qed.

Lemma updateContacts_keyed a b w :
  well_keyed w -> well_keyed (exec (updateContacts a b) w).
Proof.
  unfold updateContacts. apply bind_keeps.
  - intros w1 Hw1. unfold exec, read_contacts.
    by destruct (contactsFile w1) as [[| |]|].
  - intros c. apply bind_keeps; [apply update_contact_keyed|]. intros c1.
    apply bind_keeps; [apply update_contact_keyed|]. intros c2 w1 Hw1.
    unfold exec, writeFile_contacts. by destruct (storageDir w1).
Qed.

Lemma addMessage_keyed sender recipient body ts w :
  well_keyed w -> well_keyed (exec (addMessage sender recipient body ts) w).
Proof.
  unfold addMessage. apply bind_keeps.
  { destruct ts; [done | apply Date_now_keyed]. }
  intros t. apply bind_keeps; [apply getDialog_keyed|]. intros d.
  apply bind_keeps; [done|]. intros suffix.
  apply bind_keeps; [apply saveDialog_keyed|]. intros d'.
  apply bind_keeps; [apply updateContacts_keyed | done].
Qed.

Lemma getMessages_keyed a b limit w :
  well_keyed w -> well_keyed (exec (getMessages a b limit) w).
Proof.
  unfold getMessages. apply bind_keeps; [apply getDialog_keyed | done].
Qed.

Lemma markAsRead_keyed a b r w :
  well_keyed w -> well_keyed (exec (markAsRead a b r) w).
Proof.
  unfold markAsRead. apply bind_keeps; [apply getDialog_keyed|]. intros d.
  destruct (existsb _ _); [|done].
  apply bind_keeps; [apply saveDialog_keyed | done].
Qed.

Lemma init_keyed w : well_keyed w -> well_keyed (exec init w).
Proof.
  unfold well_keyed, dialog_lookup, init, exec; simpl.
  destruct (dialogsDir w); simpl; [done|]. intros _ name d. by rewrite lookup_empty.
Qed.

End Keys.

(** X3: in a store where every dialog document sits under the key of its
    own participants, every method leaves it so, whether it returns or
    throws: [saveDialog] writes a document back where [getDialog] found
    it. *)
Theorem well_keyed_preserved (w : World) :
  well_keyed w ->
  well_keyed (exec init w) /\
  (forall a b, well_keyed (exec (getDialog a b) w)) /\
  (forall d, well_keyed (exec (saveDialog d) w)) /\
  (forall sender recipient body ts,
     well_keyed (exec (addMessage sender recipient body ts) w)) /\
  (forall a b limit, well_keyed (exec (getMessages a b limit) w)) /\
  (forall a b r, well_keyed (exec (markAsRead a b r) w)) /\
  (forall a b, well_keyed (exec (updateContacts a b) w)).
Proof.
  intros Hw. repeat split; intros.
  - by apply init_keyed.
  - by apply getDialog_keyed.
  - by apply saveDialog_keyed.
  - by apply addMessage_keyed.
  - by apply getMessages_keyed.
  - by apply markAsRead_keyed.
  - by apply updateContacts_keyed.
Qed.

Lemma well_keyed_preserved_witness :
  well_keyed (exec (addMessage (js "A") (js "B") (js "hi") (Some 1000))
                (exec init blank)).
Proof.
  refine (proj1 (proj2 (proj2 (proj2
            (well_keyed_preserved (exec init blank) _)))) _ _ _ _).
  intros name d H. vm_compute in H. discriminate.
Defined.

(** ** Appending a message *)

Section Appending.

Lemma dialog_lookup_dir name w w' :
  dialogsDir w' = dialogsDir w -> dialog_lookup name w' = dialog_lookup name w.
Proof. unfold dialog_lookup. by intros ->. Qed.

Lemma stored_messages_dir a b w w' :
  dialogsDir w' = dialogsDir w -> stored_messages a b w' = stored_messages a b w.
Proof. unfold stored_messages. by intros ->%(dialog_lookup_dir (getDialogPath a b)). Qed.

(** What a successful [saveDialog] writes, and where. *)
Lemma saveDialog_inv d w d' w' :
  saveDialog d w = (Ok d', w') ->
  participants d' = participants d /\ messages d' = messages d /\
  dialog_lookup (getDialogPath_of (participants d)) w' = Some (DialogJson d') /\
  (forall name, name <> getDialogPath_of (participants d) ->
     dialog_lookup name w' = dialog_lookup name w) /\
  contactsFile w' = contactsFile w.
Proof.
  unfold saveDialog, mbind, M_bind, Date_now, writeFile_dialog, dialog_lookup, mret, M_ret.
  cbn [dialogsDir fst snd]. destruct (dialogsDir w) as [dir|]; [|done].
  intros [= <- <-]. cbn. repeat split.
  - apply lookup_insert_eq.
  - intros name Hne. by apply lookup_insert_ne.
Qed.

(** A successful [getDialog] read the document of the pair, or found none
    and wrote a new one. *)
Lemma getDialog_inv a b w d w' :
  getDialog a b w = (Ok d, w') ->
  (dialog_lookup (getDialogPath a b) w = Some (DialogJson d) /\ w' = w) \/
  (dialog_lookup (getDialogPath a b) w = None /\
   participants d = new_participants a b /\ messages d = [] /\
   dialog_lookup (getDialogPath a b) w' = Some (DialogJson d) /\
   (forall name, name <> getDialogPath a b ->
      dialog_lookup name w' = dialog_lookup name w) /\
   contactsFile w' = contactsFile w).
Proof.
  destruct (dialog_lookup (getDialogPath a b) w) as [f|] eqn:Hf.
  - unfold getDialog, mbind, M_bind, existsSync_dialog, readFile_dialog.
    rewrite Hf. rewrite bool_decide_eq_true_2 by eauto. rewrite Hf.
    destruct f; try done. intros [= <- <-]. by left.
  - unfold dialog_lookup in Hf. destruct (dialogsDir w) as [dir|] eqn:Hdir.
    + rewrite (getDialog_absent a b w dir Hdir Hf). intros [= <- <-]. right.
      unfold dialog_lookup. cbn. rewrite Hdir. repeat split.
      * apply lookup_insert_eq.
      * intros name Hne. by apply lookup_insert_ne.
    + unfold getDialog, mbind, M_bind, existsSync_dialog, dialog_lookup.
      rewrite Hdir. rewrite bool_decide_eq_false_2 by (by intros [? ?]).
      unfold saveDialog, mbind, M_bind, Date_now, writeFile_dialog.
      cbn. by rewrite Hdir.
Qed.

(** In a store with documents under their keys, the dialog that
    [getDialog] returns holds the stored messages of the pair, is the
    document of the pair afterwards, and will be saved under the same key. *)
Lemma getDialog_stored a b w d w' :
  well_keyed w -> getDialog a b w = (Ok d, w') ->
  messages d = stored_messages a b w /\
  getDialogPath_of (participants d) = getDialogPath a b /\
  dialog_lookup (getDialogPath a b) w' = Some (DialogJson d) /\
  (forall name, name <> getDialogPath a b ->
     dialog_lookup name w' = dialog_lookup name w) /\
  contactsFile w' = contactsFile w.
Proof.
  intros Hw [[Hd ->] | (Hnone & Hp & Hm & Hd & Hother & Hc)]%getDialog_inv.
  - unfold stored_messages. rewrite Hd. repeat split; try done. by apply Hw.
  - unfold stored_messages. rewrite Hnone, Hm, Hp. repeat split; try done.
    apply new_participants_path.
Qed.

Lemma updateContacts_dialogs a b w :
  dialogsDir (exec (updateContacts a b) w) = dialogsDir w.
Proof.
  set (D := dialogsDir w).
  assert (Hnow : forall w1, dialogsDir w1 = D -> dialogsDir (exec Date_now w1) = D)
    by done.
  assert (Hupd : forall addr c w1, dialogsDir w1 = D ->
                   dialogsDir (exec (update_contact addr c) w1) = D).
  { intros addr c. unfold update_contact. destruct (find _ c).
    - apply (bind_keeps (fun w => dialogsDir w = D)); [done | done].
    - apply (bind_keeps (fun w => dialogsDir w = D)); [done|]. intros ?.
      apply (bind_keeps (fun w => dialogsDir w = D)); [done | done]. }
  revert w D Hnow Hupd. intros w D _ Hupd. unfold updateContacts.
  apply (bind_keeps (fun w => dialogsDir w = D)); [| |done].
  - intros w1 Hw1. unfold exec, read_contacts.
    by destruct (contactsFile w1) as [[| |]|].
  - intros c. apply (bind_keeps (fun w => dialogsDir w = D)); [apply Hupd|].
    intros c1. apply (bind_keeps (fun w => dialogsDir w = D)); [apply Hupd|].
    intros c2 w1 Hw1. unfold exec, writeFile_contacts. by destruct (storageDir w1).
Qed.

(** A successful [addMessage], step by step. *)
Lemma addMessage_stored sender recipient body ts w m w' :
  well_keyed w ->
  addMessage sender recipient body ts w = (Ok m, w') ->
  exists d',
    dialog_lookup (getDialogPath sender recipient) w' = Some (DialogJson d') /\
    messages d' = stored_messages sender recipient w ++ [m] /\
    (forall name, name <> getDialogPath sender recipient ->
       dialog_lookup name w' = dialog_lookup name w) /\
    m = {| id := Number_toString (default (clock w (clockReads w)) ts)
                   ++ underscore :: random w (randomReads w);
           from := sender; to := recipient; text := body;
           timestamp := default (clock w (clockReads w)) ts; read := false |}.
Proof.
  intros Hw. unfold addMessage.
  intros (t & w0 & Ht & Hrun)%bind_inv.
  assert (dialogsDir w0 = dialogsDir w /\ random w0 = random w /\
          randomReads w0 = randomReads w /\
          t = default (clock w (clockReads w)) ts) as (Hd0 & Hr0 & Hn0 & ->).
  { destruct ts; injection Ht as <- <-; done. }
  apply bind_inv in Hrun as (d & w1 & Hget & Hrun).
  assert (Hrand : random w1 = random w /\ randomReads w1 = randomReads w).
  { clear Hrun. revert Hget. unfold getDialog, mbind, M_bind, existsSync_dialog.
    destruct (bool_decide _).
    - unfold readFile_dialog. destruct (dialog_lookup _ w0) as [[| |]|]; try done.
      by intros [= _ <-].
    - unfold saveDialog, mbind, M_bind, Date_now, writeFile_dialog. cbn.
      destruct (dialogsDir w0); [|done]. intros [= _ <-]. done. }
  destruct Hrand as [Hr1 Hn1].
  apply getDialog_stored in Hget as (Hm & Hkey & Hd1 & Ho1 & _);
    [|by eapply well_keyed_dir].
  apply bind_inv in Hrun as (sfx & w2 & Hsfx & Hrun).
  injection Hsfx as <- <-.
  apply bind_inv in Hrun as (d' & w3 & Hsave & Hrun).
  apply saveDialog_inv in Hsave as (Hp' & Hm' & Hd3 & Ho3 & _).
  cbn [participants messages] in Hp', Hm', Hd3, Ho3. rewrite Hkey in Hd3, Ho3.
  apply bind_inv in Hrun as ([] & w4 & Hupd & Hret).
  injection Hret as <- <-.
  assert (Hd4 : dialogsDir w4 = dialogsDir w3).
  { pose proof (updateContacts_dialogs sender recipient w3) as H.
    unfold exec in H. by rewrite Hupd in H. }
  exists d'. split; [|split; [|split]].
  - by rewrite (dialog_lookup_dir _ _ _ Hd4).
  - rewrite Hm', Hm, (stored_messages_dir _ _ _ _ Hd0). done.
  - intros name Hne. rewrite (dialog_lookup_dir _ _ _ Hd4), (Ho3 name Hne).
    unfold dialog_lookup at 1. cbn [dialogsDir]. fold (dialog_lookup name w1).
    rewrite (Ho1 name Hne). by apply dialog_lookup_dir.
  - cbn [timestamp]. by rewrite Hr1, Hn1.
Qed.

End Appending.



(** ** Reading back *)

Section ReadBack.

Lemma getMessages_stored a b limit w d :
  dialog_lookup (getDialogPath a b) w = Some (DialogJson d) ->
  getMessages a b limit w =
    (Ok (Array_slice (- default 50 limit) (Array_sort by_timestamp (messages d))), w).
Proof.
  unfold dialog_lookup. destruct (dialogsDir w) as [dir|] eqn:Hdir; [|done].
  intros Hd. by apply (getMessages_present a b limit w dir d).
Qed.

Lemma getDialogPath_sym a b : getDialogPath a b = getDialogPath b a.
Proof. unfold getDialogPath. by rewrite (sorted_pair_comm a b). Qed.

(** A message that is not older than the stored ones sorts last. *)
Lemma sort_insert_snoc x l m :
  timestamp x <= timestamp m ->
  sort_insert by_timestamp x (l ++ [m]) = sort_insert by_timestamp x l ++ [m].
Proof.
  intros Hx. induction l as [|y l IH]; simpl.
  - unfold by_timestamp. by destruct (Z.ltb_spec (timestamp m - timestamp x) 0); [lia|].
  - destruct (by_timestamp y x <? 0); [by rewrite IH | done].
Qed.

Lemma Array_sort_snoc l m :
  (forall x, x ∈ l -> timestamp x <= timestamp m) ->
  Array_sort by_timestamp (l ++ [m]) = Array_sort by_timestamp l ++ [m].
Proof.
  induction l as [|x l IH]; intros Hl; [done|]. simpl.
  fold (Array_sort by_timestamp (l ++ [m])). fold (Array_sort by_timestamp l).
  rewrite IH by (intros y Hy; apply Hl; by right).
  apply sort_insert_snoc, Hl. by left.
Qed.

Lemma Array_slice_snoc {A} (limit : Z) (l : list A) (x : A) :
  0 < limit -> last (Array_slice (- limit) (l ++ [x])) = Some x.
Proof.
  intros Hpos. rewrite Array_slice_last by done.
  rewrite length_app. simpl.
  rewrite drop_app_le by lia. apply last_snoc.
Qed.

End ReadBack.

(** X5: after a successful [addMessage] whose timestamp is not before
    those already stored for the pair, [getMessages] with a positive limit,
    asked by either participant, ends with the new message and writes
    nothing. *)
Theorem addMessage_then_getMessages
    (sender recipient body : jsstring) (ts : option Z) (limit : Z)
    (w w' : World) (m : Message) :
  well_keyed w ->
  addMessage sender recipient body ts w = (Ok m, w') ->
  (forall x, x ∈ stored_messages sender recipient w -> timestamp x <= timestamp m) ->
  0 < limit ->
  exists l,
    getMessages sender recipient (Some limit) w' = (Ok l, w') /\
    getMessages recipient sender (Some limit) w' = (Ok l, w') /\
    last l = Some m.
Proof.
  intros Hw Hadd Hts Hpos.
  destruct (addMessage_stored _ _ _ _ _ _ _ Hw Hadd) as (d' & Hd' & Hm' & _).
  eexists. split; [|split].
  - by apply getMessages_stored.
  - apply getMessages_stored. by rewrite getDialogPath_sym.
  - rewrite Hm', Array_sort_snoc by done. cbn [default]. by apply Array_slice_snoc.
Qed.

Lemma addMessage_then_getMessages_witness :
  let w := exec init blank in
  let m := {| id := js "1000_0"; from := js "A"; to := js "B";
              text := js "hi"; timestamp := 1000; read := false |} in
  let w' := exec (addMessage (js "A") (js "B") (js "hi") (Some 1000)) w in
  exists l,
    getMessages (js "A") (js "B") (Some 10) w' = (Ok l, w') /\
    getMessages (js "B") (js "A") (Some 10) w' = (Ok l, w') /\
    last l = Some m.
Proof.
  intros w m w'.
  assert (H0 : well_keyed w)
    by (intros name d H; vm_compute in H; discriminate).
  assert (H1 : (addMessage (js "A") (js "B") (js "hi") (Some 1000) w).1 = Ok m)
    by (vm_compute; reflexivity).
  refine (addMessage_then_getMessages _ _ _ _ 10 w w' m H0 (run_exec _ _ _ H1) _ _).
  - intros x Hx. vm_compute in Hx. by apply elem_of_nil in Hx.
  - lia.
Defined.

(** ** Unread messages *)

Section Unread.

Lemma unread_app r l1 l2 : unread r (l1 ++ l2) = (unread r l1 + unread r l2)%nat.
Proof. unfold unread. by rewrite filter_app, length_app. Qed.

Lemma unread_cons r m l :
  unread r (m :: l) = ((if unread_for r m then 1 else 0) + unread r l)%nat.
Proof.
  unfold unread, unread_for. rewrite filter_cons.
  case_decide as H.
  - destruct H as [H1 H2]. by rewrite bool_decide_eq_true_2, H2.
  - case_bool_decide as H1; [|done]. destruct (read m) eqn:H2; [done|].
    by destruct H.
Qed.

(** Marking a list that holds nothing unread for the reader changes
    nothing. *)
Lemma mark_nothing r l :
  existsb (unread_for r) l = false -> map (mark r) l = l.
Proof.
  induction l as [|m l IH]; simpl; [done|].
  intros [Hm Hl]%orb_false_elim. unfold mark at 1. by rewrite Hm, IH.
Qed.

Lemma mark_read r m : unread_for r (mark r m) = false.
Proof.
  unfold mark. destruct (unread_for r m) eqn:Hm; [|done].
  unfold unread_for. simpl. apply andb_false_r.
Qed.

Lemma mark_other r x m : x <> r -> unread_for x (mark r m) = unread_for x m.
Proof.
  intros Hne. unfold mark. destruct (unread_for r m) eqn:Hm; [|done].
  unfold unread_for in *. simpl.
  apply andb_prop in Hm as [Hto%bool_decide_eq_true _].
  by rewrite !bool_decide_eq_false_2 by congruence.
Qed.

Lemma mark_content r m : content (mark r m) = content m.
Proof. unfold mark. by destruct (unread_for r m). Qed.

Lemma marked_unread r l : unread r (map (mark r) l) = 0%nat.
Proof.
  induction l as [|m l IH]; [done|]. simpl.
  by rewrite unread_cons, mark_read, IH.
Qed.

Lemma marked_unread_other r x l :
  x <> r -> unread x (map (mark r) l) = unread x l.
Proof.
  intros Hne. induction l as [|m l IH]; [done|]. simpl.
  by rewrite !unread_cons, mark_other, IH.
Qed.

Lemma marked_existsb r l : existsb (unread_for r) (map (mark r) l) = false.
Proof.
  induction l as [|m l IH]; [done|]. simpl. by rewrite mark_read, IH.
Qed.

(** A successful [markAsRead], step by step. *)
Lemma markAsRead_stored a b r w w' :
  well_keyed w ->
  markAsRead a b r w = (Ok tt, w') ->
  (exists d', dialog_lookup (getDialogPath a b) w' = Some (DialogJson d') /\
              messages d' = map (mark r) (stored_messages a b w)) /\
  (forall name, name <> getDialogPath a b ->
     dialog_lookup name w' = dialog_lookup name w) /\
  contactsFile w' = contactsFile w.
Proof.
  intros Hw. unfold markAsRead.
  intros (d & w1 & Hget & Hrun)%bind_inv.
  apply getDialog_stored in Hget as (Hm & Hkey & Hd1 & Ho1 & Hc1); [|done].
  destruct (existsb _ _) eqn:Hupd.
  - apply bind_inv in Hrun as (d' & w2 & Hsave & Hret).
    injection Hret as <-.
    apply saveDialog_inv in Hsave as (_ & Hm' & Hd2 & Ho2 & Hc2).
    cbn [participants messages] in Hm', Hd2, Ho2. rewrite Hkey in Hd2, Ho2.
    split; [|split].
    + exists d'. by rewrite Hm', Hm.
    + intros name Hne. by rewrite Ho2, Ho1.
    + congruence.
  - injection Hrun as <-. split; [|done].
    exists d. split; [done|]. by rewrite <- Hm, mark_nothing.
Qed.

End Unread.

(** X6: in a store with documents under their keys, a successful
    [markAsRead] leaves no stored message of the pair unread for the
    reader; it changes nothing but [read] flags, keeps the unread counts of
    every other address, and touches no other dialog file nor the
    contacts. *)
Theorem markAsRead_clears_unread
    (address1 address2 currentAddress : jsstring) (w w' : World) :
  well_keyed w ->
  markAsRead address1 address2 currentAddress w = (Ok tt, w') ->
  unread currentAddress (stored_messages address1 address2 w') = 0%nat /\
  map content (stored_messages address1 address2 w') =
    map content (stored_messages address1 address2 w) /\
  (forall x, x <> currentAddress ->
     unread x (stored_messages address1 address2 w') =
     unread x (stored_messages address1 address2 w)) /\
  (forall name, name <> getDialogPath address1 address2 ->
     dialog_lookup name w' = dialog_lookup name w) /\
  contactsFile w' = contactsFile w.
Proof.
  intros Hw Hmark.
  destruct (markAsRead_stored _ _ _ _ _ Hw Hmark) as ((d' & Hd' & Hm') & Ho & Hc).
  assert (Hs : stored_messages address1 address2 w' =
               map (mark currentAddress) (stored_messages address1 address2 w)).
  { unfold stored_messages at 1. by rewrite Hd'. }
  rewrite Hs. split; [|split; [|split; [|done]]].
  - apply marked_unread.
  - rewrite map_map. apply map_ext. intros m. apply mark_content.
  - intros x Hx. by apply marked_unread_other.
Qed.

Lemma markAsRead_clears_unread_witness :
  let w := one_message in
  let w' := exec (markAsRead (js "A") (js "B") (js "B")) w in
  unread (js "B") (stored_messages (js "A") (js "B") w') = 0%nat.
Proof.
  intros w w'.
  assert (H0 : well_keyed w).
  { apply addMessage_keyed. intros name d H. vm_compute in H. discriminate. }
  assert (H1 : (markAsRead (js "A") (js "B") (js "B") w).1 = Ok tt)
    by (vm_compute; reflexivity).
  exact (proj1 (markAsRead_clears_unread _ _ _ w w' H0 (run_exec _ _ _ H1))).
Defined.

(** X7: a second [markAsRead] by the same reader finds nothing to mark: it
    returns without writing, the store is left as it was. *)
Theorem markAsRead_twice_writes_nothing
    (address1 address2 currentAddress : jsstring) (w w' : World) :
  well_keyed w ->
  markAsRead address1 address2 currentAddress w = (Ok tt, w') ->
  markAsRead address1 address2 currentAddress w' = (Ok tt, w') /\
  markAsRead address2 address1 currentAddress w' = (Ok tt, w').
Proof.
  intros Hw Hmark.
  destruct (markAsRead_stored _ _ _ _ _ Hw Hmark) as ((d' & Hd' & Hm') & _).
  assert (Hget : forall a b, getDialogPath a b = getDialogPath address1 address2 ->
                   markAsRead a b currentAddress w' = (Ok tt, w')).
  { intros a b Hab. unfold markAsRead.
    assert (Hg : getDialog a b w' = (Ok d', w')).
    { unfold dialog_lookup in Hd'. destruct (dialogsDir w') as [dir|] eqn:Hdir; [|done].
      apply (getDialog_present a b w' dir d' Hdir). by rewrite Hab. }
    rewrite (bind_Ok _ _ _ _ _ Hg). by rewrite Hm', marked_existsb. }
  split; apply Hget; [done | apply getDialogPath_sym].
Qed.

Lemma markAsRead_twice_writes_nothing_witness :
  let w := one_message in
  let w' := exec (markAsRead (js "A") (js "B") (js "B")) w in
  markAsRead (js "A") (js "B") (js "B") w' = (Ok tt, w').
Proof.
  intros w w'.
  assert (H0 : well_keyed w).
  { apply addMessage_keyed. intros name d H. vm_compute in H. discriminate. }
  assert (H1 : (markAsRead (js "A") (js "B") (js "B") w).1 = Ok tt)
    by (vm_compute; reflexivity).
  exact (proj1 (markAsRead_twice_writes_nothing _ _ _ w w' H0 (run_exec _ _ _ H1))).
Defined.

(** X8: a successful [addMessage] raises the unread count of the pair's
    dialog by one for the recipient and leaves it as it was for every
    other address, the sender included unless the message is to
    oneself. *)
Theorem addMessage_unread_count
    (sender recipient body : jsstring) (ts : option Z)
    (w w' : World) (m : Message) :
  well_keyed w ->
  addMessage sender recipient body ts w = (Ok m, w') ->
  forall x,
    unread x (stored_messages sender recipient w') =
      (unread x (stored_messages sender recipient w)
       + (if bool_decide (x = recipient) then 1 else 0))%nat.
Proof.
  intros Hw Hadd x.
  destruct (addMessage_stored _ _ _ _ _ _ _ Hw Hadd) as (d' & Hd' & Hm' & _ & Hm).
  unfold stored_messages at 1. rewrite Hd', Hm', unread_app. f_equal.
  rewrite unread_cons. subst m. unfold unread_for. cbn [to read].
  rewrite (bool_decide_ext (recipient = x) (x = recipient)) by done.
  by case_bool_decide.
Qed.

Lemma addMessage_unread_count_witness :
  let w := exec init blank in
  let w' := exec (addMessage (js "A") (js "B") (js "hi") (Some 1000)) w in
  unread (js "B") (stored_messages (js "A") (js "B") w') =
    (unread (js "B") (stored_messages (js "A") (js "B") w) + 1)%nat.
Proof.
  intros w w'.
  assert (H0 : well_keyed w)
    by (intros name d H; vm_compute in H; discriminate).
  assert (H1 : (addMessage (js "A") (js "B") (js "hi") (Some 1000) w).1
               = Ok {| id := js "1000_0"; from := js "A"; to := js "B";
                       text := js "hi"; timestamp := 1000; read := false |})
    by (vm_compute; reflexivity).
  exact (addMessage_unread_count _ _ _ _ w w' _ H0 (run_exec _ _ _ H1) (js "B")).
Defined.

(** ** Listing the dialogs *)

Section Views.


End Views.


(** ** Success and failure of [addMessage] *)

Section Running.

Lemma saveDialog_runs d w :
  is_Some (dialogsDir w) ->
  exists d' w', saveDialog d w = (Ok d', w') /\
    is_Some (dialogsDir w') /\ storageDir w' = storageDir w /\
    contactsFile w' = contactsFile w.
Proof.
  intros [dir Hdir].
  unfold saveDialog, mbind, M_bind, Date_now, writeFile_dialog, mret, M_ret.
  cbn [dialogsDir fst snd]. rewrite Hdir. eexists _, _. split; [done|].
  cbn. eauto.
Qed.

Lemma getDialog_runs a b w dir :
  dialogsDir w = Some dir ->
  (dir !! getDialogPath a b = None \/
   exists d, dir !! getDialogPath a b = Some (DialogJson d)) ->
  exists d w', getDialog a b w = (Ok d, w') /\
    is_Some (dialogsDir w') /\ storageDir w' = storageDir w /\
    contactsFile w' = contactsFile w.
Proof.
  intros Hdir [Hnone | [d Hd]].
  - eexists _, _. split; [by apply getDialog_absent|]. cbn. eauto.
  - exists d, w. split; [by eapply getDialog_present|]. eauto.
Qed.

Lemma updateContacts_runs a b w :
  storageDir w = true ->
  (forall d, contactsFile w <> Some (DialogJson d)) ->
  exists w', updateContacts a b w = (Ok tt, w').
Proof.
  intros Hs Hc. unfold updateContacts.
  assert (Hread : read_contacts w = (Ok (contact_list w), w)).
  { unfold read_contacts, contact_list.
    destruct (contactsFile w) as [[d| |]|]; try done. by destruct (Hc d). }
  rewrite (bind_Ok _ _ _ _ _ Hread).
  destruct (update_contact_spec a (contact_list w) w)
    as (c1 & w1 & Hu1 & _ & Hs1 & _).
  rewrite (bind_Ok _ _ _ _ _ Hu1).
  destruct (update_contact_spec b c1 w1) as (c2 & w2 & Hu2 & _ & Hs2 & _).
  rewrite (bind_Ok _ _ _ _ _ Hu2).
  unfold writeFile_contacts. rewrite Hs2, Hs1, Hs. eauto.
Qed.

Lemma addMessage_runs sender recipient body ts w dir :
  storageDir w = true ->
  dialogsDir w = Some dir ->
  (dir !! getDialogPath sender recipient = None \/
   exists d, dir !! getDialogPath sender recipient = Some (DialogJson d)) ->
  (forall d, contactsFile w <> Some (DialogJson d)) ->
  exists m w', addMessage sender recipient body ts w = (Ok m, w').
Proof.
  intros Hs Hdir Hfile Hc. unfold addMessage.
  assert (exists t w0, (match ts with Some t => mret t | None => Date_now end) w
                       = (Ok t, w0) /\
            storageDir w0 = true /\ dialogsDir w0 = Some dir /\
            contactsFile w0 = contactsFile w) as (t & w0 & Ht & Hs0 & Hd0 & Hc0).
  { destruct ts; eexists _, _; (split; [reflexivity | done]). }
  rewrite (bind_Ok _ _ _ _ _ Ht).
  destruct (getDialog_runs sender recipient w0 dir Hd0 Hfile)
    as (d & w1 & Hget & Hd1 & Hs1 & Hc1).
  rewrite (bind_Ok _ _ _ _ _ Hget).
  unfold mbind at 1, M_bind at 1, Math_random_suffix at 1.
  match goal with
  | |- context [mbind _ (saveDialog ?x) ?y] =>
      destruct (saveDialog_runs x y Hd1) as (d' & w3 & Hsave & Hd3 & Hs3 & Hc3)
  end.
  rewrite (bind_Ok _ _ _ _ _ Hsave).
  cbn [storageDir contactsFile] in Hs3, Hc3.
  destruct (updateContacts_runs sender recipient w3) as (w4 & Hupd).
  - congruence.
  - intros x. rewrite Hc3, Hc1, Hc0. apply Hc.
  - rewrite (bind_Ok _ _ _ _ _ Hupd). eauto.
Qed.

End Running.

(** X10: on an initialised store [addMessage] returns, whether there is a
    timestamp or not, unless the file of the pair holds something else than
    a dialog; a contacts file that does not parse does not make it fail. *)
Theorem addMessage_succeeds
    (sender recipient body : jsstring) (ts : option Z)
    (w : World) (dir : gmap jsstring file) :
  storageDir w = true ->
  dialogsDir w = Some dir ->
  (dir !! getDialogPath sender recipient = None \/
   exists d, dir !! getDialogPath sender recipient = Some (DialogJson d)) ->
  (forall d, contactsFile w <> Some (DialogJson d)) ->
  exists m w', addMessage sender recipient body ts w = (Ok m, w').
Proof. apply addMessage_runs. Qed.

Lemma addMessage_succeeds_witness :
  exists m w',
    addMessage (js "A") (js "B") (js "hi") None (exec init blank) = (Ok m, w').
Proof.
  apply (addMessage_succeeds (js "A") (js "B") (js "hi") None (exec init blank) ∅).
  - reflexivity.
  - reflexivity.
  - left. reflexivity.
  - intros d. vm_compute. discriminate.
Defined.

(** ** The contact directory grows at its end *)

Section Directory.

Lemma update_contact_prefix addr c w c' w' :
  update_contact addr c w = (Ok c', w') ->
  map address c `prefix_of` map address c' /\
  map addedAt c `prefix_of` map addedAt c' /\
  (length c' <= S (length c))%nat.
Proof.
  unfold update_contact. destruct (find _ c).
  - intros [= <- _]. rewrite touch_addresses, touch_addedAt.
    split; [done|]. split; [done|].
    assert (length (map address (touch addr (clock w (clockReads w)) c))
            = length (map address c)) as Hlen by by rewrite touch_addresses.
    rewrite !length_map in Hlen. lia.
  - intros [= <- _]. rewrite !map_app, length_app. simpl.
    split; [by eexists|]. split; [by eexists | lia].
Qed.

Lemma updateContacts_prefix a b w w' :
  updateContacts a b w = (Ok tt, w') ->
  map address (contact_list w) `prefix_of` map address (contact_list w') /\
  map addedAt (contact_list w) `prefix_of` map addedAt (contact_list w') /\
  (length (contact_list w') <= length (contact_list w) + 2)%nat /\
  map address (contact_list w') = added b (added a (map address (contact_list w))).
Proof.
  unfold updateContacts. intros (c0 & w0 & Hread & Hrun)%bind_inv.
  apply read_contacts_inv in Hread as [-> ->].
  apply bind_inv in Hrun as (c1 & w1 & Hu1 & Hrun).
  apply bind_inv in Hrun as (c2 & w2 & Hu2 & Hrun).
  unfold writeFile_contacts in Hrun. destruct (storageDir w2); [|done].
  injection Hrun as <-.
  assert (Hcl : contact_list (set_contactsFile (Some (ContactsJson c2)) w2) = c2)
    by done.
  rewrite !Hcl. clear Hcl.
  destruct (update_contact_spec a (contact_list w) w)
    as (c1' & w1' & Hu1' & _ & _ & _ & _ & Ha1 & _).
  rewrite Hu1 in Hu1'. injection Hu1' as <- <-.
  destruct (update_contact_spec b c1 w1)
    as (c2' & w2' & Hu2' & _ & _ & _ & _ & Ha2 & _).
  rewrite Hu2 in Hu2'. injection Hu2' as <- <-.
  apply update_contact_prefix in Hu1 as (Hp1 & Hq1 & Hl1).
  apply update_contact_prefix in Hu2 as (Hp2 & Hq2 & Hl2).
  split; [by etrans|]. split; [by etrans|]. split; [lia|].
  by rewrite Ha2, Ha1.
Qed.

End Directory.

(** X11: a successful [addMessage] keeps the contact directory as it was
    and adds at most the two addresses at its end: no entry is removed or
    moved, no [addedAt] changes; the addresses afterwards are those of
    before, then the sender and the recipient where they were missing. *)
Theorem addMessage_contacts_append_only
    (sender recipient body : jsstring) (ts : option Z)
    (w w' : World) (m : Message) :
  addMessage sender recipient body ts w = (Ok m, w') ->
  map address (contact_list w) `prefix_of` map address (contact_list w') /\
  map addedAt (contact_list w) `prefix_of` map addedAt (contact_list w') /\
  (length (contact_list w') <= length (contact_list w) + 2)%nat /\
  map address (contact_list w') =
    added recipient (added sender (map address (contact_list w))).
Proof.
  intros (wa & Hca & _ & Hupd)%addMessage_inv.
  assert (Hla : contact_list wa = contact_list w)
    by (unfold contact_list; by rewrite Hca).
  rewrite <- Hla. by apply updateContacts_prefix.
Qed.

Lemma addMessage_contacts_append_only_witness :
  let w := one_message in
  let w' := exec (addMessage (js "C") (js "A") (js "hello") (Some 2000)) w in
  map address (contact_list w') =
    added (js "A") (added (js "C") (map address (contact_list w))).
Proof.
  intros w w'.
  assert (H1 : (addMessage (js "C") (js "A") (js "hello") (Some 2000) w).1
               = Ok {| id := js "2000_1"; from := js "C"; to := js "A";
                       text := js "hello"; timestamp := 2000; read := false |})
    by (vm_compute; reflexivity).
  exact (proj2 (proj2 (proj2
           (addMessage_contacts_append_only _ _ _ _ w w' _ (run_exec _ _ _ H1))))).
Defined.

(** X12: when [contacts.json] does not parse, a successful [addMessage]
    overwrites it with a directory of the sender and the recipient alone. *)
Theorem addMessage_replaces_corrupt_contacts
    (sender recipient body : jsstring) (ts : option Z)
    (w w' : World) (m : Message) :
  contactsFile w = Some Corrupt ->
  addMessage sender recipient body ts w = (Ok m, w') ->
  map address (contact_list w') =
    if bool_decide (sender = recipient) then [sender] else [sender; recipient].
Proof.
  intros Hc (wa & Hca & _ & Hupd)%addMessage_inv.
  apply updateContacts_prefix in Hupd as (_ & _ & _ & ->).
  unfold contact_list. rewrite Hca, Hc. unfold added. simpl.
  case_bool_decide as Hin; case_bool_decide as Heq; try done.
  - apply list_elem_of_singleton in Hin. by destruct Heq.
  - destruct Hin. subst. by left.
Qed.

Lemma addMessage_replaces_corrupt_contacts_witness :
  let w := set_contactsFile (Some Corrupt) (exec init blank) in
  let w' := exec (addMessage (js "A") (js "B") (js "hi") (Some 1000)) w in
  map address (contact_list w') = [js "A"; js "B"].
Proof.
  intros w w'.
  assert (H1 : (addMessage (js "A") (js "B") (js "hi") (Some 1000) w).1
               = Ok {| id := js "1000_0"; from := js "A"; to := js "B";
                       text := js "hi"; timestamp := 1000; read := false |})
    by (vm_compute; reflexivity).
  exact (addMessage_replaces_corrupt_contacts _ _ _ _ w w' _ eq_refl
           (run_exec _ _ _ H1)).
Defined.

(** ** Failures write nothing *)

(** X13: when the file of the pair does not parse, [getMessages],
    [markAsRead] and [addMessage] throw the [SyntaxError] of [JSON.parse];
    no file is written, the contact directory is not updated. *)
Theorem corrupt_dialog_throws
    (address1 address2 body currentAddress : jsstring)
    (limit ts : option Z) (w : World) :
  dialog_lookup (getDialogPath address1 address2) w = Some Corrupt ->
  getMessages address1 address2 limit w = (Throw SyntaxError, w) /\
  markAsRead address1 address2 currentAddress w = (Throw SyntaxError, w) /\
  (addMessage address1 address2 body ts w).1 = Throw SyntaxError /\
  dialogsDir (exec (addMessage address1 address2 body ts) w) = dialogsDir w /\
  contactsFile (exec (addMessage address1 address2 body ts) w) = contactsFile w.
Proof.
  intros Hf.
  assert (Hget : forall w0, dialogsDir w0 = dialogsDir w ->
                   getDialog address1 address2 w0 = (Throw SyntaxError, w0)).
  { intros w0 Hw0.
    unfold getDialog, mbind, M_bind, existsSync_dialog, readFile_dialog.
    rewrite (dialog_lookup_dir _ _ _ Hw0), Hf.
    rewrite bool_decide_eq_true_2 by eauto.
    by rewrite (dialog_lookup_dir _ _ _ Hw0), Hf. }
  split; [|split].
  - unfold getMessages, mbind, M_bind. by rewrite Hget.
  - unfold markAsRead, mbind, M_bind. by rewrite Hget.
  - unfold addMessage, exec, mbind, M_bind.
    destruct ts as [t|]; cbn [mret M_ret Date_now]; by rewrite Hget.
Qed.

Lemma corrupt_dialog_throws_witness :
  let w := exec (writeFile_dialog (js "A_B.json") Corrupt) (exec init blank) in
  getMessages (js "A") (js "B") None w = (Throw SyntaxError, w).
Proof.
  intros w.
  exact (proj1 (corrupt_dialog_throws (js "A") (js "B") (js "hi") (js "A")
                  None None w eq_refl)).
Defined.

(** X14: before [init], with no [dialogs] directory, [getMessages],
    [markAsRead] and [addMessage] throw [ENOENT] from the write of the new
    dialog; they create nothing.  [getDialogs] returns the empty list. *)
Theorem uninitialised_store_throws
    (address1 address2 body currentAddress : jsstring)
    (limit ts : option Z) (w : World) :
  dialogsDir w = None ->
  (getMessages address1 address2 limit w).1 = Throw ENOENT /\
  (markAsRead address1 address2 currentAddress w).1 = Throw ENOENT /\
  (addMessage address1 address2 body ts w).1 = Throw ENOENT /\
  (forall w', w' = exec (getMessages address1 address2 limit) w \/
              w' = exec (markAsRead address1 address2 currentAddress) w \/
              w' = exec (addMessage address1 address2 body ts) w ->
     dialogsDir w' = None /\ contactsFile w' = contactsFile w) /\
  getDialogs currentAddress w = (Ok [], w).
Proof.
  intros Hdir.
  assert (Hget : forall w0, dialogsDir w0 = None ->
            (getDialog address1 address2 w0).1 = Throw ENOENT /\
            dialogsDir (getDialog address1 address2 w0).2 = None /\
            contactsFile (getDialog address1 address2 w0).2 = contactsFile w0).
  { intros w0 Hw0.
    unfold getDialog, mbind, M_bind, existsSync_dialog, dialog_lookup.
    rewrite Hw0. rewrite bool_decide_eq_false_2 by (by intros [? ?]).
    unfold saveDialog, mbind, M_bind, Date_now, writeFile_dialog.
    cbn. by rewrite Hw0. }
  assert (Hm : forall B (k : Dialog -> M B) w0, dialogsDir w0 = None ->
            ((getDialog address1 address2 ≫= k) w0).1 = Throw ENOENT /\
            dialogsDir ((getDialog address1 address2 ≫= k) w0).2 = None /\
            contactsFile ((getDialog address1 address2 ≫= k) w0).2 = contactsFile w0).
  { intros B k w0 Hw0. destruct (Hget w0 Hw0) as (H1 & H2 & H3).
    unfold mbind, M_bind.
    destruct (getDialog address1 address2 w0) as [[d|e] w1]; simpl in *; [done|].
    by injection H1 as ->. }
  assert (Hadd : (addMessage address1 address2 body ts w).1 = Throw ENOENT /\
            dialogsDir (addMessage address1 address2 body ts w).2 = None /\
            contactsFile (addMessage address1 address2 body ts w).2 = contactsFile w).
  { unfold addMessage. unfold mbind at 1, M_bind at 1.
    destruct ts as [t|]; cbn [mret M_ret Date_now]; [by apply Hm|].
    match goal with
    | |- context [mbind ?k _ ?w0] => destruct (Hm _ k w0 Hdir) as (H1 & H2 & H3)
    end.
    done. }
  split; [by apply Hm|]. split; [by apply Hm|]. split; [apply Hadd|]. split.
  - unfold exec. intros w' [-> | [-> | ->]].
    + unfold getMessages. cbv zeta. by apply Hm.
    + unfold markAsRead. by apply Hm.
    + apply Hadd.
  - unfold getDialogs. by rewrite Hdir.
Qed.

Lemma uninitialised_store_throws_witness :
  (addMessage (js "A") (js "B") (js "hi") None blank).1 = Throw ENOENT.
Proof.
  exact (proj1 (proj2 (proj2
           (uninitialised_store_throws (js "A") (js "B") (js "hi") (js "A")
              None None blank eq_refl)))).
Defined.

(** * The listener registry, beyond the specification *)

(** ** Subscribing and unsubscribing *)

Section Buckets.
Import ServerClient.

Lemma array_set_registry a m h n s :
  array a (set_registry m h n s) = default [] (h !! a).
Proof. done. Qed.

Lemma listeners_on t h s : listeners t (on t h s) = listeners t s ++ [h].
Proof.
  unfold listeners. destruct (wsListeners s !! t) as [a|] eqn:Ht.
  - rewrite (on_bound _ _ _ _ Ht). cbn [wsListeners set_registry]. rewrite Ht.
    by rewrite array_set_registry, lookup_insert_eq.
  - rewrite (on_unbound _ _ _ Ht). cbn [wsListeners set_registry].
    rewrite lookup_insert_eq. by rewrite array_set_registry, lookup_insert_eq.
Qed.

Lemma array_off t h s a :
  wsListeners s !! t = Some a -> array a (off t h s) = spliced h (array a s).
Proof.
  intros Ht. unfold array at 1. by rewrite (off_arrays _ _ _ _ Ht), lookup_insert_eq.
Qed.

Lemma array_off_ne t h s a a' :
  wsListeners s !! t = Some a -> a' <> a -> array a' (off t h s) = array a' s.
Proof.
  intros Ht Hne. unfold array. by rewrite (off_arrays _ _ _ _ Ht), lookup_insert_ne.
Qed.

Lemma listeners_off t h s : listeners t (off t h s) = spliced h (listeners t s).
Proof.
  unfold listeners. destruct (wsListeners s !! t) as [a|] eqn:Ht.
  - rewrite (off_wsListeners _ _ _ _ Ht). case_bool_decide as Hlen.
    + rewrite lookup_delete_eq. symmetry. by apply nil_length_inv.
    + rewrite Ht. by apply array_off.
  - rewrite off_unbound by done. by rewrite Ht.
Qed.

(** [indexOf] then [splice]: the first occurrence goes. *)
Lemma spliced_absent h l : h ∉ l -> spliced h l = l.
Proof.
  intros Hnin. unfold spliced, indexOf.
  destruct (list_find _ l) as [[i x]|] eqn:Hfind; [|done].
  apply list_find_Some in Hfind as (Hi & -> & _).
  destruct Hnin. by eapply list_elem_of_lookup_2.
Qed.

Lemma spliced_first h l1 l2 : h ∉ l1 -> spliced h (l1 ++ h :: l2) = l1 ++ l2.
Proof.
  intros Hnin. unfold spliced, indexOf.
  assert (Hfind : list_find (fun x => x = h) (l1 ++ h :: l2) = Some (length l1, h)).
  { apply list_find_Some. split; [apply list_lookup_middle; done|].
    split; [done|]. intros j y Hj Hlt ->.
    rewrite lookup_app_l in Hj by done. destruct Hnin.
    by eapply list_elem_of_lookup_2. }
  rewrite Hfind. simpl. induction l1 as [|x l1 IH]; simpl; [done|].
  f_equal. apply IH.
  - intros Hin. apply Hnin. by right.
  - apply list_find_Some. split; [apply list_lookup_middle; done|].
    split; [done|]. intros j y Hj Hlt ->.
    rewrite lookup_app_l in Hj by done. destruct Hnin. right.
    by eapply list_elem_of_lookup_2.
Qed.

Lemma on_buckets_ok t h s : buckets_ok s -> buckets_ok (on t h s).
Proof.
  intros [Hd Hb Hf]. destruct (wsListeners s !! t) as [a|] eqn:Ht.
  - rewrite (on_bound _ _ _ _ Ht). split; cbn [wsListeners nextArray set_registry].
    + done.
    + done.
    + intros t1 a1 H1. rewrite array_set_registry, lookup_insert.
      case_decide as Ha; simpl; [by destruct (array a s)|]. by apply (Hf t1).
  - rewrite (on_unbound _ _ _ Ht). split; cbn [wsListeners nextArray set_registry].
    + intros t1 t2 a. rewrite !lookup_insert.
      repeat case_decide; subst; try done.
      * intros [= <-] H2%Hb. lia.
      * intros H1%Hb [= <-]. lia.
      * apply Hd.
    + intros t1 a1. rewrite lookup_insert. case_decide.
      * intros [= <-]. lia.
      * intros H1%Hb. lia.
    + intros t1 a1. rewrite lookup_insert, array_set_registry, lookup_insert.
      case_decide as H1.
      * intros [= <-]. by rewrite decide_True.
      * intros H2. pose proof (Hb _ _ H2). rewrite decide_False by lia.
        by apply (Hf t1).
Qed.

Lemma off_buckets_ok t h s : buckets_ok s -> buckets_ok (off t h s).
Proof.
  intros [Hd Hb Hf]. destruct (wsListeners s !! t) as [a|] eqn:Ht;
    [|by rewrite off_unbound].
  split.
  - intros t1 t2 a1 H1%off_bound_inv H2%off_bound_inv. by eapply Hd.
  - intros t1 a1 H1%off_bound_inv. rewrite (proj2 (proj2 (proj2 (proj2 (off_fields t h s))))).
    by eapply Hb.
  - intros t1 a1 H1. pose proof (off_bound_inv _ _ _ _ _ H1) as H1'.
    destruct (decide (a1 = a)) as [-> | Hne].
    + assert (t1 = t) as -> by by eapply Hd.
      rewrite (array_off _ _ _ _ Ht).
      rewrite (off_wsListeners _ _ _ _ Ht) in H1. case_bool_decide as Hlen.
      * by rewrite lookup_delete_eq in H1.
      * intros Hnil. by rewrite Hnil in Hlen.
    + rewrite (array_off_ne _ _ _ _ _ Ht Hne). by eapply Hf.
Qed.

Lemma buckets_ok_same s s' :
  wsListeners s' = wsListeners s -> arrays s' = arrays s ->
  nextArray s' = nextArray s -> buckets_ok s -> buckets_ok s'.
Proof.
  intros Hw Ha Hn [Hd Hb Hf]. split; unfold array; rewrite ?Hw, ?Ha, ?Hn; done.
Qed.

Lemma settle_buckets_ok req o s : buckets_ok s -> buckets_ok (settle req o s).
Proof.
  destruct (settle_fields req o s) as (_ & Ha & Hw & _ & _ & Hn).
  by apply buckets_ok_same.
Qed.

Lemma call_buckets_ok h x s : buckets_ok s -> buckets_ok (call h x s).
Proof.
  intros Hok.
  assert (Hlog : buckets_ok (log_call h x s)) by by apply (buckets_ok_same s).
  assert (Hclear : forall req, buckets_ok (clearTimeout req (log_call h x s)))
    by (intros; by apply (buckets_ok_same s)).
  destruct h; simpl; repeat case_bool_decide;
    repeat first [ apply settle_buckets_ok | apply off_buckets_ok ]; done.
Qed.

Lemma send_buckets_ok req f t s : buckets_ok s -> buckets_ok (send req f t s).
Proof.
  intros Hok. destruct t; simpl; try by apply settle_buckets_ok.
  by apply (buckets_ok_same s).
Qed.

Lemma step_buckets_ok s e : buckets_ok s -> buckets_ok (step s e).
Proof.
  intros Hok. destruct e; cbn [step].
  - unfold registerAddress. destruct t.
    + apply settle_buckets_ok. by apply (buckets_ok_same s).
    + apply send_buckets_ok, on_buckets_ok. by apply (buckets_ok_same s).
    + apply send_buckets_ok, on_buckets_ok. by apply (buckets_ok_same s).
    + by apply (buckets_ok_same s).
  - unfold sendMessage. destruct t.
    + apply settle_buckets_ok. by apply (buckets_ok_same s).
    + apply send_buckets_ok, on_buckets_ok, on_buckets_ok. by apply (buckets_ok_same s).
    + apply send_buckets_ok, on_buckets_ok, on_buckets_ok. by apply (buckets_ok_same s).
    + by apply (buckets_ok_same s).
  - apply on_message_preserves; [|done]. intros. by apply call_buckets_ok.
  - unfold deadline. destruct (timers s !! req) as [[a|a]|]; [| |done].
    + apply settle_buckets_ok, off_buckets_ok. by apply (buckets_ok_same s).
    + apply settle_buckets_ok, off_buckets_ok, off_buckets_ok.
      by apply (buckets_ok_same s).
  - by apply on_buckets_ok.
  - by apply off_buckets_ok.
Qed.

Lemma run_buckets_ok evs s : buckets_ok s -> buckets_ok (run evs s).
Proof.
  revert s. induction evs as [|e evs IH]; intros s Hs; [done|].
  simpl. by apply IH, step_buckets_ok.
Qed.

Lemma initial_buckets_ok : buckets_ok initial.
Proof. split; intros *; unfold initial; simpl; by rewrite lookup_empty. Qed.

(** The other event types keep their listeners. *)
Lemma listeners_on_other t t' h s :
  buckets_ok s -> t' <> t -> listeners t' (on t h s) = listeners t' s.
Proof.
  intros [Hd Hb Hf] Hne. unfold listeners.
  destruct (wsListeners s !! t) as [a|] eqn:Ht.
  - rewrite (on_bound _ _ _ _ Ht). cbn [wsListeners set_registry].
    destruct (wsListeners s !! t') as [a'|] eqn:Ht'; [|done].
    rewrite array_set_registry, lookup_insert_ne; [done|].
    intros ->. apply Hne. by eapply Hd.
  - rewrite (on_unbound _ _ _ Ht). cbn [wsListeners set_registry].
    rewrite lookup_insert_ne by done.
    destruct (wsListeners s !! t') as [a'|] eqn:Ht'; [|done].
    rewrite array_set_registry, lookup_insert_ne; [done|].
    apply Hb in Ht'. lia.
Qed.

Lemma listeners_off_other t t' h s :
  buckets_ok s -> t' <> t -> listeners t' (off t h s) = listeners t' s.
Proof.
  intros [Hd Hb Hf] Hne. unfold listeners.
  destruct (wsListeners s !! t) as [a|] eqn:Ht; [|by rewrite off_unbound].
  rewrite (off_wsListeners _ _ _ _ Ht).
  assert (Hw : (if bool_decide (length (spliced h (array a s)) = 0%nat)
                then delete t (wsListeners s) else wsListeners s) !! t'
               = wsListeners s !! t').
  { case_bool_decide; [by rewrite lookup_delete_ne | done]. }
  rewrite Hw. destruct (wsListeners s !! t') as [a'|] eqn:Ht'; [|done].
  apply (array_off_ne _ _ _ a); [done|]. intros ->. apply Hne. by eapply Hd.
Qed.

End Buckets.

(** X15: in every state the client reaches, [on] puts the callback at the
    end of the listeners of its event type; [off] cuts out its first
    occurrence, and does nothing when it is not subscribed; neither touches
    the listeners of another event type. *)
Theorem on_off_listeners
    (evs : list ServerClient.Event) (t : jsstring) (h : ServerClient.Handler) :
  let s := ServerClient.run evs ServerClient.initial in
  listeners t (ServerClient.on t h s) = listeners t s ++ [h] /\
  (h ∉ listeners t s -> listeners t (ServerClient.off t h s) = listeners t s) /\
  (forall l1 l2, listeners t s = l1 ++ h :: l2 -> h ∉ l1 ->
     listeners t (ServerClient.off t h s) = l1 ++ l2) /\
  (forall t', t' <> t ->
     listeners t' (ServerClient.on t h s) = listeners t' s /\
     listeners t' (ServerClient.off t h s) = listeners t' s).
Proof.
  intros s.
  assert (Hok : buckets_ok s) by apply run_buckets_ok, initial_buckets_ok.
  split; [apply listeners_on|]. split; [|split].
  - intros Hnin. by rewrite listeners_off, spliced_absent.
  - intros l1 l2 Hl Hnin. by rewrite listeners_off, Hl, spliced_first.
  - intros t' Hne. split; [by apply listeners_on_other | by apply listeners_off_other].
Qed.

(** X16: in every state the client reaches, an event type is in
    [wsListeners] exactly when it has a listener, and two event types never
    share an array: the bucket of a type goes with its last listener. *)
Theorem buckets_hold_listeners (evs : list ServerClient.Event) :
  let s := ServerClient.run evs ServerClient.initial in
  (forall t, is_Some (ServerClient.wsListeners s !! t) <-> listeners t s <> []) /\
  (forall t t' a,
     ServerClient.wsListeners s !! t = Some a ->
     ServerClient.wsListeners s !! t' = Some a -> t = t').
Proof.
  intros s.
  assert (Hok : buckets_ok s) by apply run_buckets_ok, initial_buckets_ok.
  destruct Hok as [Hd Hb Hf]. split; [|exact Hd].
  intros t. unfold listeners.
  destruct (ServerClient.wsListeners s !! t) as [a|] eqn:Ht.
  - split; [intros _; by eapply Hf | eauto].
  - split; [by intros [? ?] | done].
Qed.

(** ** Frames the four named blocks do not take *)

Section Unnamed.
Import ServerClient.

Lemma notify_unbound t x s : wsListeners s !! t = None -> notify t x s = s.
Proof. unfold notify. by intros ->. Qed.

Lemma is_type_false message t name :
  type message = Some t -> t <> js name -> is_type message name = false.
Proof.
  intros Ht Hne. unfold is_type. rewrite Ht.
  apply bool_decide_eq_false_2. by intros [= ->].
Qed.

Lemma is_type_true message name :
  type message = Some (js name) -> is_type message name = true.
Proof. intros Ht. unfold is_type. by rewrite Ht, bool_decide_eq_true_2. Qed.

Lemma truthy_nonempty (t : jsstring) : t <> [] -> truthy (Some t) = true.
Proof. by destruct t. Qed.

(** The last block alone: the listeners of the type get
    [message.data || message]. *)
Lemma last_block_only message t s :
  type message = Some t -> t <> [] ->
  is_type message "message" = false ->
  (data message = None \/
   is_type message "registered" = false /\ is_type message "messageSent" = false /\
   is_type message "messageError" = false) ->
  handleWebSocketMessage message s = notify t (data_or_message message) s.
Proof.
  intros Ht Hne Hm Hrest. unfold handleWebSocketMessage, data_or_message.
  rewrite Hm, Ht, (truthy_nonempty t Hne).
  destruct Hrest as [-> | (-> & -> & ->)]; [done|]. by destruct (data message).
Qed.

End Unnamed.

(** X17: a frame whose type is none of the four named ones reaches every
    application listener of its type exactly once, in subscription order,
    with [message.data] or, without data, with the frame itself; so does a
    [registered], [messageSent] or [messageError] frame without data.  A
    [message] frame without data reaches them twice: first with the empty
    object, then with the frame. *)
Theorem frame_dispatch_by_type
    (message : ServerClient.Frame) (t : jsstring) (a : nat)
    (l : list ServerClient.Handler) (s : ServerClient.Client) :
  ServerClient.type message = Some t -> t <> [] ->
  ServerClient.wsListeners s !! t = Some a ->
  ServerClient.arrays s !! a = Some l ->
  Forall (fun h => ServerClient.owner h = None) l ->
  (~ named_type t \/ ServerClient.data message = None /\ t <> js "message" ->
   ServerClient.handleWebSocketMessage message s =
     ServerClient.log_calls (map (fun h => (h, data_or_message message)) l) s) /\
  (ServerClient.data message = None -> t = js "message" ->
   ServerClient.handleWebSocketMessage message s =
     ServerClient.log_calls
       (map (fun h => (h, ServerClient.ArgData ServerClient.empty_object)) l
        ++ map (fun h => (h, ServerClient.ArgMessage message)) l) s).
Proof.
  intros Ht Hne Hw Ha Hl. split.
  - intros Hcase.
    rewrite (last_block_only message t s Ht Hne).
    + by apply (notify_external t a).
    + apply (is_type_false _ t); [done|]. unfold named_type in Hcase.
      intros ->. destruct Hcase as [Hn | [_ Hn]]; apply Hn; auto.
    + destruct Hcase as [Hn | [Hd _]]; [right | by left].
      unfold named_type in Hn.
      repeat split; apply (is_type_false _ t); try done; intros ->; apply Hn; auto.
  - intros Hd ->. unfold ServerClient.handleWebSocketMessage.
    rewrite (is_type_true message "message" Ht), Hd, Ht. cbn [default].
    rewrite (truthy_nonempty _ Hne).
    rewrite (notify_external _ a _ l s) by done.
    rewrite (notify_external _ a _ l) by done.
    by rewrite log_calls_app.
Qed.

Lemma frame_dispatch_by_type_witness :
  let typing :=
    {| ServerClient.type := Some (js "typing"); ServerClient.data := None;
       ServerClient.top := ServerClient.empty_object |} in
  let s := ServerClient.run [ServerClient.On (js "typing") 7] ServerClient.initial in
  ServerClient.handleWebSocketMessage typing s =
    ServerClient.log_calls
      [(ServerClient.External 7, ServerClient.ArgMessage typing)] s.
Proof.
  intros typing s.
  refine (proj1 (frame_dispatch_by_type typing (js "typing") 0
                   [ServerClient.External 7] s _ _ _ _ _) _).
  - reflexivity.
  - discriminate.
  - reflexivity.
  - reflexivity.
  - repeat constructor.
  - left. unfold named_type. vm_compute. intros [H | [H | [H | H]]]; discriminate.
Defined.

(** X18: a frame that does not parse, a frame without a type, and a frame
    whose type has no listener change nothing: no listener is called, no
    request is settled, the registry is left as it was. *)
Theorem unheard_frame_is_dropped
    (message : ServerClient.Frame) (s : ServerClient.Client) :
  ServerClient.on_message None s = s /\
  (ServerClient.type message = None \/
   (exists t, ServerClient.type message = Some t /\
              ServerClient.wsListeners s !! t = None) ->
   ServerClient.on_message (Some message) s = s).
Proof.
  split; [done|]. unfold ServerClient.on_message, ServerClient.handleWebSocketMessage.
  unfold ServerClient.is_type.
  intros [Hnone | (t & Ht & Hw)].
  - rewrite Hnone. rewrite !bool_decide_eq_false_2 by done.
    by destruct (ServerClient.data message).
  - rewrite Ht.
    assert (Hblock : forall (name : string) x s',
      s' = s ->
      (if bool_decide (Some t = Some (js name))
       then ServerClient.notify (js name) x s' else s') = s).
    { intros name x s' ->. case_bool_decide as Heq; [|done].
      injection Heq as ->. by apply notify_unbound. }
    rewrite (Hblock "message"%string) by done.
    destruct (ServerClient.data message) as [d|].
    + rewrite (Hblock "registered"%string _ s) by done.
      rewrite (Hblock "messageSent"%string _ s) by done.
      rewrite (Hblock "messageError"%string _ s) by done.
      destruct (ServerClient.truthy (Some t)); [by apply notify_unbound | done].
    + destruct (ServerClient.truthy (Some t)); [by apply notify_unbound | done].
Qed.

Lemma unheard_frame_is_dropped_witness :
  ServerClient.on_message (Some hi_frame) ServerClient.initial = ServerClient.initial.
Proof.
  refine (proj2 (unheard_frame_is_dropped hi_frame ServerClient.initial) _).
  right. exists (js "message"). split; reflexivity.
Defined.

(** ** Replies of the relay *)

(** Comparisons of literal event types, decided by computation. *)
Ltac literal_types :=
  repeat match goal with
         | |- context [bool_decide (?x = ?y)] =>
             let b := eval vm_compute in (bool_decide (x = y)) in
             change (bool_decide (x = y)) with b
         | |- context [ServerClient.truthy (Some ?x)] =>
             let b := eval vm_compute in (ServerClient.truthy (Some x)) in
             change (ServerClient.truthy (Some x)) with b
         end;
  cbv beta iota.

Section Replies.
Import ServerClient.

Lemma listeners_same t s s' :
  wsListeners s' = wsListeners s -> arrays s' = arrays s ->
  listeners t s' = listeners t s.
Proof. unfold listeners, array. by intros -> ->. Qed.

Lemma listeners_settle t req o s : listeners t (settle req o s) = listeners t s.
Proof.
  destruct (settle_fields req o s) as (_ & Ha & Hw & _). by apply listeners_same.
Qed.

Lemma notify_single t x h s : listeners t s = [h] -> notify t x s = call h x s.
Proof.
  unfold notify, listeners. destruct (wsListeners s !! t) as [a|]; [|done].
  intros Ha. unfold forEach. rewrite Ha. simpl. by rewrite Ha.
Qed.

Lemma notify_none t x s : listeners t s = [] -> notify t x s = s.
Proof.
  unfold notify, listeners. destruct (wsListeners s !! t) as [a|]; [|done].
  intros Ha. unfold forEach. by rewrite Ha.
Qed.

Lemma spliced_single h : spliced h [h] = [].
Proof. apply (spliced_first h [] []), not_elem_of_nil. Qed.

(** *** Outcomes belong to issued requests *)

Lemma issued_same s s' :
  promises s' = promises s -> (nextRequest s <= nextRequest s')%nat ->
  promises_issued s -> promises_issued s'.
Proof. intros Hp Hn Hs r. rewrite Hp. intros ?%Hs. lia. Qed.

Lemma settle_issued req o s :
  (req < nextRequest s)%nat -> promises_issued s -> promises_issued (settle req o s).
Proof.
  intros Hreq Hs r. destruct (settle_fields req o s) as (_ & _ & _ & -> & _).
  rewrite settle_promises. destruct (promises s !! r) eqn:Hr.
  - intros _. apply Hs. by rewrite Hr.
  - case_bool_decide as Heq; [by subst | by intros [? ?]].
Qed.

Lemma off_issued t h s : promises_issued s -> promises_issued (off t h s).
Proof.
  destruct (off_fields t h s) as (_ & Hp & Hn & _).
  apply issued_same; [done | lia].
Qed.

Lemma on_issued t h s : promises_issued s -> promises_issued (on t h s).
Proof.
  destruct (on_fields t h s) as (_ & Hp & Hn & _).
  apply issued_same; [done | lia].
Qed.

Lemma off_nextRequest t h s : nextRequest (off t h s) = nextRequest s.
Proof. by destruct (off_fields t h s) as (_ & _ & -> & _). Qed.

Lemma on_nextRequest t h s : nextRequest (on t h s) = nextRequest s.
Proof. by destruct (on_fields t h s) as (_ & _ & -> & _). Qed.

Lemma call_issued h x s :
  registry_ok s -> subscribed h s -> promises_issued s ->
  promises_issued (call h x s).
Proof.
  intros Hok (a & l & Hl & Hin) Hs.
  assert (Hown : forall req, owner h = Some req -> (req < nextRequest s)%nat).
  { intros req Hreq. by destruct (ok_owner s Hok a l h req Hl Hin Hreq). }
  assert (Hlog : promises_issued (log_call h x s))
    by (apply (issued_same s); [done | done | done]).
  assert (Hclear : forall req, promises_issued (clearTimeout req (log_call h x s)))
    by (intros; apply (issued_same s); done).
  destruct h; simpl; repeat case_bool_decide; try done;
    (apply settle_issued;
     [rewrite ?off_nextRequest; by apply Hown
     | repeat apply off_issued; done]).
Qed.

Lemma send_issued req f t s :
  (req < nextRequest s)%nat -> promises_issued s -> promises_issued (send req f t s).
Proof.
  intros Hreq Hs. destruct t; simpl; try by apply settle_issued.
  by apply (issued_same s).
Qed.

Lemma step_issued s e :
  registry_ok s -> promises_issued s -> promises_issued (step s e).
Proof.
  intros Hok Hs.
  assert (Hnew : promises_issued (new_request s))
    by (apply (issued_same s); [done | simpl; lia | done]).
  destruct e; cbn [step].
  - unfold registerAddress. destruct t.
    + apply settle_issued; [simpl; lia | done].
    + apply send_issued; [rewrite on_nextRequest; simpl; lia|].
      apply on_issued. by apply (issued_same (new_request s)).
    + apply send_issued; [rewrite on_nextRequest; simpl; lia|].
      apply on_issued. by apply (issued_same (new_request s)).
    + done.
  - unfold sendMessage. destruct t.
    + apply settle_issued; [simpl; lia | done].
    + apply send_issued; [rewrite !on_nextRequest; simpl; lia|].
      do 2 apply on_issued. by apply (issued_same (new_request s)).
    + apply send_issued; [rewrite !on_nextRequest; simpl; lia|].
      do 2 apply on_issued. by apply (issued_same (new_request s)).
    + done.
  - apply (on_message_preserves (fun s => registry_ok s /\ promises_issued s));
      [|done].
    intros s' h x [Hok' Hs'] Hsub. split; [by apply call_registry_ok|].
    by apply call_issued.
  - unfold deadline. destruct (timers s !! req) as [p|] eqn:Hp; [|done].
    assert (Hreq : (req < nextRequest s)%nat) by by eapply (ok_timers s Hok).
    assert (Hclear : promises_issued (clearTimeout req s))
      by by apply (issued_same s).
    destruct p;
      (apply settle_issued;
       [rewrite ?off_nextRequest; done | repeat apply off_issued; done]).
  - by apply on_issued.
  - by apply off_issued.
Qed.

Lemma run_issued evs s :
  registry_ok s -> promises_issued s ->
  registry_ok (run evs s) /\ promises_issued (run evs s).
Proof.
  revert s. induction evs as [|e evs IH]; intros s Hok Hs; [done|].
  simpl. apply IH; [by apply step_registry_ok | by apply step_issued].
Qed.

(** The request that is issued next has no outcome yet. *)
Lemma next_request_pending evs :
  promises (run evs initial) !! nextRequest (run evs initial) = None.
Proof.
  destruct (run_issued evs initial) as [_ Hs].
  - apply initial_ok.
  - intros r [o Ho]. cbn in Ho. by rewrite lookup_empty in Ho.
  - destruct (promises (run evs initial) !! nextRequest (run evs initial)) eqn:Hp;
      [|done].
    assert (is_Some (promises (run evs initial) !! nextRequest (run evs initial)))
      as Hsome%Hs by by rewrite Hp.
    lia.
Qed.

(** *** The closures of a request, called with a reply *)

Lemma on_sent t h s : sent (on t h s) = sent s.
Proof. unfold on. by destruct (wsListeners s !! t). Qed.

Lemma off_sent t h s : sent (off t h s) = sent s.
Proof. unfold off. by destruct (wsListeners s !! t). Qed.

Lemma off_timers t h s : timers (off t h s) = timers s.
Proof. by destruct (off_fields t h s) as (-> & _). Qed.

Lemma off_promises t h s : promises (off t h s) = promises s.
Proof. by destruct (off_fields t h s) as (_ & -> & _). Qed.

Lemma off_calls t h s : calls (off t h s) = calls s.
Proof. by destruct (off_fields t h s) as (_ & _ & _ & -> & _). Qed.

Lemma on_timers t h s : timers (on t h s) = timers s.
Proof. by destruct (on_fields t h s) as (-> & _). Qed.

Lemma on_promises t h s : promises (on t h s) = promises s.
Proof. by destruct (on_fields t h s) as (_ & -> & _). Qed.

Lemma on_calls t h s : calls (on t h s) = calls s.
Proof. by destruct (on_fields t h s) as (_ & _ & _ & ->). Qed.

Lemma settle_timers req o s : timers (settle req o s) = timers s.
Proof. by destruct (settle_fields req o s) as (-> & _). Qed.

Lemma settle_calls req o s : calls (settle req o s) = calls s.
Proof. by destruct (settle_fields req o s) as (_ & _ & _ & _ & -> & _). Qed.

Lemma settle_fresh req o s :
  promises s !! req = None -> promises (settle req o s) !! req = Some o.
Proof.
  intros Hp. rewrite settle_promises, Hp. by rewrite bool_decide_eq_true_2.
Qed.

(** A reply of one of the three reply types, with its data, runs the
    listeners of the type twice. *)
Lemma reply_notifies_twice (name : string) d s :
  name = "registered"%string \/ name = "messageSent"%string \/
  name = "messageError"%string ->
  handleWebSocketMessage (relay_frame name d) s =
    notify (js name) (ArgData d) (notify (js name) (ArgData d) s).
Proof.
  intros [-> | [-> | ->]];
    unfold handleWebSocketMessage, is_type, relay_frame; cbn [type data];
    literal_types; done.
Qed.

Lemma deadline_cleared req s : timers s !! req = None -> deadline req s = s.
Proof. unfold deadline. by intros ->. Qed.

End Replies.

Section Answers.
Import ServerClient.

(** The state a registration leaves, when no listener of [registered] was
    there before. *)
Lemma registerAddress_state address s :
  listeners (js "registered") s = [] ->
  let req := nextRequest s in
  let s1 := registerAddress address Sent s in
  listeners (js "registered") s1 = [RegisteredHandler req address] /\
  promises s1 = promises s /\
  timers s1 = <[req := PendingRegister address]> (timers s) /\
  calls s1 = calls s /\
  sent s1 = sent s ++ [register_frame address].
Proof.
  intros Hl req s1. unfold s1. rewrite registerAddress_unfold.
  cbn [send]. split; [|split; [|split; [|split]]].
  - rewrite (listeners_same _ (on (js "registered") (RegisteredHandler req address)
                                 (armed (PendingRegister address) s))) by done.
    rewrite listeners_on.
    rewrite (listeners_same _ s) by done. by rewrite Hl.
  - cbn [log_sent promises]. by rewrite on_promises.
  - cbn [log_sent timers]. by rewrite on_timers.
  - cbn [log_sent calls]. by rewrite on_calls.
  - cbn [log_sent sent]. by rewrite on_sent.
Qed.

Lemma call_registered_match req address d s :
  data_address d = Some address ->
  call (RegisteredHandler req address) (ArgData d) s =
    settle req (Resolved None)
      (off (js "registered") (RegisteredHandler req address)
         (clearTimeout req
            (log_call (RegisteredHandler req address) (ArgData d) s))).
Proof. intros Hd. unfold call. cbn [fields]. by rewrite bool_decide_eq_true_2. Qed.

Lemma call_registered_other req address d s :
  data_address d <> Some address ->
  call (RegisteredHandler req address) (ArgData d) s =
    log_call (RegisteredHandler req address) (ArgData d) s.
Proof. intros Hd. unfold call. cbn [fields]. by rewrite bool_decide_eq_false_2. Qed.

End Answers.

(** X19: a registration issued in a reachable state where [registered] has
    no listener sends its frame and waits.  A [registered] reply for the
    address resolves it: the deadline is cleared, the closure is called once
    and unsubscribed, and the deadline, were it to fire, would do nothing.
    A [registered] reply for another address leaves it waiting, with its
    deadline armed and its closure subscribed. *)
Theorem registerAddress_reply
    (evs : list ServerClient.Event) (address : jsstring)
    (d : ServerClient.Payload) :
  let s := ServerClient.run evs ServerClient.initial in
  let req := ServerClient.nextRequest s in
  let h := ServerClient.RegisteredHandler req address in
  let s1 := ServerClient.step s (ServerClient.RegisterAddress address ServerClient.Sent) in
  let s2 := ServerClient.step s1
              (ServerClient.Inbound (Some (relay_frame "registered" d))) in
  listeners (js "registered") s = [] ->
  (ServerClient.promises s1 !! req = None /\
   ServerClient.timers s1 !! req = Some (ServerClient.PendingRegister address) /\
   listeners (js "registered") s1 = [h] /\
   ServerClient.sent s1 = ServerClient.sent s ++ [ServerClient.register_frame address]) /\
  (ServerClient.data_address d = Some address ->
   ServerClient.promises s2 !! req = Some (ServerClient.Resolved None) /\
   ServerClient.timers s2 !! req = None /\
   listeners (js "registered") s2 = [] /\
   ServerClient.calls s2 = ServerClient.calls s ++ [(h, ServerClient.ArgData d)] /\
   ServerClient.step s2 (ServerClient.Deadline req) = s2) /\
  (ServerClient.data_address d <> Some address ->
   ServerClient.promises s2 !! req = None /\
   ServerClient.timers s2 !! req = Some (ServerClient.PendingRegister address) /\
   listeners (js "registered") s2 = [h]).
Proof.
  intros s req h s1 s2 Hl.
  pose proof (next_request_pending evs) as Hpend. fold s in Hpend. fold req in Hpend.
  destruct (registerAddress_state address s Hl) as (Hl1 & Hp1 & Ht1 & Hc1 & Hs1).
  cbv zeta in Hl1, Hp1, Ht1, Hc1, Hs1.
  change (ServerClient.registerAddress address ServerClient.Sent s) with s1
    in Hl1, Hp1, Ht1, Hc1, Hs1.
  fold req in Hl1, Ht1. fold h in Hl1.
  assert (Hs2 : s2 = ServerClient.notify (js "registered") (ServerClient.ArgData d)
                       (ServerClient.call h (ServerClient.ArgData d) s1)).
  { unfold s2. cbn [ServerClient.step ServerClient.on_message].
    rewrite reply_notifies_twice by auto.
    by rewrite (notify_single _ _ h s1). }
  split; [|split].
  - rewrite Hp1, Ht1, lookup_insert_eq. done.
  - intros Hd. unfold h in Hs2. rewrite call_registered_match in Hs2 by done.
    fold h in Hs2.
    set (s2a := ServerClient.settle req _ _) in Hs2.
    assert (Hl2 : listeners (js "registered") s2a = []).
    { unfold s2a. rewrite listeners_settle, listeners_off.
      rewrite (listeners_same _ s1) by done. rewrite Hl1. apply spliced_single. }
    rewrite notify_none in Hs2 by done. rewrite Hs2.
    split; [|split; [|split; [|split]]].
    + unfold s2a. apply settle_fresh. rewrite off_promises.
      cbn [ServerClient.clearTimeout ServerClient.set_timers ServerClient.log_call
           ServerClient.promises]. by rewrite Hp1.
    + unfold s2a. rewrite settle_timers, off_timers.
      cbn [ServerClient.clearTimeout ServerClient.set_timers ServerClient.timers].
      apply lookup_delete_eq.
    + done.
    + unfold s2a. rewrite settle_calls, off_calls.
      cbn [ServerClient.clearTimeout ServerClient.set_timers ServerClient.log_call
           ServerClient.calls]. by rewrite Hc1.
    + cbn [ServerClient.step]. apply deadline_cleared.
      unfold s2a. rewrite settle_timers, off_timers.
      cbn [ServerClient.clearTimeout ServerClient.set_timers ServerClient.timers].
      apply lookup_delete_eq.
  - intros Hd. unfold h in Hs2. rewrite call_registered_other in Hs2 by done.
    fold h in Hs2.
    rewrite (notify_single _ _ h) in Hs2
      by (by rewrite (listeners_same _ s1)).
    unfold h in Hs2. rewrite call_registered_other in Hs2 by done. fold h in Hs2.
    rewrite Hs2. cbn [ServerClient.log_call ServerClient.promises ServerClient.timers].
    rewrite Hp1, Ht1, lookup_insert_eq.
    split; [done|]. split; [done|]. by rewrite (listeners_same _ s1).
Qed.

Lemma registerAddress_reply_witness :
  let d := {| ServerClient.data_address := Some (js "A");
              ServerClient.data_from := None; ServerClient.data_to := None;
              ServerClient.data_text := None; ServerClient.data_error := None;
              ServerClient.data_timestamp := None |} in
  let s := ServerClient.run [] ServerClient.initial in
  let s1 := ServerClient.step s
              (ServerClient.RegisterAddress (js "A") ServerClient.Sent) in
  let s2 := ServerClient.step s1
              (ServerClient.Inbound (Some (relay_frame "registered" d))) in
  ServerClient.promises s2 !! 0%nat = Some (ServerClient.Resolved None) /\
  ServerClient.timers s2 !! 0%nat = None /\
  listeners (js "registered") s2 = [] /\
  ServerClient.calls s2 =
    ServerClient.calls s
    ++ [(ServerClient.RegisteredHandler 0 (js "A"), ServerClient.ArgData d)] /\
  ServerClient.step s2 (ServerClient.Deadline 0) = s2.
Proof.
  intros d s s1 s2.
  refine (proj1 (proj2 (registerAddress_reply [] (js "A") d _)) _); reflexivity.
Defined.

Section Sending.
Import ServerClient.

Lemma sent_not_error : js "messageSent" <> js "messageError".
Proof. intros H. vm_compute in H. discriminate. Qed.

Lemma error_not_sent : js "messageError" <> js "messageSent".
Proof. intros H. vm_compute in H. discriminate. Qed.

(** The state a send leaves, when its two reply types had no listener
    before. *)
Lemma sendMessage_state sender recipient body s :
  buckets_ok s ->
  listeners (js "messageSent") s = [] -> listeners (js "messageError") s = [] ->
  let req := nextRequest s in
  let s1 := sendMessage sender recipient body Sent s in
  listeners (js "messageSent") s1 = [SuccessHandler req recipient] /\
  listeners (js "messageError") s1 = [ErrorHandler req recipient] /\
  promises s1 = promises s /\
  timers s1 = <[req := PendingSend recipient]> (timers s) /\
  calls s1 = calls s /\
  sent s1 = sent s ++ [message_frame sender recipient body] /\
  buckets_ok s1.
Proof.
  intros Hok Hls Hle req s1. unfold s1. rewrite sendMessage_unfold.
  cbn [send]. fold req.
  set (s0 := armed (PendingSend recipient) s).
  assert (Hok0 : buckets_ok s0) by by apply (buckets_ok_same s).
  assert (Hok1 : buckets_ok (on (js "messageSent") (SuccessHandler req recipient) s0))
    by by apply on_buckets_ok.
  assert (Hls0 : listeners (js "messageSent") s0 = [])
    by by rewrite (listeners_same _ s).
  assert (Hle0 : listeners (js "messageError") s0 = [])
    by by rewrite (listeners_same _ s).
  split; [|split; [|split; [|split; [|split; [|split]]]]].
  - rewrite (listeners_same _ (on (js "messageError") (ErrorHandler req recipient)
               (on (js "messageSent") (SuccessHandler req recipient) s0))) by done.
    rewrite listeners_on_other by (done || apply sent_not_error).
    by rewrite listeners_on, Hls0.
  - rewrite (listeners_same _ (on (js "messageError") (ErrorHandler req recipient)
               (on (js "messageSent") (SuccessHandler req recipient) s0))) by done.
    rewrite listeners_on.
    rewrite listeners_on_other by (done || apply error_not_sent).
    by rewrite Hle0.
  - cbn [log_sent promises]. by rewrite !on_promises.
  - cbn [log_sent timers]. by rewrite !on_timers.
  - cbn [log_sent calls]. by rewrite !on_calls.
  - cbn [log_sent sent]. by rewrite !on_sent.
  - eapply buckets_ok_same; [| | |by apply on_buckets_ok, Hok1]; done.
Qed.

Lemma failure_text_eq x :
  (if truthy (data_error (fields x))
   then default [] (data_error (fields x))
   else js "Failed to send message") = failure_text x.
Proof. unfold failure_text. by destruct (data_error (fields x)) as [[|c e]|]. Qed.

Lemma call_success_match req recipient d s :
  data_to d = Some recipient ->
  call (SuccessHandler req recipient) (ArgData d) s =
    settle req (Resolved (Some (ArgData d)))
      (finished req recipient (log_call (SuccessHandler req recipient) (ArgData d) s)).
Proof. intros Hd. unfold call. cbn [fields]. by rewrite bool_decide_eq_true_2. Qed.

Lemma call_success_other req recipient d s :
  data_to d <> Some recipient ->
  call (SuccessHandler req recipient) (ArgData d) s =
    log_call (SuccessHandler req recipient) (ArgData d) s.
Proof. intros Hd. unfold call. cbn [fields]. by rewrite bool_decide_eq_false_2. Qed.

Lemma call_error req recipient x s :
  call (ErrorHandler req recipient) x s =
    settle req (Rejected (SendFailed (failure_text x)))
      (finished req recipient (log_call (ErrorHandler req recipient) x s)).
Proof. unfold call. by rewrite failure_text_eq. Qed.

Lemma finished_state req recipient s :
  buckets_ok s ->
  listeners (js "messageSent") s = [SuccessHandler req recipient] ->
  listeners (js "messageError") s = [ErrorHandler req recipient] ->
  listeners (js "messageSent") (finished req recipient s) = [] /\
  listeners (js "messageError") (finished req recipient s) = [] /\
  timers (finished req recipient s) !! req = None /\
  promises (finished req recipient s) = promises s /\
  calls (finished req recipient s) = calls s.
Proof.
  intros Hok Hls Hle. unfold finished.
  set (s0 := clearTimeout req s).
  assert (Hok0 : buckets_ok s0) by by apply (buckets_ok_same s).
  assert (Hok1 : buckets_ok (off (js "messageSent") (SuccessHandler req recipient) s0))
    by by apply off_buckets_ok.
  split; [|split; [|split; [|split]]].
  - rewrite listeners_off_other by (done || apply sent_not_error).
    rewrite listeners_off, (listeners_same _ s) by done.
    rewrite Hls. apply spliced_single.
  - rewrite listeners_off.
    rewrite listeners_off_other by (done || apply error_not_sent).
    rewrite (listeners_same _ s) by done. rewrite Hle. apply spliced_single.
  - rewrite !off_timers. apply lookup_delete_eq.
  - by rewrite !off_promises.
  - by rewrite !off_calls.
Qed.

(** A frame of type [messageError] runs the listeners of the type; with
    data it runs them twice. *)
Lemma error_frame_notifies message s :
  type message = Some (js "messageError") ->
  handleWebSocketMessage message s =
    match data message with
    | Some d => notify (js "messageError") (ArgData d)
                  (notify (js "messageError") (ArgData d) s)
    | None => notify (js "messageError") (ArgMessage message) s
    end.
Proof.
  intros Ht. unfold handleWebSocketMessage, is_type. rewrite Ht.
  destruct (data message) as [d|]; literal_types; done.
Qed.

End Sending.

(** X20: a send issued in a reachable state where [messageSent] and
    [messageError] have no listener sends its frame and waits.  A
    [messageSent] reply for the recipient resolves it with the data of the
    reply; one for another recipient leaves it waiting.  A frame of type
    [messageError] rejects it, whatever the frame says and whoever it is
    about, with [data.error] or the default text.  Once settled, the
    deadline is cleared and both closures are unsubscribed. *)
Theorem sendMessage_reply
    (evs : list ServerClient.Event) (sender recipient body : jsstring) :
  let s := ServerClient.run evs ServerClient.initial in
  let req := ServerClient.nextRequest s in
  let s1 := ServerClient.step s
              (ServerClient.SendMessage sender recipient body ServerClient.Sent) in
  listeners (js "messageSent") s = [] ->
  listeners (js "messageError") s = [] ->
  (ServerClient.promises s1 !! req = None /\
   ServerClient.timers s1 !! req = Some (ServerClient.PendingSend recipient) /\
   ServerClient.sent s1 =
     ServerClient.sent s ++ [ServerClient.message_frame sender recipient body]) /\
  (forall d,
     let s2 := ServerClient.step s1
                 (ServerClient.Inbound (Some (relay_frame "messageSent" d))) in
     (ServerClient.data_to d = Some recipient ->
      ServerClient.promises s2 !! req
        = Some (ServerClient.Resolved (Some (ServerClient.ArgData d))) /\
      ServerClient.timers s2 !! req = None /\
      listeners (js "messageSent") s2 = [] /\
      listeners (js "messageError") s2 = []) /\
     (ServerClient.data_to d <> Some recipient ->
      ServerClient.promises s2 !! req = None /\
      ServerClient.timers s2 !! req = Some (ServerClient.PendingSend recipient) /\
      listeners (js "messageSent") s2 = [ServerClient.SuccessHandler req recipient] /\
      listeners (js "messageError") s2 = [ServerClient.ErrorHandler req recipient])) /\
  (forall message,
     ServerClient.type message = Some (js "messageError") ->
     let s2 := ServerClient.step s1 (ServerClient.Inbound (Some message)) in
     ServerClient.promises s2 !! req
       = Some (ServerClient.Rejected
                 (ServerClient.SendFailed (failure_text (data_or_message message)))) /\
     ServerClient.timers s2 !! req = None /\
     listeners (js "messageSent") s2 = [] /\
     listeners (js "messageError") s2 = []).
Proof.
  intros s req s1 Hls Hle.
  pose proof (next_request_pending evs) as Hpend. fold s in Hpend. fold req in Hpend.
  assert (Hok : buckets_ok s) by apply run_buckets_ok, initial_buckets_ok.
  destruct (sendMessage_state sender recipient body s Hok Hls Hle)
    as (Hls1 & Hle1 & Hp1 & Ht1 & Hc1 & Hs1 & Hok1).
  cbv zeta in Hls1, Hle1, Hp1, Ht1, Hc1, Hs1, Hok1.
  change (ServerClient.sendMessage sender recipient body ServerClient.Sent s) with s1
    in Hls1, Hle1, Hp1, Ht1, Hc1, Hs1, Hok1.
  fold req in Hls1, Hle1, Ht1.
  assert (Hfin : forall h x,
    let f := finished req recipient (ServerClient.log_call h x s1) in
    listeners (js "messageSent") f = [] /\ listeners (js "messageError") f = [] /\
    ServerClient.timers f !! req = None /\ ServerClient.promises f !! req = None).
  { intros h x f.
    destruct (finished_state req recipient (ServerClient.log_call h x s1))
      as (H1 & H2 & H3 & H4 & _).
    - by apply (buckets_ok_same s1).
    - by rewrite (listeners_same _ s1).
    - by rewrite (listeners_same _ s1).
    - repeat split; try done. unfold f. rewrite H4.
      cbn [ServerClient.log_call ServerClient.promises]. by rewrite Hp1. }
  split; [|split].
  - rewrite Hp1, Ht1, Hs1, lookup_insert_eq. done.
  - intros d s2.
    assert (Hs2 : s2 = ServerClient.notify (js "messageSent") (ServerClient.ArgData d)
                         (ServerClient.call (ServerClient.SuccessHandler req recipient)
                            (ServerClient.ArgData d) s1)).
    { unfold s2. cbn [ServerClient.step ServerClient.on_message].
      rewrite reply_notifies_twice by auto.
      by rewrite (notify_single _ _ (ServerClient.SuccessHandler req recipient) s1). }
    split; intros Hd.
    + rewrite call_success_match in Hs2 by done.
      destruct (Hfin (ServerClient.SuccessHandler req recipient) (ServerClient.ArgData d))
        as (H1 & H2 & H3 & H4).
      rewrite notify_none in Hs2 by (by rewrite listeners_settle).
      rewrite Hs2, settle_timers, !listeners_settle.
      split; [by apply settle_fresh | done].
    + rewrite call_success_other in Hs2 by done.
      rewrite (notify_single _ _ (ServerClient.SuccessHandler req recipient)) in Hs2
        by (by rewrite (listeners_same _ s1)).
      rewrite call_success_other in Hs2 by done.
      rewrite Hs2. cbn [ServerClient.log_call ServerClient.promises ServerClient.timers].
      rewrite Hp1, Ht1, lookup_insert_eq.
      split; [done|]. split; [done|].
      by rewrite !(listeners_same _ s1) by done.
  - intros message Ht s2.
    assert (Hs2 : s2 = ServerClient.call (ServerClient.ErrorHandler req recipient)
                         (data_or_message message) s1).
    { unfold s2, data_or_message. cbn [ServerClient.step ServerClient.on_message].
      rewrite error_frame_notifies by done.
      destruct (ServerClient.data message) as [d|].
      - rewrite (notify_single _ _ (ServerClient.ErrorHandler req recipient) s1) by done.
        rewrite call_error. apply notify_none. rewrite listeners_settle.
        apply Hfin.
      - by rewrite (notify_single _ _ (ServerClient.ErrorHandler req recipient) s1). }
    rewrite call_error in Hs2.
    destruct (Hfin (ServerClient.ErrorHandler req recipient) (data_or_message message))
      as (H1 & H2 & H3 & H4).
    rewrite Hs2, settle_timers, !listeners_settle.
    split; [by apply settle_fresh | done].
Qed.

Lemma sendMessage_reply_witness :
  let s := ServerClient.run [] ServerClient.initial in
  let s1 := ServerClient.step s
              (ServerClient.SendMessage (js "A") (js "B") (js "hi") ServerClient.Sent) in
  let message :=
    {| ServerClient.type := Some (js "messageError"); ServerClient.data := None;
       ServerClient.top := ServerClient.empty_object |} in
  let s2 := ServerClient.step s1 (ServerClient.Inbound (Some message)) in
  ServerClient.promises s2 !! 0%nat
    = Some (ServerClient.Rejected
              (ServerClient.SendFailed (js "Failed to send message"))) /\
  ServerClient.timers s2 !! 0%nat = None /\
  listeners (js "messageSent") s2 = [] /\
  listeners (js "messageError") s2 = [].
Proof.
  intros s s1 message s2.
  refine (proj2 (proj2 (sendMessage_reply [] (js "A") (js "B") (js "hi") _ _))
            message _); reflexivity.
Defined.

(** * The connection, beyond the specification *)

Section Sockets.
Import Connection.

Lemma moved_refl s : moved s s.
Proof. left. auto. Qed.

(** A step that constructs nothing, then a move. *)
Lemma moved_after s s0 s' :
  attempts s0 = attempts s ->
  wsConnection s0 = None \/ wsConnection s0 = wsConnection s ->
  moved s0 s' -> moved s s'.
Proof.
  intros Ha Hw [[Ha' Hw'] | [Ha' Hw']].
  - left. split; [congruence|]. destruct Hw' as [? | Hw']; [by left|].
    rewrite Hw'. done.
  - right. split; congruence.
Qed.

Lemma connectWebSocket_moved s : moved s (connectWebSocket s).2.
Proof.
  right. destruct (connectWebSocket_attempts s) as [Ha _].
  destruct (connectWebSocket_spec s) as (Hw & _). done.
Qed.

Lemma try_connect_moved s : moved s (try_connect s).2.
Proof.
  rewrite try_connect_eq. destruct (connecting s); [apply moved_refl|].
  apply (moved_after s (set_connecting true s)); [done | by right|].
  apply connectWebSocket_moved.
Qed.

Lemma after_loop_moved s : moved s (after_loop s).2.
Proof.
  unfold after_loop. destruct (is_open s); [apply try_connect_moved|].
  apply (moved_after s (set_connecting false s)); [done | by right|].
  apply try_connect_moved.
Qed.

Lemma close_moved c s :
  attempts (close c s) = attempts s /\ wsConnection (close c s) = wsConnection s.
Proof.
  split; [apply close_session | apply close_fields].
Qed.

Lemma resolve_moved j s :
  attempts (resolve j s) = attempts s /\ wsConnection (resolve j s) = wsConnection s.
Proof. unfold attempts. by destruct (resolve_fields j s) as (-> & _ & -> & _). Qed.

Lemma reject_moved j s :
  attempts (reject j s) = attempts s /\ wsConnection (reject j s) = wsConnection s.
Proof. unfold attempts. by destruct (reject_fields j s) as (-> & _ & ->). Qed.

Lemma insert_attempts j st s :
  attempts (set_sockets (<[j := st]> (sockets s)) s) = attempts s.
Proof. unfold attempts. simpl. apply length_insert. Qed.

Lemma on_open_moved j s :
  attempts (on_open j s) = attempts s /\ wsConnection (on_open j s) = wsConnection s.
Proof.
  unfold on_open. destruct (resolve_moved j
    (if is_open (set_connecting false (clearTimeout j s))
     then set_pingInterval true (set_connecting false (clearTimeout j s))
     else set_connecting false (clearTimeout j s))) as [-> ->].
  by destruct (is_open _).
Qed.

Lemma on_error_moved j s :
  attempts (on_error j s) = attempts s /\ wsConnection (on_error j s) = wsConnection s.
Proof.
  unfold on_error. destruct (is_not_open _); [|done].
  by destruct (reject_moved j (set_connecting false (clearTimeout j s))) as [-> ->].
Qed.

Lemma on_close_moved j s :
  attempts (on_close j s) = attempts s /\ wsConnection (on_close j s) = None.
Proof. unfold on_close. simpl. by destruct (isTTY s). Qed.

Lemma on_timeout_moved j s :
  attempts (on_timeout j s) = attempts s /\
  (wsConnection (on_timeout j s) = None \/
   wsConnection (on_timeout j s) = wsConnection s).
Proof.
  unfold on_timeout. destruct (is_not_open s); [|auto].
  match goal with |- context [reject j ?x] =>
    destruct (reject_moved j x) as [-> ->] end.
  split; [|by left]. simpl. destruct (wsConnection s) as [c|]; [|done].
  apply (close_moved c (set_connecting false s)).
Qed.

Lemma closeWebSocket_moved s :
  attempts (closeWebSocket s) = attempts s /\ wsConnection (closeWebSocket s) = None.
Proof.
  unfold closeWebSocket. simpl. destruct (wsConnection s) as [c|] eqn:Hc; [|done].
  split; [|done]. apply (close_moved c (set_pingInterval false s)).
Qed.

Lemma moved_callers s s' l : moved s s' -> moved s (set_callers l s').
Proof. done. Qed.

Lemma ensureConnected_start_moved s : moved s (ensureConnected_start s).2.
Proof.
  unfold ensureConnected_start.
  destruct (is_open s); [apply moved_refl|].
  destruct (connecting s); [apply moved_refl | apply try_connect_moved].
Qed.

Lemma ensureConnected_poll_moved i s : moved s (ensureConnected_poll i s).2.
Proof.
  unfold ensureConnected_poll.
  destruct (is_open s); [apply moved_refl|].
  destruct (negb (connecting s)); [apply after_loop_moved|].
  destruct (S i <? 20)%nat; [apply moved_refl | apply after_loop_moved].
Qed.

(** Every turn of the event loop constructs at most one socket, and only
    on an event that can reach [new WebSocket]. *)
Lemma step_moved s e :
  moved s (step s e) /\
  (opens e = false -> attempts (step s e) = attempts s).
Proof.
  destruct e; cbn [step opens].
  - split; [|done]. pose proof (ensureConnected_start_moved s) as Hm.
    destruct (ensureConnected_start s) as [c s']. by apply moved_callers.
  - split; [apply connectWebSocket_moved | done].
  - split; [|done]. destruct (callers s !! caller) as [[i | | |]|];
      try apply moved_refl.
    pose proof (ensureConnected_poll_moved i s) as Hm.
    destruct (ensureConnected_poll i s) as [c s']. by apply moved_callers.
  - assert (H : attempts (step s (Open socket)) = attempts s /\
                wsConnection (step s (Open socket)) = wsConnection s).
    { cbn [step]. destruct (readyState socket s) as [[| | |]|]; try done.
      destruct (on_open_moved socket
                  (set_sockets (<[socket := OPEN]> (sockets s)) s)) as [-> ->].
      split; [apply insert_attempts | done]. }
    cbn [step] in H. destruct H as [Ha Hw]. split; [|done]. left. auto.
  - assert (H : attempts (step s (Error socket)) = attempts s /\
                wsConnection (step s (Error socket)) = wsConnection s).
    { cbn [step]. destruct (readyState socket s) as [[| | |]|]; try done;
        destruct (on_error_moved socket
                    (set_sockets (<[socket := CLOSING]> (sockets s)) s)) as [-> ->];
        (split; [apply insert_attempts | done]). }
    cbn [step] in H. destruct H as [Ha Hw]. split; [|done]. left. auto.
  - assert (H : attempts (step s (Close socket)) = attempts s /\
                (wsConnection (step s (Close socket)) = None \/
                 wsConnection (step s (Close socket)) = wsConnection s)).
    { cbn [step]. destruct (readyState socket s) as [[| | |]|]; try (by auto);
        destruct (on_close_moved socket
                    (set_sockets (<[socket := CLOSED]> (sockets s)) s)) as [-> ->];
        (split; [apply insert_attempts | by left]). }
    cbn [step] in H. destruct H as [Ha Hw]. split; [|done]. left. auto.
  - case_bool_decide; [|split; [apply moved_refl | done]].
    destruct (on_timeout_moved socket (clearTimeout socket s)) as [Ha Hw].
    split; [|done]. left. auto.
  - split; [|done]. destruct (reconnectTimers s) as [|n]; [apply moved_refl|].
    unfold on_reconnect.
    destruct (match wsConnection _ with Some _ => _ | None => _ end).
    + apply (moved_after s (set_reconnectTimers n s)); [done | by right|].
      apply connectWebSocket_moved.
    + left. auto.
  - destruct (closeWebSocket_moved s) as [Ha Hw]. split; [|done]. left. auto.
Qed.

Lemma run_attempts evs s :
  (attempts s <= attempts (run evs s) <= attempts s + length (List.filter opens evs))%nat.
Proof.
  revert s. induction evs as [|e evs IH]; intros s; simpl; [lia|].
  specialize (IH (step s e)).
  destruct (step_moved s e) as [Hm Hno].
  destruct (opens e) eqn:He; simpl.
  - destruct Hm as [[Ha _] | [Ha _]]; lia.
  - rewrite Hno in IH by done. lia.
Qed.

End Sockets.

(** X21: the sockets constructed during a run are at most as many as its
    events that can reach [new WebSocket] (calls of [ensureConnected] and
    [connectWebSocket], turns of the wait loop, reconnection timers); the
    events of the sockets themselves, their set-up timers and
    [closeWebSocket] construct none, and none is ever forgotten. *)
Theorem attempts_bounded_by_requests
    (evs : list Connection.Event) (s : Connection.Session) :
  (Connection.attempts s <= Connection.attempts (Connection.run evs s)
   <= Connection.attempts s + length (List.filter opens evs))%nat /\
  (forall e, opens e = false ->
     Connection.attempts (Connection.step s e) = Connection.attempts s) /\
  (forall e, Connection.attempts (Connection.step s e) = Connection.attempts s \/
             Connection.attempts (Connection.step s e) = S (Connection.attempts s)).
Proof.
  split; [apply run_attempts|]. split.
  - intros e. apply step_moved.
  - intros e. destruct (step_moved s e) as [[[Ha _] | [Ha _]] _]; auto.
Qed.

(** ** A request that waits for ever *)

Section Stuck.
Import Connection.

Lemma stuck_fields c j s s' :
  stuck c j s ->
  callers s' !! c = callers s !! c ->
  connectPromises s' !! j = connectPromises s !! j ->
  readyState j s' = readyState j s ->
  (j ∈ setupTimers s' -> j ∈ setupTimers s) ->
  stuck c j s'.
Proof.
  intros [Hc Hp Hst Ht] Ec Ep Est Et.
  split; [congruence | congruence | congruence | auto].
Qed.

(** A state that differs in other fields only. *)
Ltac stuck_same H := apply (stuck_fields _ _ _ _ H); done.

Lemma set_sockets_stuck c j i st s :
  i <> j -> stuck c j s -> stuck c j (set_sockets (<[i := st]> (sockets s)) s).
Proof.
  intros Hne Hs. apply (stuck_fields c j s); try done.
  unfold readyState. cbn. by apply list_lookup_insert_ne.
Qed.

Lemma close_stuck c j c' s : stuck c j s -> stuck c j (close c' s).
Proof.
  intros Hs. pose proof (stuck_closed _ _ _ Hs) as Hj. unfold close.
  destruct (readyState c' s) as [[| | |]|] eqn:Hc'; try done;
    (apply set_sockets_stuck; [|done]; intros ->; congruence).
Qed.

Lemma clearTimeout_stuck c j i s : stuck c j s -> stuck c j (clearTimeout i s).
Proof.
  intros Hs. apply (stuck_fields c j s); try done.
  cbn. by intros [? _]%elem_of_difference.
Qed.

Lemma resume_other i j ok : i <> j -> resume i ok (Awaiting j) = Awaiting j.
Proof.
  intros Hne. unfold resume. rewrite bool_decide_eq_false_2; [done|].
  intros [= ->]. done.
Qed.

Lemma resolve_stuck c j i s : i <> j -> stuck c j s -> stuck c j (resolve i s).
Proof.
  intros Hne Hs. unfold resolve. destruct (connectPromises s !! i); [done|].
  apply (stuck_fields c j s); try done; cbn.
  - rewrite list_lookup_fmap, (stuck_caller _ _ _ Hs). cbn.
    by rewrite resume_other.
  - by apply lookup_insert_ne.
Qed.

Lemma reject_stuck c j i s : i <> j -> stuck c j s -> stuck c j (reject i s).
Proof.
  intros Hne Hs. unfold reject. destruct (connectPromises s !! i); [done|].
  case_bool_decide; apply (stuck_fields c j s); try done; cbn;
    try by apply lookup_insert_ne.
  rewrite list_lookup_fmap, (stuck_caller _ _ _ Hs). cbn.
  by rewrite resume_other.
Qed.

Lemma connectWebSocket_stuck c j s : stuck c j s -> stuck c j (connectWebSocket s).2.
Proof.
  intros Hs. unfold connectWebSocket.
  set (s0 := match wsConnection s with
             | Some c' => set_wsConnection None (close c' s)
             | None => s
             end).
  assert (Hs0 : stuck c j s0).
  { unfold s0. destruct (wsConnection s) as [c'|]; [|done].
    apply (close_stuck c j c' s) in Hs. stuck_same Hs. }
  clearbody s0.
  assert (Hlt : (j < length (sockets s0))%nat)
    by (eapply lookup_lt_Some, (stuck_closed _ _ _ Hs0)).
  apply (stuck_fields c j s0); try done; cbn.
  - unfold readyState. cbn. by apply lookup_app_l.
  - intros [Hj%elem_of_singleton | Hj]%elem_of_union; [lia | done].
Qed.

Lemma on_open_stuck c j i s : i <> j -> stuck c j s -> stuck c j (on_open i s).
Proof.
  intros Hne Hs. unfold on_open. apply resolve_stuck; [done|].
  apply (clearTimeout_stuck c j i) in Hs. destruct (is_open _); stuck_same Hs.
Qed.

Lemma on_error_stuck c j i s : i <> j -> stuck c j s -> stuck c j (on_error i s).
Proof.
  intros Hne Hs. unfold on_error. apply (clearTimeout_stuck c j i) in Hs.
  destruct (is_not_open _); [apply reject_stuck; [done|] |]; stuck_same Hs.
Qed.

Lemma on_close_stuck c j i s : stuck c j s -> stuck c j (on_close i s).
Proof.
  intros Hs. unfold on_close. apply (clearTimeout_stuck c j i) in Hs.
  destruct (_ && _); stuck_same Hs.
Qed.

Lemma on_timeout_stuck c j i s : i <> j -> stuck c j s -> stuck c j (on_timeout i s).
Proof.
  intros Hne Hs. unfold on_timeout. destruct (is_not_open s); [|done].
  apply reject_stuck; [done|]. cbn.
  destruct (wsConnection s) as [c'|]; [|stuck_same Hs].
  assert (Hs' : stuck c j (set_connecting false s)) by stuck_same Hs.
  apply (close_stuck c j c') in Hs'. stuck_same Hs'.
Qed.

Lemma try_connect_stuck c j s : stuck c j s -> stuck c j (try_connect s).2.
Proof.
  intros Hs. rewrite try_connect_eq. destruct (connecting s); [done|].
  apply (connectWebSocket_stuck c j (set_connecting true s)). stuck_same Hs.
Qed.

Lemma after_loop_stuck c j s : stuck c j s -> stuck c j (after_loop s).2.
Proof.
  intros Hs. unfold after_loop. apply try_connect_stuck.
  destruct (is_open s); stuck_same Hs.
Qed.

Lemma ensureConnected_start_stuck c j s :
  stuck c j s -> stuck c j (ensureConnected_start s).2.
Proof.
  intros Hs. unfold ensureConnected_start. destruct (is_open s); [done|].
  destruct (connecting s) eqn:Hc; [done | by apply try_connect_stuck].
Qed.

Lemma ensureConnected_poll_stuck c j i s :
  stuck c j s -> stuck c j (ensureConnected_poll i s).2.
Proof.
  intros Hs. unfold ensureConnected_poll. destruct (is_open s); [done|].
  destruct (negb (connecting s)); [by apply after_loop_stuck|].
  destruct (S i <? 20)%nat; [done | by apply after_loop_stuck].
Qed.

(** Nothing settles the promise of a socket that has closed with its timer
    cleared: the request that awaits it is left where it is by every turn
    of the event loop. *)
Lemma step_stuck c j s e : stuck c j s -> stuck c j (step s e).
Proof.
  intros Hs. pose proof Hs as [Hc Hp Hst Ht]. destruct e; cbn [step].
  - pose proof (ensureConnected_start_stuck c j s Hs) as Hs'.
    destruct (ensureConnected_start s) as [c' s']. cbn [snd] in Hs'.
    apply (stuck_fields c j s'); try done. cbn.
    apply lookup_app_l. eapply lookup_lt_Some, (stuck_caller _ _ _ Hs').
  - by apply connectWebSocket_stuck.
  - destruct (callers s !! caller) as [[i | | |]|] eqn:Hcaller; try done.
    pose proof (ensureConnected_poll_stuck c j i s Hs) as Hs'.
    destruct (ensureConnected_poll i s) as [c' s']. cbn [snd] in Hs'.
    apply (stuck_fields c j s'); try done. cbn.
    apply list_lookup_insert_ne. intros ->. congruence.
  - destruct (readyState socket s) as [[| | |]|] eqn:Hsock; try done.
    assert (socket <> j) by (intros ->; congruence).
    by apply on_open_stuck, set_sockets_stuck.
  - destruct (readyState socket s) as [[| | |]|] eqn:Hsock; try done;
      (assert (socket <> j) by (intros ->; congruence));
      by apply on_error_stuck, set_sockets_stuck.
  - destruct (readyState socket s) as [[| | |]|] eqn:Hsock; try done;
      (assert (socket <> j) by (intros ->; congruence));
      by apply on_close_stuck, set_sockets_stuck.
  - case_bool_decide as Hin; [|done].
    assert (socket <> j) by (intros ->; done).
    by apply on_timeout_stuck, clearTimeout_stuck.
  - destruct (reconnectTimers s) as [|n]; [done|]. unfold on_reconnect.
    destruct (match wsConnection _ with Some _ => _ | None => _ end).
    + apply (connectWebSocket_stuck c j (set_reconnectTimers n s)). stuck_same Hs.
    + stuck_same Hs.
  - unfold closeWebSocket. cbn.
    destruct (wsConnection s) as [c'|]; [|stuck_same Hs].
    assert (Hs' : stuck c j (set_pingInterval false s)) by stuck_same Hs.
    apply (close_stuck c j c') in Hs'. stuck_same Hs'.
Qed.

Lemma run_stuck c j evs s : stuck c j s -> stuck c j (run evs s).
Proof.
  revert s. induction evs as [|e evs IH]; intros s Hs; [done|].
  cbn. by apply IH, step_stuck.
Qed.

Lemma relay_down_stuck : stuck 1 2 relay_down.
Proof.
  split; [by vm_compute | by vm_compute | by vm_compute |].
  apply (bool_decide_unpack _). by vm_compute.
Qed.

End Stuck.

Section Unserved.
Import ServerClient.

(** A call that stays at its [await] leaves a request that nothing
    settles: it has no timer and no listener. *)
Lemma stalled_quiet call s :
  registry_ok s -> transport_of call = Some Stalled ->
  step s call = new_request s /\ quiet (nextRequest s) (new_request s).
Proof.
  intros [Hb Ha Ho Ht] Hcall. split.
  - by destruct call; simpl in *; try done; injection Hcall as ->.
  - split; [simpl; lia|]. split.
    + simpl. destruct (timers s !! nextRequest s) eqn:E; [|done].
      apply Ht in E. lia.
    + intros h (a & l & Hl & Hh) Hown. simpl in Hl.
      destruct (Ho _ _ _ _ Hl Hh Hown) as (Hr & _). lia.
Qed.

Lemma stalled_unanswered call evs0 evs' :
  transport_of call = Some Stalled ->
  let s0 := run evs0 initial in
  let s1 := step s0 call in
  nextRequest s1 = S (nextRequest s0) /\
  unanswered (nextRequest s0) s0 (run evs' s1).
Proof.
  intros Hcall s0 s1.
  assert (Hreg : registry_ok s0) by apply run_ok, initial_ok.
  destruct (stalled_quiet call s0 Hreg Hcall) as [Hstep Hq].
  destruct (run_undisturbed (nextRequest s0) evs' _ Hq)
    as ((_ & Ht & Habs) & Hprom & Hcalls).
  unfold s1. rewrite Hstep. split; [done|].
  split; [|done]. rewrite Hprom. cbn. apply next_request_pending.
Qed.

End Unserved.

(** C5, where the connection is lost while it is being replaced: in an
    interactive session the relay goes down, the reconnection timer starts
    a socket, and an awaitable send is called while that socket is
    connecting.  Its [ensureConnected] replaces the socket and awaits the
    new one; the [close] event of the replaced socket drops the current
    connection, so that the failure of the new socket rejects nothing.
    [ensureConnected] then awaits in every later state, and the call of
    [registerAddress] or [sendMessage] that awaits it, which has taken its
    request number, gets no outcome: no success, no timeout, no error, in
    any later state; it has no deadline and no listener. *)
Theorem registerAddress_never_settles :
  forall (evs : list Connection.Event) (sends : bool)
         (evs0 evs' : list ServerClient.Event),
    let c := Connection.Awaiting 2 in
    Connection.callers (Connection.run evs relay_down) !! 1%nat = Some c /\
    let s0 := ServerClient.run evs0 ServerClient.initial in
    let req := ServerClient.nextRequest s0 in
    (let s1 := ServerClient.step s0
                 (ServerClient.RegisterAddress (js "A") (served c sends)) in
     ServerClient.nextRequest s1 = S req /\
     unanswered req s0 (ServerClient.run evs' s1)) /\
    (let s1 := ServerClient.step s0
                 (ServerClient.SendMessage (js "A") (js "B") (js "hi")
                    (served c sends)) in
     ServerClient.nextRequest s1 = S req /\
     unanswered req s0 (ServerClient.run evs' s1)).
Proof.
  intros evs sends evs0 evs' c.
  pose proof (run_stuck 1 2 evs relay_down relay_down_stuck) as [Hc _ _ _].
  split; [exact Hc|]. split; by apply stalled_unanswered.
Qed.

(** X32: a request that awaits a socket whose promise is pending gets no
    answer once the current connection has been dropped: with
    [wsConnection] unset, the set-up timer of the socket and its [error]
    event reject nothing, their guards reading the current connection and
    not the socket; and once the socket has closed with its timer cleared,
    the request awaits it in every later state, whatever happens. *)
Theorem request_waits_forever (s : Connection.Session) (c j : nat) :
  Connection.callers s !! c = Some (Connection.Awaiting j) ->
  Connection.connectPromises s !! j = None ->
  (Connection.wsConnection s = None ->
   forall e, e = Connection.SetupTimeout j \/ e = Connection.Error j ->
     Connection.callers (Connection.step s e) !! c
       = Some (Connection.Awaiting j) /\
     Connection.connectPromises (Connection.step s e) !! j = None /\
     Connection.wsConnection (Connection.step s e) = None) /\
  (Connection.readyState j s = Some Connection.CLOSED ->
   j ∉ Connection.setupTimers s ->
   forall evs,
     Connection.callers (Connection.run evs s) !! c
       = Some (Connection.Awaiting j) /\
     Connection.connectPromises (Connection.run evs s) !! j = None).
Proof.
  intros Hc Hp. split.
  - intros Hw e [-> | ->]; cbn [Connection.step].
    + case_bool_decide; [|done].
      unfold Connection.on_timeout, Connection.is_not_open.
      cbn [Connection.wsConnection Connection.clearTimeout
           Connection.set_setupTimers]. by rewrite Hw.
    + assert (Hgo : forall st,
                let s' := Connection.on_error j
                  (Connection.set_sockets (<[j := st]> (Connection.sockets s)) s) in
                Connection.callers s' !! c = Some (Connection.Awaiting j) /\
                Connection.connectPromises s' !! j = None /\
                Connection.wsConnection s' = None).
      { intros st. unfold Connection.on_error, Connection.is_not_open.
        cbn [Connection.wsConnection Connection.clearTimeout
             Connection.set_setupTimers Connection.set_connecting
             Connection.set_sockets]. by rewrite Hw. }
      destruct (Connection.readyState j s) as [[| | |]|]; try done; apply Hgo.
  - intros Hst Ht evs.
    by destruct (run_stuck c j evs s (Build_stuck c j s Hc Hp Hst Ht)).
Qed.

Lemma request_waits_forever_witness :
  Connection.readyState 2 relay_down = Some Connection.CLOSED /\
  forall evs,
    Connection.callers (Connection.run evs relay_down) !! 1%nat
      = Some (Connection.Awaiting 2) /\
    Connection.connectPromises (Connection.run evs relay_down) !! 2%nat = None.
Proof.
  split; [reflexivity|].
  refine (proj2 (request_waits_forever relay_down 1 2 _ _) _ _).
  - reflexivity.
  - reflexivity.
  - reflexivity.
  - apply (bool_decide_unpack _). vm_compute. exact I.
Defined.

(** ** Sockets that close *)

Section Closing.
Import Connection.

(** The socket that [connectWebSocket] constructs, and what it leaves of
    the one it replaces. *)
Lemma connectWebSocket_shape s :
  exists l,
    length l = attempts s /\
    sockets (connectWebSocket s).2 = l ++ [CONNECTING] /\
    (forall c, wsConnection s = Some c ->
       (readyState c s = Some CONNECTING \/ readyState c s = Some OPEN) ->
       l !! c = Some CLOSING) /\
    wsConnection (connectWebSocket s).2 = Some (attempts s) /\
    setupTimers (connectWebSocket s).2 = {[attempts s]} ∪ setupTimers s /\
    connecting (connectWebSocket s).2 = connecting s /\
    connectPromises (connectWebSocket s).2 = connectPromises s /\
    callers (connectWebSocket s).2 = callers s /\
    reconnectTimers (connectWebSocket s).2 = reconnectTimers s /\
    isTTY (connectWebSocket s).2 = isTTY s.
Proof.
  unfold connectWebSocket, attempts. destruct (wsConnection s) as [c|] eqn:Hc.
  - exists (sockets (close c s)). cbn.
    rewrite close_length. split; [done|]. split; [done|]. split.
    + intros c' [= <-] Hst. unfold close.
      assert (c < length (sockets s))%nat
        by (destruct Hst as [Hst | Hst]; by eapply lookup_lt_Some).
      destruct Hst as [-> | ->]; cbn; by apply list_lookup_insert_eq.
    + unfold close. by destruct (readyState c s) as [[| | |]|].
  - exists (sockets s). cbn. repeat split; done.
Qed.

Lemma on_close_fields j s :
  sockets (on_close j s) = sockets s /\ wsConnection (on_close j s) = None /\
  connecting (on_close j s) = false /\ pingInterval (on_close j s) = false /\
  callers (on_close j s) = callers s /\
  reconnectTimers (on_close j s) =
    (if isTTY s then S (reconnectTimers s) else reconnectTimers s) /\
  isTTY (on_close j s) = isTTY s.
Proof. unfold on_close. cbn. destruct (isTTY s) eqn:Ht; repeat split; by cbn. Qed.

(** The [close] event of a live socket. *)
Lemma step_close j s :
  live j s ->
  step s (Close j) = on_close j (set_sockets (<[j := CLOSED]> (sockets s)) s).
Proof.
  intros (st & Hst & Hne). cbn [step]. rewrite Hst. by destruct st.
Qed.

(** With no current connection, the reconnection timer constructs a
    socket. *)
Lemma step_reconnect n s :
  reconnectTimers s = S n -> wsConnection s = None ->
  step s Reconnect = (connectWebSocket (set_reconnectTimers n s)).2.
Proof.
  intros Hn Hw. cbn [step]. rewrite Hn. unfold on_reconnect.
  cbn [wsConnection set_reconnectTimers]. by rewrite Hw.
Qed.

(** With no connection open and the flag down, [ensureConnected]
    constructs a socket. *)
Lemma ensureConnected_connects s :
  is_open s = false -> connecting s = false ->
  attempts (step s EnsureConnected) = S (attempts s).
Proof.
  intros Ho Hc. cbn [step]. unfold ensureConnected_start.
  rewrite Ho, Hc, try_connect_eq, Hc.
  change (attempts (set_callers _ ?x)) with (attempts x).
  apply (connectWebSocket_attempts (set_connecting true s)).
Qed.

End Closing.

(** X23: the [close] event of a socket, whichever socket it is, drops the
    current connection, the keepalive and the [connecting] flag.  In an
    interactive session it arms one reconnection timer, and that timer
    constructs one new socket and makes it current; otherwise it arms none. *)
Theorem close_schedules_one_reconnect (socket : nat) (s : Connection.Session) :
  live socket s ->
  let s1 := Connection.step s (Connection.Close socket) in
  (Connection.readyState socket s1 = Some Connection.CLOSED /\
   Connection.wsConnection s1 = None /\
   Connection.connecting s1 = false /\ Connection.pingInterval s1 = false /\
   Connection.attempts s1 = Connection.attempts s /\
   Connection.reconnectTimers s1 =
     if Connection.isTTY s then S (Connection.reconnectTimers s)
     else Connection.reconnectTimers s) /\
  (Connection.isTTY s = true ->
   let s2 := Connection.step s1 Connection.Reconnect in
   Connection.attempts s2 = S (Connection.attempts s) /\
   Connection.wsConnection s2 = Some (Connection.attempts s) /\
   Connection.readyState (Connection.attempts s) s2 = Some Connection.CONNECTING /\
   Connection.reconnectTimers s2 = Connection.reconnectTimers s) /\
  (Connection.isTTY s = false -> Connection.reconnectTimers s = 0%nat ->
   Connection.step s1 Connection.Reconnect = s1).
Proof.
  intros Hlive s1.
  assert (Hj : (socket < length (Connection.sockets s))%nat).
  { destruct Hlive as (st & Hst & _). by eapply lookup_lt_Some. }
  assert (Hs1 : s1 = Connection.on_close socket
                  (Connection.set_sockets
                     (<[socket := Connection.CLOSED]> (Connection.sockets s)) s))
    by by apply step_close.
  destruct (on_close_fields socket
              (Connection.set_sockets
                 (<[socket := Connection.CLOSED]> (Connection.sockets s)) s))
    as (Hso & Hw & Hc & Hp & _ & Hr & Ht).
  rewrite <- Hs1 in Hso, Hw, Hc, Hp, Hr, Ht.
  cbn [Connection.set_sockets Connection.sockets Connection.isTTY
       Connection.reconnectTimers] in Hso, Hr, Ht.
  assert (Ha : Connection.attempts s1 = Connection.attempts s).
  { unfold Connection.attempts. by rewrite Hso, length_insert. }
  split; [|split].
  - unfold Connection.readyState. rewrite Hso.
    by rewrite list_lookup_insert_eq.
  - intros Htty s2. rewrite Htty in Hr.
    assert (Hs2 : s2 = (Connection.connectWebSocket
                          (Connection.set_reconnectTimers
                             (Connection.reconnectTimers s) s1)).2)
      by by apply step_reconnect.
    set (s1' := Connection.set_reconnectTimers (Connection.reconnectTimers s) s1)
      in Hs2.
    destruct (connectWebSocket_attempts s1') as [Ha2 _].
    destruct (connectWebSocket_spec s1') as (Hw2 & Hst2 & _).
    destruct (connectWebSocket_shape s1') as (l & _ & _ & _ & _ & _ & _ & _ & _ & Hr2 & _).
    rewrite <- Hs2 in Ha2, Hw2, Hst2, Hr2.
    change (Connection.attempts s1') with (Connection.attempts s1) in Ha2, Hw2, Hst2.
    rewrite Ha in Ha2, Hw2, Hst2. done.
  - intros Htty Hzero. rewrite Htty, Hzero in Hr.
    cbn [Connection.step]. by rewrite Hr.
Qed.

Lemma close_schedules_one_reconnect_witness :
  let s := Connection.run [Connection.ConnectWebSocket; Connection.Open 0]
             (Connection.initial true) in
  let s2 := Connection.run [Connection.Close 0; Connection.Reconnect] s in
  Connection.attempts s2 = 2%nat /\
  Connection.wsConnection s2 = Some 1%nat /\
  Connection.readyState 1 s2 = Some Connection.CONNECTING /\
  Connection.reconnectTimers s2 = 0%nat.
Proof.
  intros s s2.
  refine (proj1 (proj2 (close_schedules_one_reconnect 0 s _)) _).
  - exists Connection.OPEN. split; [reflexivity | discriminate].
  - reflexivity.
Defined.

(** X24: [connectWebSocket] on a live connection closes it and constructs
    its replacement; when the replacement has opened and the [close] event
    of the replaced socket arrives, its listener drops the reference to the
    replacement, which stays open: the client holds no connection, and the
    next [ensureConnected] constructs a third socket. *)
Theorem stale_close_drops_replacement (c : nat) (s : Connection.Session) :
  Connection.wsConnection s = Some c ->
  (Connection.readyState c s = Some Connection.CONNECTING \/
   Connection.readyState c s = Some Connection.OPEN) ->
  let k := Connection.attempts s in
  let s3 := Connection.run
              [Connection.ConnectWebSocket; Connection.Open k; Connection.Close c] s in
  Connection.readyState c s3 = Some Connection.CLOSED /\
  Connection.readyState k s3 = Some Connection.OPEN /\
  Connection.wsConnection s3 = None /\
  Connection.is_open s3 = false /\
  Connection.pingInterval s3 = false /\
  Connection.attempts s3 = S k /\
  Connection.attempts (Connection.step s3 Connection.EnsureConnected) = S (S k).
Proof.
  intros Hc Hst k s3.
  assert (Hck : (c < k)%nat)
    by (destruct Hst as [Hst | Hst]; by eapply lookup_lt_Some).
  unfold s3, Connection.run. cbn [foldl].
  change (Connection.step s Connection.ConnectWebSocket)
    with (Connection.connectWebSocket s).2.
  destruct (connectWebSocket_shape s)
    as (l & Hlen & Hso & Hold & Hw & _).
  specialize (Hold c Hc Hst).
  generalize dependent (Connection.connectWebSocket s).2. intros s1 Hso Hw.
  fold k in Hlen, Hw.
  (* the replacement opens *)
  assert (Hk1 : Connection.readyState k s1 = Some Connection.CONNECTING).
  { unfold Connection.readyState. rewrite Hso. by apply list_lookup_middle. }
  set (s2 := Connection.step s1 (Connection.Open k)).
  assert (H2 : Connection.sockets s2 = <[k := Connection.OPEN]> (l ++ [Connection.CONNECTING])
               /\ Connection.wsConnection s2 = Some k).
  { unfold s2. cbn [Connection.step]. rewrite Hk1. unfold Connection.on_open.
    match goal with |- context [Connection.resolve k ?x] =>
      destruct (resolve_fields k x) as (-> & _ & -> & _) end.
    destruct (Connection.is_open _); cbn; by rewrite Hso, Hw. }
  destruct H2 as [Hso2 Hw2]. clearbody s2.
  (* the close event of the replaced socket *)
  assert (Hc2 : Connection.readyState c s2 = Some Connection.CLOSING).
  { unfold Connection.readyState. rewrite Hso2.
    rewrite list_lookup_insert_ne by lia. by rewrite lookup_app_l by lia. }
  assert (Hlive : live c s2) by by exists Connection.CLOSING.
  rewrite (step_close c s2 Hlive).
  destruct (on_close_fields c
              (Connection.set_sockets
                 (<[c := Connection.CLOSED]> (Connection.sockets s2)) s2))
    as (Hso3 & Hw3 & Hf3 & Hp3 & _).
  generalize dependent (Connection.on_close c
    (Connection.set_sockets (<[c := Connection.CLOSED]> (Connection.sockets s2)) s2)).
  intros s3' Hso3 Hw3 Hf3 Hp3.
  cbn [Connection.set_sockets Connection.sockets] in Hso3.
  assert (Ha3 : Connection.attempts s3' = S k).
  { unfold Connection.attempts. rewrite Hso3, Hso2, !length_insert, length_app.
    simpl. lia. }
  assert (Ho3 : Connection.is_open s3' = false).
  { unfold Connection.is_open. by rewrite Hw3. }
  split; [|split; [|split; [|split; [|split; [|split]]]]]; try done.
  - unfold Connection.readyState. rewrite Hso3, Hso2.
    apply list_lookup_insert_eq. rewrite length_insert, length_app. simpl. lia.
  - unfold Connection.readyState. rewrite Hso3, Hso2.
    rewrite list_lookup_insert_ne by lia.
    apply list_lookup_insert_eq. rewrite length_app. simpl. lia.
  - rewrite ensureConnected_connects by done. by rewrite Ha3.
Qed.

Lemma stale_close_drops_replacement_witness :
  let s := Connection.run [Connection.ConnectWebSocket; Connection.Open 0]
             (Connection.initial false) in
  let s3 := Connection.run
              [Connection.ConnectWebSocket; Connection.Open 1; Connection.Close 0] s in
  Connection.readyState 1 s3 = Some Connection.OPEN /\
  Connection.wsConnection s3 = None.
Proof.
  intros s s3.
  destruct (stale_close_drops_replacement 0 s eq_refl (or_intror eq_refl))
    as (_ & H1 & H2 & _).
  split; [exact H1 | exact H2].
Defined.

(** ** Attempts that fail *)

Section Failing.
Import Connection.

(** Rejecting the promise of a socket makes the request that awaits it
    throw, its [catch] block clearing the flag. *)
Lemma reject_awaiting j c s :
  connectPromises s !! j = None -> callers s !! c = Some (Awaiting j) ->
  callers (reject j s) !! c = Some Threw /\ connecting (reject j s) = false /\
  sockets (reject j s) = sockets s /\ wsConnection (reject j s) = wsConnection s.
Proof.
  intros Hp Hc. unfold reject. rewrite Hp. cbn [callers set_connectPromises].
  rewrite bool_decide_eq_true_2 by (by eapply list_elem_of_lookup_2).
  cbn. rewrite list_lookup_fmap, Hc. cbn. unfold resume.
  by rewrite bool_decide_eq_true_2.
Qed.

(** The set-up timer of the attempt in flight fires. *)
Lemma timeout_in_flight k c1 s :
  in_flight k c1 s ->
  let s2 := step s (SetupTimeout k) in
  callers s2 !! c1 = Some Threw /\ connecting s2 = false /\
  wsConnection s2 = None /\ readyState k s2 = Some CLOSING /\
  attempts (step s2 EnsureConnected) = S (S k).
Proof.
  intros [Ha1 Hw Hk Hf Hp Ht Hca] s2.
  assert (Hlt : (k < length (sockets s))%nat) by by eapply lookup_lt_Some.
  assert (Hs2 : s2 = reject k
            (set_wsConnection None
               (close k (set_connecting false (clearTimeout k s))))).
  { unfold s2. cbn [step]. rewrite bool_decide_eq_true_2 by done.
    unfold on_timeout, is_not_open.
    change (wsConnection (clearTimeout k s)) with (wsConnection s).
    rewrite Hw.
    change (readyState k (clearTimeout k s)) with (readyState k s).
    rewrite Hk. rewrite bool_decide_eq_false_2 by done. cbn [negb].
    change (wsConnection (set_connecting false (clearTimeout k s)))
      with (wsConnection s).
    by rewrite Hw. }
  set (s1' := set_wsConnection None _) in Hs2.
  assert (Hso' : sockets s1' = <[k := CLOSING]> (sockets s)).
  { unfold s1', close.
    change (readyState k (set_connecting _ _)) with (readyState k s).
    by rewrite Hk. }
  destruct (reject_awaiting k c1 s1') as (Hca2 & Hf2 & Hso2 & Hw2).
  { unfold s1'. cbn [connectPromises set_wsConnection].
    destruct (close_fields k (set_connecting false (clearTimeout k s)))
      as (_ & _ & -> & _). done. }
  { unfold s1'. cbn [callers set_wsConnection].
    destruct (close_fields k (set_connecting false (clearTimeout k s)))
      as (_ & _ & _ & ->). done. }
  rewrite <- Hs2 in Hca2, Hf2, Hso2, Hw2. rewrite Hso' in Hso2.
  change (wsConnection s1') with (@None nat) in Hw2.
  assert (Hk2 : readyState k s2 = Some CLOSING).
  { unfold readyState. rewrite Hso2. by apply list_lookup_insert_eq. }
  repeat split; try done.
  rewrite ensureConnected_connects; [| |done].
  - unfold attempts. rewrite Hso2, length_insert.
    fold (attempts s). by rewrite Ha1.
  - unfold is_open. by rewrite Hw2.
Qed.

(** The socket of the attempt in flight reports an error. *)
Lemma error_in_flight k c1 s :
  in_flight k c1 s ->
  let s2 := step s (Error k) in
  callers s2 !! c1 = Some Threw /\ connecting s2 = false /\
  readyState k s2 = Some CLOSING /\
  attempts (step s2 EnsureConnected) = S (S k).
Proof.
  intros [Ha1 Hw Hk Hf Hp Ht Hca] s2.
  assert (Hlt : (k < length (sockets s))%nat) by by eapply lookup_lt_Some.
  set (s0 := set_sockets (<[k := CLOSING]> (sockets s)) s).
  assert (Hk0 : readyState k s0 = Some CLOSING).
  { unfold readyState, s0. cbn [sockets set_sockets].
    by apply list_lookup_insert_eq. }
  assert (Hs2 : s2 = reject k (set_connecting false (clearTimeout k s0))).
  { unfold s2. cbn [step]. rewrite Hk. fold s0.
    unfold on_error, is_not_open.
    cbn [clearTimeout set_setupTimers wsConnection set_connecting].
    change (wsConnection s0) with (wsConnection s).
    rewrite Hw.
    change (readyState k (set_connecting _ _)) with (readyState k s0).
    rewrite Hk0. by rewrite bool_decide_eq_false_2. }
  destruct (reject_awaiting k c1 (set_connecting false (clearTimeout k s0)))
    as (Hca2 & Hf2 & Hso2 & Hw2); [done | done |].
  rewrite <- Hs2 in Hca2, Hf2, Hso2, Hw2.
  cbn [sockets set_connecting clearTimeout set_setupTimers wsConnection]
    in Hso2, Hw2.
  change (wsConnection s0) with (wsConnection s) in Hw2.
  assert (Hk2 : readyState k s2 = Some CLOSING).
  { unfold readyState. by rewrite Hso2. }
  repeat split; try done.
  rewrite ensureConnected_connects; [| |done].
  - unfold attempts. rewrite Hso2. unfold s0.
    cbn [sockets set_sockets]. rewrite length_insert.
    fold (attempts s). by rewrite Ha1.
  - unfold is_open. rewrite Hw2, Hw, Hk2.
    by apply bool_decide_eq_false_2.
Qed.

End Failing.

(** X25: a request issued in a reachable state with no connection open and
    the flag down constructs a socket and awaits it, and it still awaits it
    after any further requests, turns of wait loops short of the twentieth
    and reconnection timers.  When, no socket having emitted an event and
    no set-up timer having fired in between, the set-up timer of the socket
    then fires, or the socket reports an error, the request throws; the
    flag is down again, so that the next request constructs a new socket.
    The timer also closes the socket and drops it. *)
Theorem ensureConnected_throws_on_failure
    (evs : list Connection.Event) (tty : bool) (evs' : list Connection.Event) :
  let s := Connection.run evs (Connection.initial tty) in
  Connection.connecting s = false -> Connection.is_open s = false ->
  let k := Connection.attempts s in
  let c1 := length (Connection.callers s) in
  let s1 := Connection.step s Connection.EnsureConnected in
  patient s1 evs' = true ->
  let s1' := Connection.run evs' s1 in
  (Connection.callers s1 !! c1 = Some (Connection.Awaiting k) /\
   Connection.connecting s1 = true /\ Connection.attempts s1 = S k) /\
  (Connection.callers s1' !! c1 = Some (Connection.Awaiting k) /\
   Connection.connecting s1' = true /\ Connection.attempts s1' = S k) /\
  (let s2 := Connection.step s1' (Connection.SetupTimeout k) in
   Connection.callers s2 !! c1 = Some Connection.Threw /\
   Connection.connecting s2 = false /\
   Connection.wsConnection s2 = None /\
   Connection.readyState k s2 = Some Connection.CLOSING /\
   Connection.attempts (Connection.step s2 Connection.EnsureConnected) = S (S k)) /\
  (let s2 := Connection.step s1' (Connection.Error k) in
   Connection.callers s2 !! c1 = Some Connection.Threw /\
   Connection.connecting s2 = false /\
   Connection.readyState k s2 = Some Connection.CLOSING /\
   Connection.attempts (Connection.step s2 Connection.EnsureConnected) = S (S k)).
Proof.
  intros s Hc Ho k c1 s1 Hp s1'.
  assert (Hok : session_ok s) by apply run_session_ok, initial_session_ok.
  destruct (first_request_in_flight s Hok Hc Ho) as [H1 _]. fold k c1 s1 in H1.
  destruct (patient_run k c1 evs' s1 H1 Hp) as [H1' _]. fold s1' in H1'.
  split; [by destruct H1|]. split; [by destruct H1'|]. split.
  - apply (timeout_in_flight k c1 s1' H1').
  - apply (error_in_flight k c1 s1' H1').
Qed.

Lemma ensureConnected_throws_on_failure_witness :
  let s := Connection.run [] (Connection.initial true) in
  let s1 := Connection.step s Connection.EnsureConnected in
  let s1' := Connection.run [Connection.EnsureConnected; Connection.Poll 1] s1 in
  let s2 := Connection.step s1' (Connection.SetupTimeout 0) in
  Connection.callers s2 !! 0%nat = Some Connection.Threw /\
  Connection.connecting s2 = false /\
  Connection.wsConnection s2 = None /\
  Connection.readyState 0 s2 = Some Connection.CLOSING /\
  Connection.attempts (Connection.step s2 Connection.EnsureConnected) = 2%nat.
Proof.
  intros s s1 s1' s2.
  refine (proj1 (proj2 (proj2
            (ensureConnected_throws_on_failure [] true
               [Connection.EnsureConnected; Connection.Poll 1] _ _ _))));
    reflexivity.
Defined.

(** * The output of the key tool *)

Section Strings.
Import RustCore.

Lemma startsWith_spec s p : startsWith s p = true <-> exists b, s = p ++ b.
Proof.
  revert s. induction p as [|c p IH]; intros s; simpl.
  - split; [intros _; by exists s | done].
  - destruct s as [|d s].
    + split; [done | by intros [b ?]].
    + rewrite andb_true_iff, bool_decide_eq_true, IH. split.
      * intros [-> [b ->]]. by exists b.
      * intros [b [= -> ->]]. split; [done | by exists b].
Qed.

Lemma includes_spec s p : includes s p = true <-> occurs p s.
Proof.
  unfold occurs. induction s as [|d s IH]; simpl.
  - rewrite startsWith_spec. split.
    + intros [b Hb]. by exists [], b.
    + intros (a & b & Hab). destruct a; [by exists b | done].
  - rewrite orb_true_iff, startsWith_spec, IH. split.
    + intros [[b Hb] | (a & b & ->)]; [by exists [], b | by exists (d :: a), b].
    + intros ([|d' a] & b & Hab).
      * left. by exists b.
      * right. injection Hab as -> ->. by exists a, b.
Qed.

Lemma includes_false s p : includes s p = false <-> ~ occurs p s.
Proof. rewrite <- includes_spec. by destruct (includes s p). Qed.

Lemma occurs_trans p x s : occurs p x -> occurs x s -> occurs p s.
Proof.
  intros (a & b & ->) (a' & b' & ->). exists (a' ++ a), (b ++ b').
  by rewrite <- !app_assoc.
Qed.

Lemma occurs_suffix p q s : occurs (p ++ q) s -> occurs q s.
Proof. intros (a & b & ->). exists (a ++ p), b. by rewrite <- !app_assoc. Qed.

Lemma occurs_refl s : occurs s s.
Proof. exists [], []. by rewrite app_nil_r. Qed.

(** *** [split] *)

(** Every piece is a part of the string. *)
Lemma split_from_occurs separator skip piece s x :
  x ∈ split_from separator skip piece s ->
  occurs x (reverse piece ++ drop skip s).
Proof.
  revert skip piece. induction s as [|c s IH]; intros skip piece; cbn [split_from].
  - intros ->%list_elem_of_singleton. rewrite drop_nil, app_nil_r. apply occurs_refl.
  - destruct skip as [|skip]; [|apply IH].
    rewrite drop_0. destruct (startsWith (c :: s) separator) eqn:Hstart.
    + intros [-> | Hx%IH]%elem_of_cons.
      * exists [], (c :: s). done.
      * destruct Hx as (a & b & Hab). rewrite reverse_nil in Hab. simpl in Hab.
        exists (reverse piece ++ c :: take (length separator - 1) s ++ a), b.
        rewrite <- !app_assoc. simpl. rewrite <- !app_assoc. f_equal. f_equal.
        rewrite <- Hab. by rewrite take_drop.
    + intros Hx%IH. rewrite drop_0, reverse_cons, <- app_assoc in Hx. done.
Qed.

Lemma split_occurs s separator x : x ∈ split s separator -> occurs x s.
Proof.
  unfold split. destruct separator as [|c separator].
  - intros (d & -> & Hd)%list_elem_of_fmap.
    apply list_elem_of_split in Hd as (a & b & ->). by exists a, b.
  - intros Hx%split_from_occurs. by rewrite reverse_nil, drop_0 in Hx.
Qed.

Lemma split_from_skip separator piece a s :
  split_from separator (length a) piece (a ++ s) = split_from separator 0 piece s.
Proof. induction a as [|c a IH]; simpl; [by destruct s | done]. Qed.

(** A string without the separator is one piece. *)
Lemma split_from_whole separator piece s :
  separator <> [] -> includes s separator = false ->
  split_from separator 0 piece s = [reverse piece ++ s].
Proof.
  intros Hne. revert piece. induction s as [|c s IH]; intros piece; simpl.
  - by rewrite app_nil_r.
  - intros [Hstart Hrest]%orb_false_elim. simpl in Hstart. rewrite Hstart.
    rewrite IH by done. by rewrite reverse_cons, <- app_assoc.
Qed.

(** The first separator ends the first piece, when the code unit it starts
    with does not come before. *)
Lemma split_from_first c separator piece before after :
  c ∉ before ->
  split_from (c :: separator) 0 piece (before ++ (c :: separator) ++ after) =
    (reverse piece ++ before) :: split_from (c :: separator) 0 [] after.
Proof.
  intros Hc. revert piece. induction before as [|d before IH]; intros piece.
  - cbn [app split_from].
    assert (Hstart : startsWith (c :: separator ++ after) (c :: separator) = true).
    { apply startsWith_spec. by exists after. }
    rewrite Hstart, app_nil_r. f_equal.
    cbn [length]. replace (S (length separator) - 1)%nat with (length separator) by lia.
    apply split_from_skip.
  - apply not_elem_of_cons in Hc as [Hne Hc].
    cbn [app split_from startsWith].
    rewrite bool_decide_eq_false_2 by done. cbn [andb].
    rewrite IH by done. by rewrite reverse_cons, <- app_assoc.
Qed.

(** Lines that hold no line feed are the pieces of their join. *)
Lemma split_from_line piece line :
  one_line line -> split_from newline 0 piece line = [reverse piece ++ line].
Proof.
  intros Hline. apply split_from_whole; [done|].
  apply includes_false. intros (a & b & ->). apply Hline.
  apply elem_of_app. right. by left.
Qed.

Lemma split_from_lines piece line rest :
  one_line line ->
  split_from newline 0 piece (line ++ newline ++ rest) =
    (reverse piece ++ line) :: split_from newline 0 [] rest.
Proof. intros Hline. by apply (split_from_first 10%N []). Qed.

Lemma split_newline s : split s newline = split_from newline 0 [] s.
Proof. done. Qed.

Lemma split_join_lines lines :
  Forall one_line lines -> lines <> [] -> split (join_lines lines) newline = lines.
Proof.
  induction 1 as [|line lines Hline Hlines IH]; [done|].
  intros _. rewrite split_newline. destruct lines as [|line' lines].
  - cbn [join_lines]. by rewrite (split_from_line [] line).
  - change (join_lines (line :: line' :: lines))
      with (line ++ newline ++ join_lines (line' :: lines)).
    rewrite (split_from_lines [] line) by done.
    rewrite <- split_newline. by rewrite IH.
Qed.

(** *** [trim] *)

Lemma trimStart_head s c : head (trimStart s) = Some c -> white_space c = false.
Proof.
  induction s as [|d s IH]; simpl; [done|].
  destruct (white_space d) eqn:Hd; [done|]. by intros [= <-].
Qed.

Lemma trimStart_suffix s : exists k, s = k ++ trimStart s.
Proof.
  induction s as [|d s [k IH]]; simpl; [by exists []|].
  destruct (white_space d); [|by exists []].
  exists (d :: k). simpl. by rewrite <- IH.
Qed.

Lemma trimEnd_prefix s : exists k, s = trimEnd s ++ k.
Proof.
  destruct (trimStart_suffix (reverse s)) as [k Hk]. exists (reverse k).
  unfold trimEnd. rewrite <- reverse_app, <- Hk. by rewrite reverse_involutive.
Qed.

Lemma trim_trimmed s : trimmed (trim s).
Proof.
  unfold trim. split; intros c Hc.
  - destruct (trimEnd_prefix (trimStart s)) as [k Hk].
    apply (trimStart_head s). rewrite Hk.
    by destruct (trimEnd (trimStart s)).
  - unfold trimEnd in Hc. rewrite last_reverse in Hc.
    by apply trimStart_head in Hc.
Qed.

Lemma trimmed_nil : trimmed [].
Proof. by split. Qed.

(** *** [extractValue] *)

Lemma extractValue_in_trimmed lines label : trimmed (extractValue_in lines label).
Proof.
  induction lines as [|line lines IH]; simpl; [apply trimmed_nil|].
  destruct (includes line label); [|done].
  destruct (split line label) as [|? [|part ?]]; try done. apply trim_trimmed.
Qed.

Lemma extractValue_in_skip earlier lines label :
  Forall (fun line => includes line label = false) earlier ->
  extractValue_in (earlier ++ lines) label = extractValue_in lines label.
Proof. induction 1 as [|line earlier Hline _ IH]; simpl; [done|]. by rewrite Hline. Qed.

Lemma extractValue_absent output label :
  ~ occurs label output -> extractValue output label = [].
Proof.
  intros Hno. unfold extractValue.
  rewrite <- (app_nil_r (split output newline)).
  rewrite extractValue_in_skip; [done|].
  apply Forall_forall. intros line Hline%split_occurs.
  apply includes_false. intros Hl. apply Hno. by eapply occurs_trans.
Qed.

(** The line [before ++ label ++ value] gives [value], trimmed. *)
Lemma extractValue_in_line c label before value lines :
  c ∉ before -> ~ occurs (c :: label) value ->
  extractValue_in ((before ++ (c :: label) ++ value) :: lines) (c :: label)
    = trim value.
Proof.
  intros Hc Hvalue. cbn [extractValue_in].
  assert (Hin : includes (before ++ (c :: label) ++ value) (c :: label) = true).
  { apply includes_spec. by exists before, value. }
  rewrite Hin. unfold split.
  rewrite (split_from_first c label [] before value Hc).
  rewrite split_from_whole; [done | done | by apply includes_false].
Qed.

End Strings.

(** X26: [verifySignature] answers true exactly when the tool exits with
    nothing on its standard error and the text [valid] somewhere in its
    output; so it answers true when the tool prints [invalid]. *)
Theorem verifySignature_accepts_invalid
    (tool : RustCore.Tool) (messageStr signature pubkey : jsstring) :
  let args := [js "verify-signature"; js "--message"; messageStr;
               js "--signature"; signature; js "--pubkey"; pubkey] in
  (RustCore.verifySignature tool messageStr signature pubkey = true <->
   exists stdout, tool args = RustCore.Exited stdout [] /\ occurs (js "valid") stdout) /\
  (forall stdout, tool args = RustCore.Exited stdout [] ->
     occurs (js "invalid") stdout ->
     RustCore.verifySignature tool messageStr signature pubkey = true).
Proof.
  intros args.
  assert (Hiff : RustCore.verifySignature tool messageStr signature pubkey = true <->
    exists stdout, tool args = RustCore.Exited stdout [] /\ occurs (js "valid") stdout).
  { unfold RustCore.verifySignature. fold args.
    destruct (tool args) as [stdout stderr | message].
    - rewrite andb_true_iff, includes_spec. split.
      + intros [Herr Hout]. exists stdout. by destruct stderr.
      + intros (stdout' & [= -> ->] & Hout). done.
    - split; [done | by intros (? & ? & _)]. }
  split; [exact Hiff|].
  intros stdout Hrun Hout. apply Hiff. exists stdout. split; [done|].
  by apply (occurs_suffix (js "in") (js "valid")).
Qed.

(** X27: [extractValue] returns the empty string when the label occurs
    nowhere in the output; whatever it returns has no white space at
    either end. *)
Theorem extractValue_absent_or_trimmed (output label : jsstring) :
  (~ occurs label output -> RustCore.extractValue output label = []) /\
  trimmed (RustCore.extractValue output label).
Proof.
  split; [apply extractValue_absent | apply extractValue_in_trimmed].
Qed.

(** X28: in an output made of lines, [extractValue] reads the first line
    that holds the label: when the label's first code unit does not come
    before the label on that line, and the label does not come again after
    it, the value is what follows the label, trimmed. *)
Theorem extractValue_reads_first_line
    (earlier later : list jsstring) (before value : jsstring)
    (c : N) (label : jsstring) :
  Forall (fun line => one_line line /\ ~ occurs (c :: label) line) earlier ->
  Forall one_line later ->
  one_line (before ++ (c :: label) ++ value) ->
  c ∉ before -> ~ occurs (c :: label) value ->
  RustCore.extractValue
    (join_lines (earlier ++ (before ++ (c :: label) ++ value) :: later))
    (c :: label)
  = RustCore.trim value.
Proof.
  intros Hearlier Hlater Hline Hc Hvalue. unfold RustCore.extractValue.
  rewrite split_join_lines.
  - rewrite extractValue_in_skip; [by apply extractValue_in_line|].
    eapply Forall_impl; [exact Hearlier|]. intros line [_ Hno].
    by apply includes_false.
  - apply Forall_app. split.
    + eapply Forall_impl; [exact Hearlier|]. by intros line [? _].
    + by constructor.
  - by destruct earlier.
Qed.

Lemma extractValue_reads_first_line_witness :
  RustCore.extractValue
    (join_lines [js "Mnemonic: one two"; js "  Public Key:  0xabc "; js "Path: m"])
    (js "Public Key:")
  = js "0xabc".
Proof.
  refine (extractValue_reads_first_line [js "Mnemonic: one two"] [js "Path: m"]
            (js "  ") (js "  0xabc ") 80%N (js "ublic Key:") _ _ _ _ _).
  - repeat constructor.
    + refine (bool_decide_unpack _ _). vm_compute. exact I.
    + intros H%includes_spec. vm_compute in H. discriminate.
  - repeat constructor. refine (bool_decide_unpack _ _). vm_compute. exact I.
  - refine (bool_decide_unpack _ _). vm_compute. exact I.
  - refine (bool_decide_unpack _ _). vm_compute. exact I.
  - intros H%includes_spec. vm_compute in H. discriminate.
Defined.

Section ToolKeys.
Import RustCore.

Lemma nonempty_spec s : nonempty s = true <-> s <> [].
Proof. by destruct s. Qed.

(** A value that is not empty was read after its label. *)
Lemma extractValue_present output label :
  extractValue output label <> [] -> occurs label output.
Proof.
  intros Hv. destruct (includes output label) eqn:Hin.
  - by apply includes_spec.
  - apply includes_false in Hin. by apply extractValue_absent in Hin.
Qed.

Lemma restoreKeys_inv tool mnemonic0 alphanumeric seedIndex keys :
  restoreKeys tool mnemonic0 alphanumeric seedIndex = inr keys ->
  exists stdout stderr,
    tool [js "generate-keys"; js "--mnemonic"; mnemonic0;
          js "--alphanumeric"; alphanumeric;
          js "--seed-index"; Number_toString seedIndex] = Exited stdout stderr /\
    occurs (js "Public Key:") (stdout ++ stderr) /\
    publicKey keys = extractValue (stdout ++ stderr) (js "Public Key:") /\
    publicKey keys <> [] /\ trimmed (publicKey keys) /\
    mnemonic keys = mnemonic0 /\ alphanumericPart keys = alphanumeric /\
    mainPath keys <> [] /\
    (~ occurs (js "Derivation Path:") (stdout ++ stderr) ->
     mainPath keys = js "m/44'/60'/0'/" ++ Number_toString seedIndex ++ js "'").
Proof.
  unfold restoreKeys.
  destruct (tool _) as [stdout stderr | message]; [|done].
  cbv zeta. destruct (nonempty stderr && _); [done|].
  destruct (nonempty (extractValue (stdout ++ stderr) (js "Public Key:"))) eqn:Hpk;
    [|done].
  apply nonempty_spec in Hpk. cbn [negb]. intros Heq.
  apply (inj inr) in Heq. subst keys.
  cbn [publicKey mnemonic alphanumericPart mainPath].
  exists stdout, stderr. split; [done|].
  split; [by apply extractValue_present|]. split; [done|]. split; [done|].
  split; [apply extractValue_in_trimmed|]. split; [done|]. split; [done|].
  split.
  - destruct (nonempty (extractValue (stdout ++ stderr) (js "Derivation Path:")))
      eqn:Hp; [by apply nonempty_spec|].
    by change (js "m/44'/60'/0'/") with (109%N :: js "/44'/60'/0'/").
  - intros Hno. by rewrite (extractValue_absent _ _ Hno).
Qed.

End ToolKeys.

(** X29, for a seed index that is a safe integer, which [toString] and the
    template literal print in decimal digits: when [restoreKeys] returns,
    the tool has exited with [Public Key:]
    in its output, whether or not it wrote to its standard error; the
    public key is the value read after that label, not empty and trimmed;
    the mnemonic and the alphanumeric part are the arguments; the
    derivation path is not empty, and it is [m/44'/60'/0'/<seedIndex>']
    when the output names none.  When [generateKeys] returns, the keys are
    those of [restoreKeys] on the mnemonic and the alphanumeric part read
    from the output of [generate-mnemonic]. *)
Theorem keys_read_from_the_tool
    (tool : RustCore.Tool) (mnemonic alphanumeric : jsstring) (seedIndex : Z)
    (keys : RustCore.Keys) :
  safe_integer seedIndex ->
  (RustCore.restoreKeys tool mnemonic alphanumeric seedIndex = inr keys ->
   exists stdout stderr,
     tool [js "generate-keys"; js "--mnemonic"; mnemonic;
           js "--alphanumeric"; alphanumeric;
           js "--seed-index"; Number_toString seedIndex]
       = RustCore.Exited stdout stderr /\
     occurs (js "Public Key:") (stdout ++ stderr) /\
     RustCore.publicKey keys
       = RustCore.extractValue (stdout ++ stderr) (js "Public Key:") /\
     RustCore.publicKey keys <> [] /\ trimmed (RustCore.publicKey keys) /\
     RustCore.mnemonic keys = mnemonic /\
     RustCore.alphanumericPart keys = alphanumeric /\
     RustCore.mainPath keys <> [] /\
     (~ occurs (js "Derivation Path:") (stdout ++ stderr) ->
      RustCore.mainPath keys
        = js "m/44'/60'/0'/" ++ Number_toString seedIndex ++ js "'")) /\
  (RustCore.generateKeys tool seedIndex = inr keys ->
   exists stdout stderr,
     tool [js "generate-mnemonic"] = RustCore.Exited stdout stderr /\
     RustCore.mnemonic keys
       = RustCore.extractValue (stdout ++ stderr) (js "Mnemonic:") /\
     RustCore.mnemonic keys <> [] /\
     RustCore.alphanumericPart keys
       = RustCore.extractValue (stdout ++ stderr) (js "Alphanumeric:") /\
     RustCore.restoreKeys tool (RustCore.mnemonic keys)
       (RustCore.alphanumericPart keys) seedIndex = inr keys).
Proof.
  intros _. split; [apply restoreKeys_inv|].
  unfold RustCore.generateKeys, RustCore.generateMnemonic.
  destruct (tool [js "generate-mnemonic"]) as [stdout stderr | message]; [|done].
  cbv zeta.
  destruct (RustCore.nonempty
              (RustCore.extractValue (stdout ++ stderr) (js "Mnemonic:"))) eqn:Hm;
    [|done].
  cbn [negb].
  destruct (RustCore.restoreKeys tool _ _ seedIndex) as [message | keys'] eqn:Hr;
    [done|].
  intros [= ->].
  destruct (restoreKeys_inv _ _ _ _ _ Hr) as (_ & _ & _ & _ & _ & _ & _ & Hmn & Hal & _).
  exists stdout, stderr. rewrite Hmn, Hal.
  repeat split; try done. by apply nonempty_spec.
Qed.

Lemma keys_read_from_the_tool_witness :
  let tool := prints (js "Public Key: 0xabc" ++ RustCore.newline)
                (js "note: debug build") in
  exists keys,
    RustCore.restoreKeys tool (js "one two") (js "A1") 3 = inr keys /\
    RustCore.publicKey keys = js "0xabc" /\
    RustCore.mainPath keys = js "m/44'/60'/0'/3'".
Proof.
  intros tool.
  set (keys := {| RustCore.publicKey := js "0xabc"; RustCore.privateKey := [];
                  RustCore.signatureKey := []; RustCore.mnemonic := js "one two";
                  RustCore.alphanumericPart := js "A1";
                  RustCore.mainPath := js "m/44'/60'/0'/3'" |}).
  assert (Hrun : RustCore.restoreKeys tool (js "one two") (js "A1") 3 = inr keys)
    by (vm_compute; reflexivity).
  exists keys. split; [exact Hrun|].
  assert (Hsafe : safe_integer 3) by (unfold safe_integer; cbn; lia).
  destruct (proj1 (keys_read_from_the_tool tool (js "one two") (js "A1") 3 keys Hsafe)
              Hrun)
    as (stdout & stderr & Htool & _ & Hpk & _ & _ & _ & _ & _ & Hpath).
  injection Htool as <- <-. split.
  - rewrite Hpk. vm_compute. reflexivity.
  - rewrite Hpath; [vm_compute; reflexivity|].
    intros H%includes_spec. vm_compute in H. discriminate.
Defined.

(** X30: [signMessage] returns whenever the tool exits with an empty
    standard error, or with one that holds [Message Hash:]; it reads the
    hash and the signature from the standard output alone, and a label
    that the standard output does not hold gives an empty string, not an
    error.  With anything else on the standard error it throws. *)
Theorem signMessage_reads_stdout
    (tool : RustCore.Tool) (messageStr mnemonic alphanumeric stdout stderr : jsstring) :
  tool [js "sign-message"; js "--message"; messageStr;
        js "--mnemonic"; mnemonic; js "--alphanumeric"; alphanumeric]
    = RustCore.Exited stdout stderr ->
  (stderr = [] \/ occurs (js "Message Hash:") stderr ->
   exists signed,
     RustCore.signMessage tool messageStr mnemonic alphanumeric = inr signed /\
     RustCore.hash signed = RustCore.extractValue stdout (js "Message Hash:") /\
     (~ occurs (js "Message Hash:") stdout -> RustCore.hash signed = []) /\
     (~ occurs (js "Compact:") stdout -> RustCore.signature_compact signed = []) /\
     (~ occurs (js "DER:") stdout -> RustCore.der signed = [])) /\
  (stderr <> [] -> ~ occurs (js "Message Hash:") stderr ->
   RustCore.signMessage tool messageStr mnemonic alphanumeric
     = inl (js "Failed to sign message with Rust Core: Rust Core error: " ++ stderr)).
Proof.
  intros Htool. unfold RustCore.signMessage. rewrite Htool. cbv zeta. split.
  - intros Herr.
    assert (Hok : RustCore.nonempty stderr
                  && negb (RustCore.includes stderr (js "Message Hash:")) = false).
    { destruct Herr as [-> | Hin%includes_spec]; [done|].
      rewrite Hin. apply andb_false_r. }
    rewrite Hok. eexists. split; [done|].
    cbn [RustCore.hash RustCore.signature_compact RustCore.der].
    split; [done|]. split; [apply extractValue_absent|].
    split; apply extractValue_absent.
  - intros Hne%nonempty_spec Hno%includes_false. rewrite Hne, Hno. reflexivity.
Qed.

Lemma signMessage_reads_stdout_witness :
  exists signed,
    RustCore.signMessage (prints (js "done") []) (js "{}") (js "one two") (js "A1")
      = inr signed /\
    RustCore.signature_compact signed = [] /\ RustCore.der signed = [].
Proof.
  destruct (proj1 (signMessage_reads_stdout (prints (js "done") [])
                     (js "{}") (js "one two") (js "A1") (js "done") [] eq_refl)
              (or_introl eq_refl))
    as (signed & Hrun & _ & _ & Hc & Hd).
  exists signed. split; [exact Hrun|]. split.
  - apply Hc. intros H%includes_spec. vm_compute in H. discriminate.
  - apply Hd. intros H%includes_spec. vm_compute in H. discriminate.
Defined.
